(** * Compact radix tree duplicate detection

    A shallow embedding of [UniqueNumberCounter.cpp] / [UniqueNumberCounter.h]:
    the compact radix tree engine with its three edge collections
    ([UnorderedEdges], [OrderedEdges], [IndexedEdges]), the set based
    baseline and the counting wrapper, followed by the properties
    established about them.

    Objects created with [new] live in a store and are referred to by
    address, so that the in-place updates made through [shared_ptr] are
    updates of the store. *)

From Stdlib Require Import ZArith Lia.
From Stdlib Require Import Ascii.
From Stdlib Require String.
From stdpp Require Import base option list sorting strings gmap sets.

Open Scope Z_scope.
Open Scope nat_scope.

(** ** Strings *)

(** A [std::string] is the list of its characters. *)
Abbreviation str := (list ascii).

Definition of_string (s : string) : str := String.list_ascii_of_string s.

(** Character code, as [unsigned char]. *)
Definition code (c : ascii) : Z := Z.of_nat (nat_of_ascii c).

(** [isdigit] in the C locale. *)
Definition isdigit (c : ascii) : bool :=
  (48 <=? code c)%Z && (code c <=? 57)%Z.

(** [std::string::operator<]: lexicographic, characters compared by code. *)
Fixpoint str_lt (a b : str) : bool :=
  match a, b with
  | [], [] => false
  | [], _ :: _ => true
  | _ :: _, [] => false
  | x :: a', y :: b' =>
      if (code x <? code y)%Z then true
      else if (code y <? code x)%Z then false
      else str_lt a' b'
  end.

(** ** Outcomes and the state monad

    [RaiseError] throws; the state reached so far stays as it is.  Reading
    through a null or dangling pointer, indexing a vector outside its
    bounds and stepping an iterator below [begin()] have no defined
    behaviour in C++: the model stops there with [Undefined].  [OutOfFuel] belongs to the model only (bounded loops). *)

Inductive outcome (A : Type) : Type :=
| Ok (a : A)
| Raise (message : string)
| Undefined
| OutOfFuel.
Arguments Ok {A} a.
Arguments Raise {A} message.
Arguments Undefined {A}.
Arguments OutOfFuel {A}.

Global Instance outcome_eq_dec {A} `{EqDecision A} : EqDecision (outcome A).
Proof. solve_decision. Defined.

Global Instance outcome_ret : MRet outcome := λ A a, Ok a.

Global Instance outcome_bind : MBind outcome := λ A B f o,
  match o with
  | Ok a => f a
  | Raise m => Raise m
  | Undefined => Undefined
  | OutOfFuel => OutOfFuel
  end.

Definition M (S A : Type) : Type := S → outcome A * S.

Global Instance M_ret {S} : MRet (M S) := λ A a s, (Ok a, s).

Global Instance M_bind {S} : MBind (M S) := λ A B f m s,
  match m s with
  | (Ok a, s') => f a s'
  | (Raise msg, s') => (Raise msg, s')
  | (Undefined, s') => (Undefined, s')
  | (OutOfFuel, s') => (OutOfFuel, s')
  end.

Definition lift {S A} (o : outcome A) : M S A := λ s, (o, s).

Definition RaiseError {S A} (message : string) : M S A := lift (Raise message).

Definition undefined {S A} : M S A := lift Undefined.

(** ** Edges *)

Abbreviation ptr := nat.

(** [class Edge]: [m_Next] is never null once the constructor has run. *)
Record Edge : Type := mkEdge { m_Value : str; m_Next : ptr }.

(** The counting loop of [Edge::GetNumCommonChars]. *)
Fixpoint common_chars (value remainder : str) : nat :=
  match value, remainder with
  | x :: value', y :: remainder' =>
      if decide (x = y) then S (common_chars value' remainder') else 0
  | _, _ => 0
  end.

Definition GetNumCommonChars (this : Edge) (remainder : str) : outcome nat :=
  match remainder with
  | [] => Raise "invalid remainder"
  | _ => Ok (common_chars (m_Value this) remainder)
  end.

(** Dereferencing a [shared_ptr<Edge>] held in a collection. *)
Definition deref_edge (es : list Edge) (p : ptr) : outcome Edge :=
  match es !! p with
  | Some e => Ok e
  | None => Undefined
  end.

(** ** The edge collections

    The three classes share one shape: a default constructor, [Add],
    [Find] and [GetContainer].  [Add] and [Find] read the labels of the
    edges they are given, hence the edge store argument. *)

Class Edges (C : Type) : Type := {
  Edges_new : C;
  Add : list Edge → ptr → C → outcome C;
  Find : list Edge → str → C → outcome (nat * option ptr);
  GetContainer : C → list ptr
}.

(** *** [UnorderedEdges]: a [std::list] in insertion order *)

Module UnorderedEdges.
Abbreviation Container := (list ptr).

Definition Add (es : list Edge) (edge : ptr) (c : Container) : outcome Container :=
  Ok (c ++ [edge]).

(** The [for] loop of [Find]; [ret] is the pair being filled in. *)
Fixpoint Find_from (es : list Edge) (remainder : str) (c : Container)
    (ret : nat * option ptr) : outcome (nat * option ptr) :=
  match c with
  | [] => Ok ret
  | edge :: c' =>
      e ← deref_edge es edge;
      n ← GetNumCommonChars e remainder;
      if 0 <? n then Ok (n, Some edge) else Find_from es remainder c' (n, ret.2)
  end.

Definition Find (es : list Edge) (remainder : str) (c : Container) :=
  Find_from es remainder c (0, None).
End UnorderedEdges.

Global Instance UnorderedEdges_Edges : Edges UnorderedEdges.Container := {|
  Edges_new := [];
  Add := UnorderedEdges.Add;
  Find := UnorderedEdges.Find;
  GetContainer c := c
|}.

(** *** [OrderedEdges]: a [std::map] from label to edge

    The map is the list of its entries in increasing key order.  The key
    of an entry is the label the edge had when it was added. *)

Module OrderedEdges.
Abbreviation Container := (list (str * ptr)).

(** [std::map::insert]: nothing happens when the key is present. *)
Fixpoint map_insert (key : str) (edge : ptr) (c : Container) : Container :=
  match c with
  | [] => [(key, edge)]
  | (k, e) :: c' =>
      if str_lt key k then (key, edge) :: c
      else if str_lt k key then (k, e) :: map_insert key edge c'
      else c
  end.

(** [std::map::upper_bound] as a position: the first key greater than
    [key], or the size of the map ([end()]). *)
Fixpoint upper_bound (key : str) (c : Container) : nat :=
  match c with
  | [] => 0
  | (k, _) :: c' => if str_lt key k then 0 else S (upper_bound key c')
  end.

Definition Add (es : list Edge) (edge : ptr) (c : Container) : outcome Container :=
  e ← deref_edge es edge;
  Ok (map_insert (m_Value e) edge c).

(** One candidate: count its common characters, keep it when positive. *)
Definition try_edge (es : list Edge) (remainder : str) (edge : ptr)
    (ret : nat * option ptr) : outcome (nat * option ptr) :=
  e ← deref_edge es edge;
  n ← GetNumCommonChars e remainder;
  Ok (n, if 0 <? n then Some edge else ret.2).

(** [iter-- != m_Container.begin()] decrements [iter] whatever the
    comparison gives.  When [iter] is [begin()], which is when no key
    is below [remainder], the decrement has no defined behaviour. *)
Definition Find (es : list Edge) (remainder : str) (c : Container)
    : outcome (nat * option ptr) :=
  match c with
  | [] => Ok (0, None)
  | _ =>
      let iter := upper_bound remainder c in
      ret ← match c !! iter with
            | Some (_, edge) => try_edge es remainder edge (0, None)
            | None => Ok (0, None)
            end;
      if ret.1 =? 0 then
        if iter =? 0 then Undefined
        else
          match c !! (iter - 1) with
          | Some (_, edge) => try_edge es remainder edge ret
          | None => Undefined
          end
      else Ok ret
  end.

(** Not the program's: [Find] with the comparison made before the
    decrement ([iter != begin()], then [--iter]).  It says what [Find]
    returns wherever [Find] is defined, see [Ordered_Find_guarded]. *)
Definition Find_guarded (es : list Edge) (remainder : str) (c : Container)
    : outcome (nat * option ptr) :=
  match c with
  | [] => Ok (0, None)
  | _ =>
      let iter := upper_bound remainder c in
      ret ← match c !! iter with
            | Some (_, edge) => try_edge es remainder edge (0, None)
            | None => Ok (0, None)
            end;
      if ret.1 =? 0 then
        if negb (iter =? 0) then
          match c !! (iter - 1) with
          | Some (_, edge) => try_edge es remainder edge ret
          | None => Undefined
          end
        else Ok ret
      else Ok ret
  end.
End OrderedEdges.

Global Instance OrderedEdges_Edges : Edges OrderedEdges.Container := {|
  Edges_new := [];
  Add := OrderedEdges.Add;
  Find := OrderedEdges.Find;
  GetContainer c := c.*2
|}.

(** The collection with [Find_guarded] for [Find].  What the engine
    does with it, it does with [OrderedEdges] wherever
    [OrderedEdges::Find] is defined, see [Ordered_IsUnique]. *)
Definition OrderedEdges_guarded : Edges OrderedEdges.Container := {|
  Edges_new := [];
  Add := OrderedEdges.Add;
  Find := OrderedEdges.Find_guarded;
  GetContainer c := c.*2
|}.

(** *** [IndexedEdges]: a [std::vector] of ten slots

    [operator[]] is unchecked: a position outside the vector has no
    defined behaviour. *)

Module IndexedEdges.
Abbreviation Container := (list (option ptr)).

(** [s[0] - '0'], computed in [int]; [s[0]] of an empty string is the
    terminating null character.  The character is taken as its code,
    from 0 to 255, as where [char] is unsigned. *)
Definition slot_of (s : str) : Z :=
  match s with
  | [] => 0 - 48
  | ch :: _ => code ch - 48
  end.

(** The same where [char] is signed: a code from 128 on is read as the
    code less 256, and the slot is negative.  A vector of ten slots has
    neither slot, and everywhere else the two agree, see
    [slot_of_signed_in_range]. *)
Definition slot_of_signed (s : str) : Z :=
  match s with
  | [] => 0 - 48
  | ch :: _ => (if (code ch <? 128)%Z then code ch else code ch - 256) - 48
  end.

Definition in_range (i : Z) (c : Container) : bool :=
  (0 <=? i)%Z && (i <? Z.of_nat (length c))%Z.

Definition Add (es : list Edge) (edge : ptr) (c : Container) : outcome Container :=
  e ← deref_edge es edge;
  let i := slot_of (m_Value e) in
  if in_range i c then Ok (<[Z.to_nat i := Some edge]> c) else Undefined.

Definition Find (es : list Edge) (remainder : str) (c : Container)
    : outcome (nat * option ptr) :=
  let i := slot_of remainder in
  if in_range i c then
    match c !! Z.to_nat i with
    | Some (Some edge) =>
        e ← deref_edge es edge;
        n ← GetNumCommonChars e remainder;
        Ok (n, Some edge)
    | _ => Ok (0, None)
    end
  else Undefined.
End IndexedEdges.

Global Instance IndexedEdges_Edges : Edges IndexedEdges.Container := {|
  Edges_new := replicate 10 None;
  Add := IndexedEdges.Add;
  Find := IndexedEdges.Find;
  GetContainer c := omap id c
|}.

(** ** Nodes and the store *)

(** [class Node]: its only member is the edge collection. *)
Record Node (C : Type) : Type := mkNode { m_Edges : C }.
Arguments mkNode {C} m_Edges.
Arguments m_Edges {C} _.

(** The objects created with [new]: an address is a position in the
    store of its class.  Nothing is ever freed in the model; the objects
    [Reset] lets go of simply stay unreachable. *)
Record heap (C : Type) : Type := mkHeap { nodes : list (Node C); edges : list Edge }.
Arguments mkHeap {C} nodes edges.
Arguments nodes {C} _.
Arguments edges {C} _.

Section Tree.
Context {C : Type} `{!Edges C}.

Definition alloc_node (n : Node C) : M (heap C) ptr :=
  λ h, (Ok (length (nodes h)), mkHeap (nodes h ++ [n]) (edges h)).

Definition alloc_edge (e : Edge) : M (heap C) ptr :=
  λ h, (Ok (length (edges h)), mkHeap (nodes h) (edges h ++ [e])).

Definition get_node (p : ptr) : M (heap C) (Node C) :=
  λ h, match nodes h !! p with
       | Some n => (Ok n, h)
       | None => (Undefined, h)
       end.

Definition get_edge (p : ptr) : M (heap C) Edge :=
  λ h, (deref_edge (edges h) p, h).

Definition put_node (p : ptr) (n : Node C) : M (heap C) unit :=
  λ h, match nodes h !! p with
       | Some _ => (Ok (), mkHeap (<[p := n]> (nodes h)) (edges h))
       | None => (Undefined, h)
       end.

(** Assignments to the members of the edge at [p]. *)
Definition set_m_Value (p : ptr) (value : str) : M (heap C) unit :=
  λ h, match edges h !! p with
       | Some e => (Ok (), mkHeap (nodes h) (<[p := mkEdge value (m_Next e)]> (edges h)))
       | None => (Undefined, h)
       end.

Definition set_m_Next (p : ptr) (next : ptr) : M (heap C) unit :=
  λ h, match edges h !! p with
       | Some e => (Ok (), mkHeap (nodes h) (<[p := mkEdge (m_Value e) next]> (edges h)))
       | None => (Undefined, h)
       end.

(** [m_Edges.Add(edge)] and [m_Edges.Find(remainder)] on a collection. *)
Definition Edges_Add (edge : ptr) (c : C) : M (heap C) C :=
  λ h, (Add (edges h) edge c, h).

Definition Edges_Find (remainder : str) (c : C) : M (heap C) (nat * option ptr) :=
  λ h, (Find (edges h) remainder c, h).

(** [Node::Node()] *)
Definition Node_new : M (heap C) ptr := alloc_node (mkNode Edges_new).

(** [Edge::Edge(value, next)]: a null [next] is replaced by an empty node. *)
Definition Edge_new (value : str) (next : option ptr) : M (heap C) ptr :=
  next' ← match next with
          | Some p => mret p
          | None => Node_new
          end;
  alloc_edge (mkEdge value next').

(** [Node::Node(firstEdge, secondEdge)] *)
Definition Node_new2 (firstEdge secondEdge : option ptr) : M (heap C) ptr :=
  match firstEdge, secondEdge with
  | Some first, Some second =>
      c1 ← Edges_Add first Edges_new;
      c2 ← Edges_Add second c1;
      alloc_node (mkNode c2)
  | _, _ => RaiseError "invalid edge"
  end.

(** [Edge::Eat].  The result is the returned pointer together with the
    final values of the reference parameters [remainder] and [isUnique]. *)
Definition Edge_Eat (this : ptr) (numCommonChars : nat) (remainder : str)
    (isUnique : bool) : M (heap C) (option ptr * str * bool) :=
  e ← get_edge this;
  if (numCommonChars =? 0)
     || (length (m_Value e) `min` length remainder <? numCommonChars)
  then RaiseError "invalid numCommonChars"
  else match remainder with
  | [] => RaiseError "invalid remainder"
  | _ =>
    if 0 <? numCommonChars then
      if numCommonChars =? length (m_Value e) then
        mret (Some (m_Next e), drop numCommonChars remainder, isUnique)
      else
        let commonValue := take numCommonChars (m_Value e) in
        let firstChildValue := drop numCommonChars (m_Value e) in
        let secondChildValue := drop numCommonChars remainder in
        firstEdge ← Edge_new firstChildValue (Some (m_Next e));
        secondEdge ← Edge_new secondChildValue None;
        set_m_Value this commonValue;;
        node ← Node_new2 (Some firstEdge) (Some secondEdge);
        set_m_Next this node;;
        mret (None, [], true)
    else mret (None, remainder, isUnique)
  end.

(** [Node::Eat] *)
Definition Node_Eat (this : ptr) (remainder : str) (isUnique : bool)
    : M (heap C) (option ptr * str * bool) :=
  match remainder with
  | [] => RaiseError "invalid remainder"
  | _ =>
    n ← get_node this;
    ret ← Edges_Find remainder (m_Edges n);
    '(next, remainder, isUnique) ←
      (if 0 <? ret.1 then
         match ret.2 with
         | Some edge => Edge_Eat edge ret.1 remainder isUnique
         | None => undefined
         end
       else mret (None, remainder, isUnique));
    match next, remainder with
    | None, _ :: _ =>
        newEdge ← Edge_new remainder None;
        n ← get_node this;
        c ← Edges_Add newEdge (m_Edges n);
        put_node this (mkNode c);;
        mret (next, [], true)
    | _, _ => mret (next, remainder, isUnique)
    end
  end.

(** The [while] loop of [IsUnique]; every round shortens [remainder],
    so [length value] rounds are enough (see [IsUnique_safe]). *)
Fixpoint IsUnique_loop (fuel : nat) (current : option ptr) (remainder : str)
    (isUnique : bool) : M (heap C) bool :=
  match remainder with
  | [] => mret isUnique
  | _ =>
    match fuel with
    | 0 => lift OutOfFuel
    | S fuel' =>
      match current with
      | None => undefined
      | Some node =>
          '(next, remainder', isUnique') ← Node_Eat node remainder isUnique;
          IsUnique_loop fuel' next remainder' isUnique'
      end
    end
  end.
End Tree.

(** ** The two algorithms behind [IUniqueNumberAlgorithm] *)

Class IUniqueNumberAlgorithm (D : Type) : Type := {
  Reset : M D unit;
  IsUnique : str → M D bool
}.

(** [class CompactRadixTreeAlgorithm]: the root pointer and the objects
    reachable from it. *)
Record CompactRadixTreeAlgorithm (C : Type) : Type :=
  mkTree { m_Root : ptr; store : heap C }.
Arguments mkTree {C} m_Root store.
Arguments m_Root {C} _.
Arguments store {C} _.

Module RadixTree.
Section RadixTree.
Context {C : Type} `{!Edges C}.

(** The constructor: [m_Root(new Node)]. *)
Definition new : CompactRadixTreeAlgorithm C :=
  mkTree 0 (mkHeap [mkNode Edges_new] []).

Definition Reset : M (CompactRadixTreeAlgorithm C) unit :=
  λ t, let '(_, h) := Node_new (store t) in
       (Ok (), mkTree (length (nodes (store t))) h).

Definition IsUnique (value : str) : M (CompactRadixTreeAlgorithm C) bool :=
  λ t, let '(r, h) :=
         IsUnique_loop (length value) (Some (m_Root t)) value false (store t) in
       (r, mkTree (m_Root t) h).
End RadixTree.
End RadixTree.

Global Instance CompactRadixTree_Algorithm {C} `{!Edges C}
    : IUniqueNumberAlgorithm (CompactRadixTreeAlgorithm C) := {|
  Reset := RadixTree.Reset;
  IsUnique := RadixTree.IsUnique
|}.

(** [class SetAlgorithm]: a [std::set<string>]. *)
Module SetAlgorithm.
Abbreviation Numbers := (gset str).

Definition new : Numbers := ∅.

Definition Reset : M Numbers unit := λ _, (Ok (), ∅).

(** [insert] reports whether the value was inserted. *)
Definition IsUnique (number : str) : M Numbers bool :=
  λ m_Numbers, (Ok (bool_decide (number ∉ m_Numbers)), {[number]} ∪ m_Numbers).
End SetAlgorithm.

Global Instance Set_Algorithm : IUniqueNumberAlgorithm SetAlgorithm.Numbers := {|
  Reset := SetAlgorithm.Reset;
  IsUnique := SetAlgorithm.IsUnique
|}.

(** ** [class UniqueNumberCounter] *)

(** [size_t] arithmetic wraps around; 64 bits are assumed. *)
Definition size_t_wrap (n : N) : N := (n mod 2 ^ 64)%N.

(** [m_Algorithm] is the detector the [shared_ptr] refers to; a counter
    exists only for a non-null pointer. *)
Record UniqueNumberCounter (D : Type) : Type := mkCounter {
  m_NumExpectedDigits : nat;
  m_Algorithm : D;
  m_Count : N
}.
Arguments mkCounter {D} m_NumExpectedDigits m_Algorithm m_Count.
Arguments m_NumExpectedDigits {D} _.
Arguments m_Algorithm {D} _.
Arguments m_Count {D} _.

Module Counter.
Section Counter.
Context {D : Type} `{!IUniqueNumberAlgorithm D}.

(** The constructor.  [algorithm] is [None] for a null pointer and
    [Some d] for a detector in state [d]; the second component of the
    result is the detector after the call, also when the constructor
    has thrown. *)
Definition new (algorithm : option D) (numExpectedDigits : nat)
    : outcome (UniqueNumberCounter D) * option D :=
  match algorithm with
  | None => (Raise "NULL ptr", None)
  | Some d =>
      if numExpectedDigits <=? 0
      then (Raise "numExpectedDigits cannot be zero", Some d)
      else
        let '(r, d') := Reset d in
        (_ ← r; Ok (mkCounter numExpectedDigits d' 0%N), Some d')
  end.

(** The [for] loop of [m_CheckNumber]. *)
Fixpoint check_digits (number : str) : outcome unit :=
  match number with
  | [] => Ok ()
  | ch :: number' =>
      if negb (isdigit ch) then Raise "Not a number" else check_digits number'
  end.

Definition m_CheckNumber (this : UniqueNumberCounter D) (number : str) : outcome unit :=
  if negb (length number =? m_NumExpectedDigits this)
  then Raise "Invalid number of digits"
  else check_digits number.

Definition ProcessNumber (number : str) : M (UniqueNumberCounter D) unit :=
  λ this,
    match m_CheckNumber this number with
    | Ok _ =>
        let '(r, d') := IsUnique number (m_Algorithm this) in
        let this' := mkCounter (m_NumExpectedDigits this) d' (m_Count this) in
        match r with
        | Ok true =>
            (Ok (), mkCounter (m_NumExpectedDigits this) d'
                      (size_t_wrap (m_Count this + 1)))
        | Ok false => (Ok (), this')
        | Raise msg => (Raise msg, this')
        | Undefined => (Undefined, this')
        | OutOfFuel => (OutOfFuel, this')
        end
    | Raise msg => (Raise msg, this)
    | Undefined => (Undefined, this)
    | OutOfFuel => (OutOfFuel, this)
    end.

Definition GetCount (this : UniqueNumberCounter D) : N := m_Count this.

(** [ProcessDataset] of the tests: a counter is built on the detector
    and fed the whole data set. *)
Fixpoint process_all (dataset : list str) : M (UniqueNumberCounter D) unit :=
  match dataset with
  | [] => mret ()
  | entry :: dataset' => ProcessNumber entry;; process_all dataset'
  end.

Definition ProcessDataset (numDigits : nat) (dataset : list str) (algorithm : option D)
    : outcome N :=
  counter ← (new algorithm numDigits).1;
  let '(r, counter') := process_all dataset counter in
  _ ← r; Ok (GetCount counter').
End Counter.
End Counter.

(** ** Running a detector on a sequence of values *)

(** The values are passed to [IsUnique] one after the other; the outcome
    of every call is recorded. *)
Fixpoint run_calls {D} `{!IUniqueNumberAlgorithm D} (values : list str) (d : D)
    : list (outcome bool) * D :=
  match values with
  | [] => ([], d)
  | v :: values' =>
      let '(r, d') := IsUnique v d in
      let '(rs, d'') := run_calls values' d' in
      (r :: rs, d'')
  end.

(** Number of calls that returned [true]. *)
Definition count_true (rs : list (outcome bool)) : nat :=
  length (filter (λ r, r = Ok true) rs).

(** * Properties *)

(** Reduce a bind whose first computation is known. *)
Ltac obind_simpl := unfold mbind, outcome_bind; cbv beta iota; cbn [fst snd].

(** ** Characters and strings *)

Lemma code_inj (x y : ascii) : code x = code y → x = y.
Proof.
  unfold code. intros H. apply Nat2Z.inj in H.
  rewrite <- (ascii_nat_embedding x), <- (ascii_nat_embedding y). by rewrite H.
Qed.

Lemma str_lt_irrefl (a : str) : str_lt a a = false.
Proof. induction a as [|x a IH]; simpl; [done|]. by rewrite Z.ltb_irrefl. Qed.

Lemma str_lt_trans (a b c : str) :
  str_lt a b = true → str_lt b c = true → str_lt a c = true.
Proof.
  revert b c. induction a as [|x a IH]; intros [|y b] [|z c]; simpl; try done.
  repeat match goal with
         | |- context [(?u <? ?v)%Z] => destruct (Z.ltb_spec u v)
         end; try done; try lia.
  apply IH.
Qed.

Lemma str_lt_total (a b : str) :
  str_lt a b = false → str_lt b a = false → a = b.
Proof.
  revert b. induction a as [|x a IH]; intros [|y b]; simpl; try done.
  destruct (Z.ltb_spec (code x) (code y)); [done|].
  destruct (Z.ltb_spec (code y) (code x)); [done|].
  intros ??. f_equal; [apply code_inj; lia | by apply IH].
Qed.

Lemma str_lt_asym (a b : str) : str_lt a b = true → str_lt b a = false.
Proof.
  intros H. destruct (str_lt b a) eqn:E; [|done].
  by rewrite <- (str_lt_irrefl a), (str_lt_trans a b a).
Qed.

(** Strings with different first characters are ordered by them. *)
Lemma str_lt_head (x y : ascii) (a b : str) :
  x ≠ y → str_lt (x :: a) (y :: b) = (code x <? code y)%Z.
Proof.
  intros Hxy. simpl. destruct (Z.ltb_spec (code x) (code y)); [done|].
  destruct (Z.ltb_spec (code y) (code x)); [done|].
  destruct Hxy. apply code_inj. lia.
Qed.

Lemma common_chars_le_l (l r : str) : common_chars l r ≤ length l.
Proof.
  revert r. induction l as [|x l IH]; intros [|y r]; simpl; try lia.
  case_decide; [specialize (IH r)|]; lia.
Qed.

Lemma common_chars_le_r (l r : str) : common_chars l r ≤ length r.
Proof.
  revert r. induction l as [|x l IH]; intros [|y r]; simpl; try lia.
  case_decide; [specialize (IH r)|]; lia.
Qed.

Lemma common_chars_pos (l r : str) :
  0 < common_chars l r ↔ head l = head r ∧ l ≠ [].
Proof.
  destruct l as [|x l], r as [|y r]; simpl; try (split; [lia|naive_solver]).
  case_decide; split; try lia; naive_solver.
Qed.

Lemma common_chars_zero (l r : str) :
  common_chars l r = 0 ↔ head l ≠ head r ∨ l = [].
Proof.
  pose proof (common_chars_pos l r) as Hp.
  destruct (decide (l = [])) as [->|Hl]; [naive_solver|].
  destruct (decide (head l = head r)).
  - split; [|naive_solver]. intros Hz. assert (0 < common_chars l r) by naive_solver. lia.
  - split; [naive_solver|]. intros _.
    destruct (common_chars l r) eqn:E; [done|]. assert (0 < S n0) by lia. naive_solver.
Qed.

Lemma common_chars_take (l r : str) :
  take (common_chars l r) l = take (common_chars l r) r.
Proof.
  revert r. induction l as [|x l IH]; intros [|y r]; simpl; try done.
  case_decide; simpl; [|done]. subst. by rewrite IH.
Qed.

(** Past the common characters the two strings part: the rest of the
    label starts with a character the rest of the remainder does not
    start with. *)
Lemma common_chars_diverge (l r : str) :
  common_chars l r < length l →
  head (drop (common_chars l r) l) ≠ head (drop (common_chars l r) r)
  ∧ drop (common_chars l r) l ≠ [].
Proof.
  revert r. induction l as [|x l IH]; intros [|y r]; simpl; try lia; try done.
  case_decide; simpl.
  - intros ?. apply IH. lia.
  - intros _. split; [congruence|done].
Qed.

Lemma common_chars_full (l r : str) :
  common_chars l r = length l → r = l ++ drop (length l) r.
Proof.
  revert r. induction l as [|x l IH]; intros [|y r]; simpl; try done.
  case_decide; [|done]. intros [= Hk]. subst. f_equal. by apply IH.
Qed.

Lemma common_chars_app (l r : str) : common_chars l (l ++ r) = length l.
Proof. induction l as [|x l IH]; simpl; [done|]. rewrite decide_True by done. by rewrite IH. Qed.

(** ** What a node's collection has to provide

    [les] lists the edges a node owns, each with its current label. *)

Definition labelled (es : list Edge) (les : list (ptr * str)) : Prop :=
  ∀ p l, (p, l) ∈ les → ∃ e, es !! p = Some e ∧ m_Value e = l.

(** No two labels start alike (and at most one is empty). *)
Definition sib_ok (les : list (ptr * str)) : Prop := NoDup (head <$> les.*2).

(** The edge [Find] is to return: the one sharing its first character
    with [remainder], with the number of common characters. *)
Fixpoint find_edge (les : list (ptr * str)) (remainder : str) : nat * option ptr :=
  match les with
  | [] => (0, None)
  | (p, l) :: les' =>
      if 0 <? common_chars l remainder then (common_chars l remainder, Some p)
      else find_edge les' remainder
  end.

Lemma find_edge_hit les p l r :
  sib_ok les → (p, l) ∈ les → 0 < common_chars l r →
  find_edge les r = (common_chars l r, Some p).
Proof.
  unfold sib_ok. induction les as [|[p' l'] les IH]; intros Hnd Hin Hpos.
  - by apply elem_of_nil in Hin.
  - simpl in *. apply NoDup_cons in Hnd as [Hni Hnd].
    apply elem_of_cons in Hin as [[= -> ->]|Hin].
    + by rewrite (proj2 (Nat.ltb_lt _ _) Hpos).
    + destruct (Nat.ltb_spec 0 (common_chars l' r)) as [Hpos'|]; [|by apply IH].
      apply common_chars_pos in Hpos as [Hh _], Hpos' as [Hh' _]. destruct Hni.
      rewrite Hh', <- Hh. apply list_elem_of_fmap. exists l. split; [done|].
      apply list_elem_of_fmap. by exists (p, l).
Qed.

Lemma find_edge_miss les r :
  (∀ p l, (p, l) ∈ les → common_chars l r = 0) → find_edge les r = (0, None).
Proof.
  induction les as [|[p l] les IH]; intros H; simpl; [done|].
  rewrite (H p l) by left. simpl. apply IH. intros p' l' ?. apply (H p' l'). by right.
Qed.

Lemma find_edge_Some les r k p :
  find_edge les r = (k, Some p) →
  ∃ l, (p, l) ∈ les ∧ k = common_chars l r ∧ 0 < k.
Proof.
  induction les as [|[p' l'] les IH]; simpl; [done|].
  destruct (Nat.ltb_spec 0 (common_chars l' r)).
  - intros [= <- <-]. exists l'. split; [left|done].
  - intros H'. destruct (IH H') as (l & ? & ? & ?). exists l. split; [by right|done].
Qed.

Lemma find_edge_None les r k :
  find_edge les r = (k, None) →
  k = 0 ∧ ∀ p l, (p, l) ∈ les → common_chars l r = 0.
Proof.
  induction les as [|[p' l'] les IH]; simpl.
  - intros [= <-]. split; [done|]. intros ?? Hin. by apply elem_of_nil in Hin.
  - destruct (Nat.ltb_spec 0 (common_chars l' r)); [done|].
    intros H'. destruct (IH H') as [-> Hall]. split; [done|].
    intros p l [[= -> ->]|Hin]%elem_of_cons; [lia|by eapply Hall].
Qed.

(** [les'] is [les] with labels cut down to prefixes that keep their
    first character: what a split does to a label. *)
Definition shortened (les les' : list (ptr * str)) : Prop :=
  Forall2 (λ a b, a.1 = b.1 ∧ b.2 `prefix_of` a.2 ∧ head b.2 = head a.2) les les'.

Lemma shortened_refl les : shortened les les.
Proof. unfold shortened. induction les; constructor; [split_and!; reflexivity|done]. Qed.

Lemma shortened_fst les les' : shortened les les' → les'.*1 = les.*1.
Proof. induction 1 as [|[??] [??] ?? (?&?&?)]; simpl in *; [done|]. by f_equal. Qed.

Lemma shortened_heads les les' : shortened les les' → head <$> les'.*2 = head <$> les.*2.
Proof. induction 1 as [|[??] [??] ?? (?&?&?)]; simpl in *; [done|]. by f_equal. Qed.

Lemma shortened_sib_ok les les' : shortened les les' → sib_ok les → sib_ok les'.
Proof. unfold sib_ok. by intros ->%shortened_heads. Qed.

Lemma shortened_elem les les' p l' :
  shortened les les' → (p, l') ∈ les' →
  ∃ l, (p, l) ∈ les ∧ l' `prefix_of` l ∧ head l' = head l.
Proof.
  induction 1 as [|[p1 l1] [p2 l2] les1 les2 (?&?&?) ? IH]; simpl in *.
  - by intros ?%elem_of_nil.
  - intros [[= -> ->]|Hin]%elem_of_cons.
    + subst. eexists. split; [left|done].
    + destruct (IH Hin) as (l0 & ? & ?). exists l0. split; [by right|done].
Qed.

(** What the tree needs from a collection class.  [cok les c] says that
    the collection [c] holds exactly the edges [les]; [accepts s] says
    that the class can file an edge under the string [s]. *)
Class EdgesOk (C : Type) `{!Edges C} : Type := {
  accepts : str → bool;
  cok : list (ptr * str) → C → Prop;
  accepts_digits s : s ≠ [] → forallb isdigit s = true → accepts s = true;
  cok_new : cok [] Edges_new;
  cok_elems les c : cok les c → GetContainer c ≡ₚ les.*1;
  cok_shorten les les' c : cok les c → shortened les les' → cok les' c;
  Find_ok es les c r :
    cok les c → sib_ok les → labelled es les → r ≠ [] →
    Find es r c = if accepts r then Ok (find_edge les r) else Undefined;
  Add_ok es les c p l :
    cok les c → sib_ok (les ++ [(p, l)]) → labelled es (les ++ [(p, l)]) →
    if accepts l then ∃ c', Add es p c = Ok c' ∧ cok (les ++ [(p, l)]) c'
    else Add es p c = Undefined
}.

Lemma labelled_lookup es les p l :
  labelled es les → (p, l) ∈ les → ∃ nx, es !! p = Some (mkEdge l nx).
Proof. intros H Hin. destruct (H p l Hin) as ([l' nx] & ? & ?); simpl in *; subst; eauto. Qed.

Lemma labelled_cons es p l les :
  labelled es ((p, l) :: les) ↔
  (∃ e, es !! p = Some e ∧ m_Value e = l) ∧ labelled es les.
Proof.
  unfold labelled. split.
  - intros H. split; [apply H; left|]. intros ???. apply H. by right.
  - intros [H1 H2] p' l' [[= -> ->]|?]%elem_of_cons; auto.
Qed.

Lemma labelled_app es les1 les2 :
  labelled es (les1 ++ les2) ↔ labelled es les1 ∧ labelled es les2.
Proof.
  unfold labelled. split.
  - intros H. split; intros ???; apply H; apply elem_of_app; auto.
  - intros [H1 H2] p l [?|?]%elem_of_app; auto.
Qed.

(** An edge occurs once among the edges of a node. *)
Lemma labelled_NoDup es les : labelled es les → sib_ok les → NoDup les.*1.
Proof.
  unfold sib_ok. induction les as [|[p l] les IH]; simpl; [constructor|].
  intros [(e & He & Hl) Hles]%labelled_cons [Hni Hnd]%NoDup_cons.
  apply NoDup_cons. split; [|by apply IH].
  intros ([p' l'] & -> & Hin)%list_elem_of_fmap. simpl in *.
  destruct (Hles _ _ Hin) as (e' & He' & Hl'). simplify_eq.
  destruct Hni. apply list_elem_of_fmap. exists (m_Value e). split; [done|].
  apply list_elem_of_fmap. by exists (p', m_Value e).
Qed.

Lemma NoDup_fst_functional {A B} (l : list (A * B)) x y1 y2 :
  NoDup l.*1 → (x, y1) ∈ l → (x, y2) ∈ l → y1 = y2.
Proof.
  induction l as [|[a b] l IH]; simpl; [by intros _ ?%elem_of_nil|].
  intros [Hni Hnd]%NoDup_cons [[= -> ->]|H1]%elem_of_cons [[= ->]|H2]%elem_of_cons;
    try done.
  - destruct Hni. apply list_elem_of_fmap. by exists (a, y2).
  - simplify_eq. destruct Hni. apply list_elem_of_fmap. by exists (a, y1).
  - by apply IH.
Qed.

(** *** [UnorderedEdges] *)

Lemma Unordered_Find_from es les r :
  labelled es les → r ≠ [] →
  UnorderedEdges.Find_from es r les.*1 (0, None) = Ok (find_edge les r).
Proof.
  intros Hl Hr. induction les as [|[p l] les IH]; simpl; [done|].
  apply labelled_cons in Hl as [(e & He & Hv) Hl]. simpl in *.
  unfold deref_edge. rewrite He. simpl. unfold GetNumCommonChars.
  destruct r as [|x r]; [done|]. simpl. rewrite Hv.
  destruct (Nat.ltb_spec 0 (common_chars l (x :: r))) as [|Hz]; [done|].
  assert (common_chars l (x :: r) = 0) as -> by lia. by apply IH.
Qed.

Global Program Instance UnorderedEdges_Ok : EdgesOk UnorderedEdges.Container := {|
  accepts _ := true;
  cok les c := c = les.*1
|}.
Next Obligation. done. Qed.
Next Obligation. done. Qed.
Next Obligation. by intros ?? ->. Qed.
Next Obligation. intros ??? -> ?. symmetry. by apply shortened_fst. Qed.
Next Obligation. intros ???? -> ???. by apply Unordered_Find_from. Qed.
Next Obligation.
  intros ????? -> ??. eexists. split; [done|]. by rewrite fmap_app.
Qed.

(** *** [IndexedEdges] *)

(** The strings whose first character selects one of the ten slots. *)
Definition starts_with_digit (s : str) : bool :=
  (0 <=? IndexedEdges.slot_of s)%Z && (IndexedEdges.slot_of s <? 10)%Z.

Lemma code_bound (ch : ascii) : (0 ≤ code ch < 256)%Z.
Proof. unfold code. pose proof (nat_ascii_bounded ch). lia. Qed.

(** Whether [char] is signed or not makes no difference to a vector of
    at most 80 slots: the slot is in range for both or for none, and in
    range it is the same slot. *)
Lemma slot_of_signed_in_range (s : str) (c : IndexedEdges.Container) :
  length c ≤ 80 →
  IndexedEdges.in_range (IndexedEdges.slot_of_signed s) c
  = IndexedEdges.in_range (IndexedEdges.slot_of s) c
  ∧ (IndexedEdges.in_range (IndexedEdges.slot_of s) c = true →
     IndexedEdges.slot_of_signed s = IndexedEdges.slot_of s).
Proof.
  intros Hlen. unfold IndexedEdges.in_range.
  destruct s as [|ch s]; [done|]. cbn [IndexedEdges.slot_of_signed IndexedEdges.slot_of].
  pose proof (code_bound ch).
  destruct (Z.ltb_spec (code ch) 128) as [Hlt|Hge]; [done|]. split.
  - rewrite (proj2 (Z.leb_gt 0 (code ch - 256 - 48))) by lia.
    rewrite (proj2 (Z.ltb_ge (code ch - 48) (Z.of_nat (length c)))) by lia.
    by rewrite andb_false_r.
  - rewrite (proj2 (Z.ltb_ge (code ch - 48) (Z.of_nat (length c)))) by lia.
    by rewrite andb_false_r.
Qed.

Lemma slot_of_head (l l' : str) :
  head l = head l' → IndexedEdges.slot_of l = IndexedEdges.slot_of l'.
Proof. destruct l, l'; simpl; congruence. Qed.

Lemma slot_of_inj (l l' : str) :
  starts_with_digit l = true →
  IndexedEdges.slot_of l = IndexedEdges.slot_of l' → head l = head l'.
Proof.
  unfold starts_with_digit. intros [H1%Z.leb_le H2%Z.ltb_lt]%andb_prop.
  destruct l as [|x l], l' as [|y l']; simpl in *; try lia.
  intros H. f_equal. apply code_inj. lia.
Qed.

Lemma starts_with_digit_nonempty (s : str) : starts_with_digit s = true → s ≠ [].
Proof. unfold starts_with_digit. destruct s; simpl; [done|done]. Qed.

Lemma starts_with_digit_isdigit (ch : ascii) (s : str) :
  starts_with_digit (ch :: s) = isdigit ch.
Proof.
  unfold starts_with_digit, isdigit. simpl.
  destruct (Z.leb_spec 48 (code ch)), (Z.leb_spec 0 (code ch - 48)); try lia; simpl;
    destruct (Z.leb_spec (code ch) 57), (Z.ltb_spec (code ch - 48) 10); try lia; done.
Qed.

Lemma in_range_10 (s : str) (c : IndexedEdges.Container) :
  length c = 10 → IndexedEdges.in_range (IndexedEdges.slot_of s) c = starts_with_digit s.
Proof. unfold IndexedEdges.in_range, starts_with_digit. by intros ->. Qed.

Definition Indexed_cok (les : list (ptr * str)) (c : IndexedEdges.Container) : Prop :=
  length c = 10
  ∧ Forall (λ pl, starts_with_digit pl.2 = true) les
  ∧ NoDup les.*1
  ∧ ∀ i p, c !! i = Some (Some p) ↔
           ∃ l, (p, l) ∈ les ∧ IndexedEdges.slot_of l = Z.of_nat i.

Lemma NoDup_omap_id {A} (c : list (option A)) :
  (∀ i j p, c !! i = Some (Some p) → c !! j = Some (Some p) → i = j) →
  NoDup (omap id c).
Proof.
  induction c as [|o c IH]; intros Hinj; simpl; [constructor|].
  assert (NoDup (omap id c)) as Hnd.
  { apply IH. intros i j p Hi Hj. by apply (inj S), (Hinj (S i) (S j) p). }
  destruct o as [p|]; simpl; [|done]. apply NoDup_cons. split; [|done].
  intros (o & Ho & Hid)%list_elem_of_omap. simpl in Hid. subst o.
  apply list_elem_of_lookup in Ho as [j Hj]. by specialize (Hinj 0 (S j) p eq_refl Hj).
Qed.

Lemma Indexed_cok_elems les c : Indexed_cok les c → omap id c ≡ₚ les.*1.
Proof.
  intros (Hlen & Hfit & Hnd & Hc). apply NoDup_Permutation; [|done|].
  - apply NoDup_omap_id. intros i j p [l [Hl Hi]]%Hc [l' [Hl' Hj]]%Hc.
    assert (l = l') as ->; [|lia]. by eapply NoDup_fst_functional.
  - intros p. rewrite list_elem_of_omap. split.
    + intros (o & [i Hi]%list_elem_of_lookup & Hid). simpl in Hid. subst o.
      apply Hc in Hi as (l & ? & _). apply list_elem_of_fmap. by exists (p, l).
    + intros ([p' l] & -> & Hin)%list_elem_of_fmap. simpl.
      rewrite Forall_forall in Hfit. specialize (Hfit _ Hin). simpl in Hfit.
      unfold starts_with_digit in Hfit.
      exists (Some p'). split; [|done]. apply list_elem_of_lookup.
      exists (Z.to_nat (IndexedEdges.slot_of l)). apply Hc. exists l. split; [done|lia].
Qed.

Lemma shortened_elem_rev les les' p l :
  shortened les les' → (p, l) ∈ les →
  ∃ l', (p, l') ∈ les' ∧ l' `prefix_of` l ∧ head l' = head l.
Proof.
  induction 1 as [|[p1 l1] [p2 l2] les1 les2 (?&?&?) ? IH]; simpl in *.
  - by intros ?%elem_of_nil.
  - intros [[= -> ->]|Hin]%elem_of_cons.
    + subst. eexists. split; [left|done].
    + destruct (IH Hin) as (l0 & ? & ?). exists l0. split; [by right|done].
Qed.

Lemma sib_ok_snoc_head les p l q l' :
  sib_ok (les ++ [(p, l)]) → (q, l') ∈ les → head l' ≠ head l.
Proof.
  unfold sib_ok. rewrite !fmap_app. simpl. intros Hnd Hin Heq.
  apply NoDup_app in Hnd as (_ & Hdis & _). apply (Hdis (head l')).
  - apply list_elem_of_fmap. exists l'. split; [done|].
    apply list_elem_of_fmap. by exists (q, l').
  - rewrite Heq. left.
Qed.

Lemma Indexed_Find_ok es les c r :
  Indexed_cok les c → sib_ok les → labelled es les → r ≠ [] →
  IndexedEdges.Find es r c
  = if starts_with_digit r then Ok (find_edge les r) else Undefined.
Proof.
  intros (Hlen & Hfit & Hnd & Hc) Hsib Hlab Hr. unfold IndexedEdges.Find.
  rewrite in_range_10 by done. destruct (starts_with_digit r) eqn:Hd; [|done].
  assert (0 ≤ IndexedEdges.slot_of r)%Z as Hpos.
  { unfold starts_with_digit in Hd. lia. }
  destruct (c !! Z.to_nat (IndexedEdges.slot_of r)) as [[p|]|] eqn:Hi.
  - apply Hc in Hi as (l & Hin & Hs).
    destruct (labelled_lookup _ _ _ _ Hlab Hin) as [nx He].
    unfold deref_edge. rewrite He. simpl. unfold GetNumCommonChars. simpl.
    destruct r as [|x r]; [done|]. cbn. f_equal. symmetry. apply find_edge_hit; [done..|].
    rewrite Forall_forall in Hfit. specialize (Hfit _ Hin). simpl in Hfit.
    apply common_chars_pos. split; [|by apply starts_with_digit_nonempty].
    apply slot_of_inj; [done|lia].
  - f_equal. symmetry. apply find_edge_miss. intros p l Hin.
    destruct (common_chars l r) eqn:E; [done|].
    assert (0 < common_chars l r) as [Hh _]%common_chars_pos by lia.
    assert (c !! Z.to_nat (IndexedEdges.slot_of r) = Some (Some p)) as Hx; [|congruence].
    apply Hc. exists l. split; [done|]. rewrite (slot_of_head _ _ Hh). lia.
  - f_equal. symmetry. apply find_edge_miss. intros p l Hin.
    destruct (common_chars l r) eqn:E; [done|].
    assert (0 < common_chars l r) as [Hh _]%common_chars_pos by lia.
    assert (c !! Z.to_nat (IndexedEdges.slot_of r) = Some (Some p)) as Hx; [|congruence].
    apply Hc. exists l. split; [done|]. rewrite (slot_of_head _ _ Hh). lia.
Qed.

Lemma Indexed_Add_ok es les c p l :
  Indexed_cok les c → sib_ok (les ++ [(p, l)]) → labelled es (les ++ [(p, l)]) →
  if starts_with_digit l
  then ∃ c', IndexedEdges.Add es p c = Ok c' ∧ Indexed_cok (les ++ [(p, l)]) c'
  else IndexedEdges.Add es p c = Undefined.
Proof.
  intros (Hlen & Hfit & Hnd & Hc) Hsib Hlab. unfold IndexedEdges.Add.
  destruct (labelled_lookup es _ p l Hlab) as [nx He]; [apply elem_of_app; right; left|].
  unfold deref_edge. rewrite He. simpl. rewrite in_range_10 by done.
  destruct (starts_with_digit l) eqn:Hd; [|done].
  eexists. split; [done|].
  assert (0 ≤ IndexedEdges.slot_of l < 10)%Z as Hrange.
  { unfold starts_with_digit in Hd. lia. }
  set (i := Z.to_nat (IndexedEdges.slot_of l)).
  split_and!.
  - by rewrite length_insert.
  - apply Forall_app. split; [done|]. by constructor.
  - by apply (labelled_NoDup es).
  - intros j q. destruct (decide (i = j)) as [<-|Hne].
    + rewrite list_lookup_insert_eq by (rewrite Hlen; lia). split.
      * intros [= <-]. exists l. split; [apply elem_of_app; right; left|lia].
      * intros (l' & [Hin|Hin]%elem_of_app & Hs).
        -- destruct (sib_ok_snoc_head _ _ _ _ _ Hsib Hin).
           rewrite Forall_forall in Hfit. specialize (Hfit _ Hin). simpl in Hfit.
           apply slot_of_inj; [done|lia].
        -- apply list_elem_of_singleton in Hin. by simplify_eq.
    + rewrite list_lookup_insert_ne by done. rewrite Hc. split.
      * intros (l' & ? & ?). exists l'. split; [apply elem_of_app; by left|done].
      * intros (l' & [Hin|Hin]%elem_of_app & Hs); [by exists l'|].
        apply list_elem_of_singleton in Hin. simplify_eq. lia.
Qed.

Global Program Instance IndexedEdges_Ok : EdgesOk IndexedEdges.Container := {|
  accepts := starts_with_digit;
  cok := Indexed_cok
|}.
Next Obligation.
  intros [|ch s] ? Hd; [done|]. rewrite starts_with_digit_isdigit.
  simpl in Hd. by apply andb_prop in Hd as [? _].
Qed.
Next Obligation.
  split_and!; [done|constructor|constructor|].
  intros i p. split.
  - intros [[=] _]%lookup_replicate.
  - by intros (l & ?%elem_of_nil & _).
Qed.
Next Obligation. apply Indexed_cok_elems. Qed.
Next Obligation.
  intros les les' c (Hlen & Hfit & Hnd & Hc) Hsh. split_and!; [done| |by rewrite (shortened_fst _ _ Hsh)|].
  - apply Forall_forall. intros [p l'] Hin.
    destruct (shortened_elem _ _ _ _ Hsh Hin) as (l & Hl & _ & Hh).
    rewrite Forall_forall in Hfit. specialize (Hfit _ Hl). simpl in *.
    unfold starts_with_digit in *. by rewrite (slot_of_head _ _ Hh).
  - intros i p. rewrite Hc. split.
    + intros (l & Hin & Hs). destruct (shortened_elem_rev _ _ _ _ Hsh Hin) as (l' & ? & _ & Hh).
      exists l'. split; [done|]. by rewrite (slot_of_head _ _ Hh).
    + intros (l' & Hin & Hs). destruct (shortened_elem _ _ _ _ Hsh Hin) as (l & ? & _ & Hh).
      exists l. split; [done|]. by rewrite <- (slot_of_head _ _ Hh).
Qed.
Next Obligation. apply Indexed_Find_ok. Qed.
Next Obligation. apply Indexed_Add_ok. Qed.

(** *** [OrderedEdges] *)

Definition key_lt (a b : str * ptr) : Prop := str_lt a.1 b.1 = true.

(** The entries are in key order and hold the edges [les]; the label of
    an edge is a prefix of its key and starts like it. *)
Definition Ordered_cok (les : list (ptr * str)) (c : OrderedEdges.Container) : Prop :=
  StronglySorted key_lt c
  ∧ c.*2 ≡ₚ les.*1
  ∧ NoDup les.*1
  ∧ ∀ key p, (key, p) ∈ c →
      ∃ l, (p, l) ∈ les ∧ l `prefix_of` key ∧ head l = head key.

(** A string lying between two strings that start with [x] starts with [x]. *)
Lemma str_between (x : ascii) (a b k : str) :
  str_lt k (x :: a) = false → str_lt (x :: b) k = false → head k = Some x.
Proof.
  destruct k as [|y k]; simpl; [done|].
  repeat match goal with
         | |- context [(?u <? ?v)%Z] => destruct (Z.ltb_spec u v)
         end; try done; try lia.
  all: intros _ _; f_equal; apply code_inj; lia.
Qed.

Lemma upper_bound_le r (c : OrderedEdges.Container) :
  OrderedEdges.upper_bound r c ≤ length c.
Proof. induction c as [|[k p] c IH]; simpl; [lia|]. destruct (str_lt r k); simpl; lia. Qed.

Lemma upper_bound_before r (c : OrderedEdges.Container) i k p :
  i < OrderedEdges.upper_bound r c → c !! i = Some (k, p) → str_lt r k = false.
Proof.
  revert i. induction c as [|[k' p'] c IH]; intros i; simpl; [lia|].
  destruct (str_lt r k') eqn:E; [lia|]. destruct i as [|i]; simpl.
  - by intros _ [= <- <-].
  - intros ??. apply (IH i); [lia|done].
Qed.

Lemma upper_bound_after r (c : OrderedEdges.Container) i k p :
  StronglySorted key_lt c →
  OrderedEdges.upper_bound r c ≤ i → c !! i = Some (k, p) → str_lt r k = true.
Proof.
  intros Hs. revert i. induction Hs as [|[k' p'] c Hs IH Hall]; intros i; simpl; [done|].
  destruct (str_lt r k') eqn:E.
  - intros _. destruct i as [|i]; simpl; [by intros [= <- <-]|].
    intros Hi%list_elem_of_lookup_2. rewrite Forall_forall in Hall.
    specialize (Hall _ Hi). unfold key_lt in Hall. simpl in Hall.
    by apply (str_lt_trans _ k').
  - destruct i as [|i]; simpl; [lia|]. intros ??. apply (IH i); [lia|done].
Qed.

Lemma sorted_lookup_lt (c : OrderedEdges.Container) i j a b :
  StronglySorted key_lt c → i < j → c !! i = Some a → c !! j = Some b → key_lt a b.
Proof.
  intros Hs. revert i j. induction Hs as [|x c Hs IH Hall]; intros i j; [done|].
  destruct i as [|i], j as [|j]; simpl; try lia.
  - intros _ [= <-] Hj%list_elem_of_lookup_2. rewrite Forall_forall in Hall. by apply Hall.
  - intros ???. apply (IH i j); [lia|done..].
Qed.

Lemma sib_ok_inj les p1 l1 p2 l2 :
  sib_ok les → (p1, l1) ∈ les → (p2, l2) ∈ les → head l1 = head l2 →
  (p1, l1) = (p2, l2).
Proof.
  unfold sib_ok. intros Hnd [i Hi]%list_elem_of_lookup [j Hj]%list_elem_of_lookup Hh.
  assert (i = j) as ->; [|congruence].
  apply (NoDup_lookup _ i j (head l1) Hnd).
  - by rewrite !list_lookup_fmap, Hi.
  - by rewrite !list_lookup_fmap, Hj, Hh.
Qed.

Section Ordered.
Context (es : list Edge) (les : list (ptr * str)) (c : OrderedEdges.Container).
Context (Hc : Ordered_cok les c) (Hsib : sib_ok les) (Hlab : labelled es les).

Lemma Ordered_key_heads i j k1 p1 k2 p2 :
  c !! i = Some (k1, p1) → c !! j = Some (k2, p2) → head k1 = head k2 → i = j.
Proof using Hc Hsib.
  destruct Hc as (_ & Hperm & Hnd & Hkeys). intros Hi Hj Hh.
  destruct (Hkeys k1 p1) as (l1 & Hl1 & _ & Hh1); [by eapply list_elem_of_lookup_2|].
  destruct (Hkeys k2 p2) as (l2 & Hl2 & _ & Hh2); [by eapply list_elem_of_lookup_2|].
  assert ((p1, l1) = (p2, l2)) as [= -> ->] by (apply (sib_ok_inj les); congruence).
  rewrite <- Hperm in Hnd. apply (NoDup_lookup _ i j p2 Hnd).
  - by rewrite list_lookup_fmap, Hi.
  - by rewrite list_lookup_fmap, Hj.
Qed.

Lemma Ordered_try_edge r k p ret :
  (k, p) ∈ c → r ≠ [] →
  ∃ l, (p, l) ∈ les ∧ head l = head k
       ∧ OrderedEdges.try_edge es r p ret
         = Ok (common_chars l r, if 0 <? common_chars l r then Some p else ret.2).
Proof using Hc Hlab.
  destruct Hc as (_ & _ & _ & Hkeys). intros Hin Hr.
  destruct (Hkeys k p Hin) as (l & Hl & _ & Hh). exists l. split_and!; [done..|].
  destruct (labelled_lookup _ _ _ _ Hlab Hl) as [nx He].
  unfold OrderedEdges.try_edge, deref_edge. rewrite He.
  by destruct r.
Qed.

(** The entry of an edge whose label starts like [r] sits at the upper
    bound of [r] or just before it. *)
Lemma Ordered_position r x j k p :
  head r = Some x → c !! j = Some (k, p) → head k = Some x →
  let iter := OrderedEdges.upper_bound r c in
  (str_lt r k = true ∧ j = iter) ∨ (str_lt r k = false ∧ S j = iter).
Proof using Hc Hsib.
  intros Hr Hj Hk iter. pose proof Hc as (Hs & _).
  destruct r as [|x' r]; simplify_eq/=. destruct k as [|x' k]; simplify_eq/=.
  destruct (str_lt (x :: r) (x :: k)) eqn:Hlt; [left|right]; (split; [done|]).
  - destruct (decide (j < iter)) as [Hlt'|Hge].
    { by rewrite (upper_bound_before _ _ _ _ _ Hlt' Hj) in Hlt. }
    destruct (decide (j = iter)) as [|Hne]; [done|]. exfalso.
    destruct (lookup_lt_is_Some_2 c iter) as [[k' p'] Hi].
    { apply lookup_lt_Some in Hj. lia. }
    assert (str_lt (x :: r) k' = true) as H1 by (by eapply upper_bound_after).
    assert (key_lt (k', p') (x :: k, p)) as H2.
    { apply (sorted_lookup_lt c iter j); [done|lia|done..]. }
    assert (head k' = Some x) as Hh.
    { apply (str_between x r k); by apply str_lt_asym. }
    assert (iter = j); [|lia]. by eapply Ordered_key_heads.
  - destruct (decide (iter ≤ j)) as [Hle|Hgt].
    { by rewrite (upper_bound_after _ _ _ _ _ Hs Hle Hj) in Hlt. }
    destruct (decide (S j = iter)) as [|Hne]; [done|]. exfalso.
    destruct (lookup_lt_is_Some_2 c (iter - 1)) as [[k' p'] Hi].
    { pose proof (upper_bound_le (x :: r) c). unfold iter in *. lia. }
    assert (str_lt (x :: r) k' = false) as H1.
    { apply (upper_bound_before _ c (iter - 1) _ p'); [unfold iter in *; lia|done]. }
    assert (key_lt (x :: k, p) (k', p')) as H2.
    { apply (sorted_lookup_lt c j (iter - 1)); [done|lia|done..]. }
    assert (head k' = Some x) as Hh.
    { apply (str_between x k r); [by apply str_lt_asym|done]. }
    assert (iter - 1 = j); [|lia]. by eapply Ordered_key_heads.
Qed.

Lemma Ordered_Find_ok r :
  r ≠ [] → OrderedEdges.Find_guarded es r c = Ok (find_edge les r).
Proof using Hc Hsib Hlab.
  intros Hr. pose proof Hc as (Hs & Hperm & Hnd & Hkeys).
  destruct (decide (c = [])) as [Hnil|Hnn].
  { rewrite Hnil in Hperm |- *. apply Permutation_nil_l in Hperm. by destruct les. }
  set (iter := OrderedEdges.upper_bound r c).
  assert (OrderedEdges.Find_guarded es r c =
    ret ← match c !! iter with
          | Some (_, edge) => OrderedEdges.try_edge es r edge (0, None)
          | None => Ok (0, None)
          end;
    if ret.1 =? 0 then
      if negb (iter =? 0) then
        match c !! (iter - 1) with
        | Some (_, edge) => OrderedEdges.try_edge es r edge ret
        | None => Undefined
        end
      else Ok ret
    else Ok ret) as ->.
  { unfold OrderedEdges.Find_guarded, iter. clear -Hnn. by destruct c. }
  assert (∃ x, head r = Some x) as [x Hhr] by (destruct r; [done|by eexists]).
  destruct (find_edge les r) as [n [p|]] eqn:Hfe.
  - apply find_edge_Some in Hfe as (l & Hin & -> & Hpos).
    pose proof Hpos as [Hh Hne]%common_chars_pos.
    assert (p ∈ c.*2) as ([k p'] & -> & [j Hj]%list_elem_of_lookup)%list_elem_of_fmap.
    { rewrite Hperm. apply list_elem_of_fmap. by exists (p, l). }
    simpl in *.
    destruct (Ordered_try_edge r k p' (0, None)) as (l' & Hl' & Hh' & Htry);
      [by eapply list_elem_of_lookup_2|done|].
    assert (l' = l) as -> by (by eapply NoDup_fst_functional).
    destruct (Ordered_position r x j k p') as [[_ Hji]|[_ Hji]];
      [done|done|congruence|..]; fold iter in Hji.
    + rewrite <- Hji, Hj, Htry. obind_simpl.
      destruct (Nat.eqb_spec (common_chars l r) 0); [lia|].
      by rewrite (proj2 (Nat.ltb_lt _ _) Hpos).
    + assert (∃ ret, match c !! iter with
                     | Some (_, edge) => OrderedEdges.try_edge es r edge (0, None)
                     | None => Ok (0, None)
                     end = Ok (0, ret)) as [ret ->].
      { destruct (c !! iter) as [[k2 p2]|] eqn:Hi; [|by eexists].
        destruct (Ordered_try_edge r k2 p2 (0, None)) as (l2 & Hl2 & Hh2 & ->);
          [by eapply list_elem_of_lookup_2|done|].
        assert (common_chars l2 r = 0) as ->; [|by eexists].
        apply common_chars_zero. left. intros Heq.
        assert (iter = j); [|lia]. eapply Ordered_key_heads; [done..|congruence]. }
      obind_simpl. destruct (Nat.eqb_spec iter 0) as [|_]; [lia|]. simpl.
      replace (iter - 1) with j by lia. rewrite Hj.
      destruct (Ordered_try_edge r k p' (0, ret)) as (l3 & Hl3 & _ & ->);
        [by eapply list_elem_of_lookup_2|done|].
      assert (l3 = l) as -> by (by eapply NoDup_fst_functional).
      by rewrite (proj2 (Nat.ltb_lt _ _) Hpos).
  - apply find_edge_None in Hfe as [-> Hz].
    assert (∀ k p ret, (k, p) ∈ c →
              OrderedEdges.try_edge es r p ret = Ok (0, ret.2)) as Htry.
    { intros k p ret Hin.
      destruct (Ordered_try_edge r k p ret) as (l & Hl & _ & ->); [done..|].
      by rewrite (Hz p l). }
    assert (match c !! iter with
            | Some (_, edge) => OrderedEdges.try_edge es r edge (0, None)
            | None => Ok (0, None)
            end = Ok (0, None)) as ->.
    { destruct (c !! iter) as [[k2 p2]|] eqn:Hi; [|done].
      by rewrite (Htry k2 p2) by (by eapply list_elem_of_lookup_2). }
    obind_simpl. destruct (Nat.eqb_spec iter 0) as [|Hne]; [done|]. simpl.
    destruct (lookup_lt_is_Some_2 c (iter - 1)) as [[k' p'] Hi].
    { pose proof (upper_bound_le r c). unfold iter in *. lia. }
    rewrite Hi. by rewrite (Htry k' p') by (by eapply list_elem_of_lookup_2).
Qed.
End Ordered.

Lemma map_insert_elem key edge (c : OrderedEdges.Container) x :
  x ∈ OrderedEdges.map_insert key edge c → x = (key, edge) ∨ x ∈ c.
Proof.
  induction c as [|[k e] c IH]; simpl.
  - intros ->%list_elem_of_singleton. by left.
  - destruct (str_lt key k); [|destruct (str_lt k key)].
    + intros [->|?]%elem_of_cons; auto.
    + intros [->|?]%elem_of_cons; [right; left|]. destruct (IH H); [by left|right; by right].
    + auto.
Qed.

Lemma map_insert_sorted key edge (c : OrderedEdges.Container) :
  StronglySorted key_lt c → StronglySorted key_lt (OrderedEdges.map_insert key edge c).
Proof.
  induction 1 as [|[k e] c Hs IH Hall]; simpl.
  - repeat constructor.
  - destruct (str_lt key k) eqn:E1; [|destruct (str_lt k key) eqn:E2].
    + constructor; [by constructor|]. constructor; [done|].
      eapply Forall_impl; [done|]. intros [k' e'] Hlt. unfold key_lt in *. simpl in *.
      by apply (str_lt_trans _ k).
    + constructor; [done|]. apply Forall_forall. intros x [->|Hin]%map_insert_elem; [done|].
      rewrite Forall_forall in Hall. by apply Hall.
    + by constructor.
Qed.

Lemma map_insert_perm key edge (c : OrderedEdges.Container) :
  (∀ e, (key, e) ∉ c) → OrderedEdges.map_insert key edge c ≡ₚ (key, edge) :: c.
Proof.
  induction c as [|[k e] c IH]; intros Hfresh; simpl; [done|].
  destruct (str_lt key k) eqn:E1; [done|]. destruct (str_lt k key) eqn:E2.
  - rewrite IH; [apply Permutation_swap|]. intros e' ?. apply (Hfresh e'). by right.
  - assert (key = k) as -> by (by apply str_lt_total). destruct (Hfresh e). left.
Qed.

Lemma Ordered_Add_ok es les c p l :
  Ordered_cok les c → sib_ok (les ++ [(p, l)]) → labelled es (les ++ [(p, l)]) →
  ∃ c', OrderedEdges.Add es p c = Ok c' ∧ Ordered_cok (les ++ [(p, l)]) c'.
Proof.
  intros (Hs & Hperm & Hnd & Hkeys) Hsib Hlab. unfold OrderedEdges.Add.
  destruct (labelled_lookup es _ p l Hlab) as [nx He]; [apply elem_of_app; right; left|].
  unfold deref_edge. rewrite He. obind_simpl. simpl. eexists. split; [done|].
  assert (∀ e, (l, e) ∉ c) as Hfresh.
  { intros e (l' & Hin & _ & Hh)%Hkeys. by apply (sib_ok_snoc_head _ _ _ _ _ Hsib Hin). }
  split_and!.
  - by apply map_insert_sorted.
  - rewrite map_insert_perm by done. rewrite fmap_app, fmap_cons, Hperm. simpl.
    by rewrite Permutation_cons_append.
  - by apply (labelled_NoDup es).
  - intros key q [[= -> ->]|Hin]%map_insert_elem.
    + exists l. split; [apply elem_of_app; right; left|done].
    + destruct (Hkeys _ _ Hin) as (l' & ? & ?). exists l'. split; [apply elem_of_app; by left|done].
Qed.

Program Definition OrderedEdges_guarded_Ok
    : @EdgesOk OrderedEdges.Container OrderedEdges_guarded := {|
  accepts _ := true;
  cok := Ordered_cok
|}.
Next Obligation. done. Qed.
Next Obligation. split_and!; [constructor|done|constructor|]. by intros ?? ?%elem_of_nil. Qed.
Next Obligation. by intros ?? (_ & ? & _). Qed.
Next Obligation.
  intros les les' c (Hs & Hperm & Hnd & Hkeys) Hsh.
  split_and!; [done|by rewrite (shortened_fst _ _ Hsh)..|].
  intros key p (l & Hin & Hpre & Hh)%Hkeys.
  destruct (shortened_elem_rev _ _ _ _ Hsh Hin) as (l' & ? & ? & ?).
  exists l'. split_and!; [done|by etrans|congruence].
Qed.
Next Obligation. intros. by apply Ordered_Find_ok. Qed.
Next Obligation. apply Ordered_Add_ok. Qed.

(** ** Every node keeps its edges apart

    The invariant of the store: every node holds a well-formed collection
    of edges whose labels start with different characters.  It does not
    depend on the values being of one length, nor on the outcome of the
    calls. *)

(** Edges are never removed, and a label only ever shrinks to a prefix
    of itself that keeps its first character. *)
Definition edges_le (es es' : list Edge) : Prop :=
  ∀ p e, es !! p = Some e →
    ∃ e', es' !! p = Some e'
          ∧ m_Value e' `prefix_of` m_Value e
          ∧ head (m_Value e') = head (m_Value e).

Lemma edges_le_refl es : edges_le es es.
Proof. intros p e ?. by exists e. Qed.

Lemma edges_le_trans es1 es2 es3 : edges_le es1 es2 → edges_le es2 es3 → edges_le es1 es3.
Proof.
  intros H12 H23 p e (e2 & ? & ? & ?)%H12. destruct (H23 p e2) as (e3 & ? & ? & ?); [done|].
  exists e3. split_and!; [done|by etrans|congruence].
Qed.

Lemma edges_le_app es es2 : edges_le es (es ++ es2).
Proof. intros p e ?. exists e. split; [by apply lookup_app_l_Some|done]. Qed.

Lemma edges_le_insert es p e e' :
  es !! p = Some e → m_Value e' `prefix_of` m_Value e → head (m_Value e') = head (m_Value e) →
  edges_le es (<[p := e']> es).
Proof.
  intros He ?? q e0 Hq. destruct (decide (p = q)) as [->|].
  - exists e'. rewrite list_lookup_insert_eq by (by eapply lookup_lt_Some). naive_solver.
  - exists e0. by rewrite list_lookup_insert_ne.
Qed.

Lemma take_head {A} (l : list A) k : 0 < k → head (take k l) = head l.
Proof. destruct k, l; simpl; try done; lia. Qed.

Section Invariant.
Context {C : Type} `{!Edges C} `{!EdgesOk C}.

Definition node_ok (es : list Edge) (c : C) : Prop :=
  ∃ les, cok les c ∧ sib_ok les ∧ labelled es les.

Definition heap_ok (h : heap C) : Prop :=
  ∀ np n, nodes h !! np = Some n → node_ok (edges h) (m_Edges n).

Lemma node_ok_new es : node_ok es Edges_new.
Proof.
  exists []. split_and!; [apply cok_new|constructor|]. by intros ?? ?%elem_of_nil.
Qed.

Lemma node_ok_le es es' c : node_ok es c → edges_le es es' → node_ok es' c.
Proof.
  intros (les & Hc & Hsib & Hlab) Hle.
  set (f := λ pl : ptr * str,
         (pl.1, match es' !! pl.1 with Some e' => m_Value e' | None => pl.2 end)).
  assert (shortened les (f <$> les)) as Hsh.
  { unfold shortened. apply Forall2_fmap_r, Forall_Forall2_diag, Forall_forall.
    intros [p l] Hin. destruct (Hlab p l Hin) as (e & He & <-).
    destruct (Hle p e He) as (e' & He' & ? & ?). unfold f. simpl. by rewrite He'. }
  exists (f <$> les). split_and!.
  - by eapply cok_shorten.
  - by eapply shortened_sib_ok.
  - intros p l' ([p0 l] & [= -> ->] & Hin)%list_elem_of_fmap. simpl.
    destruct (Hlab p0 l Hin) as (e & He & <-).
    destruct (Hle p0 e He) as (e' & He' & ? & ?). rewrite He'. by exists e'.
Qed.

Lemma heap_ok_edges ns es es' :
  heap_ok (mkHeap ns es) → edges_le es es' → heap_ok (mkHeap ns es').
Proof. intros H Hle np n Hn. simpl in *. eapply node_ok_le; [by eapply (H np)|done]. Qed.

Lemma heap_ok_alloc ns es c :
  heap_ok (mkHeap ns es) → node_ok es c → heap_ok (mkHeap (ns ++ [mkNode c]) es).
Proof.
  intros H Hc np n. simpl. intros [Hn|[_ Hn]]%lookup_app_Some; [by apply (H np)|].
  apply list_lookup_singleton_Some in Hn as [_ <-]. done.
Qed.

Lemma heap_ok_put ns es np c :
  heap_ok (mkHeap ns es) → node_ok es c → heap_ok (mkHeap (<[np := mkNode c]> ns) es).
Proof.
  intros H Hc np' n. simpl. intros [(-> & <- & _)|[_ Hn]]%list_lookup_insert_Some; [done|].
  by apply (H np').
Qed.
End Invariant.

(** ** One step of the walk, case by case *)

(** Unfold the monadic plumbing of the store operations. *)
Ltac munfold :=
  repeat (unfold mbind, mret, M_bind, M_ret, lift, RaiseError, undefined,
    Edge_new, Node_new, Node_new2, alloc_node, alloc_edge, get_node, get_edge,
    set_m_Value, set_m_Next, put_node, Edges_Add, Edges_Find, deref_edge in *;
    cbn [nodes edges fst snd m_Edges m_Value m_Next]).

Section Steps.
Context {C : Type} `{!Edges C} `{!EdgesOk C}.

(** The store after a split of the edge [p]. *)
Definition split_edges (h : heap C) (p : ptr) (l r : str) (k : nat) (nx node : ptr)
    : list Edge :=
  <[p := mkEdge (take k l) node]>
    (edges h ++ [mkEdge (drop k l) nx; mkEdge (drop k r) (length (nodes h))]).

Lemma Edge_Eat_follow h p l nx k r u :
  edges h !! p = Some (mkEdge l nx) → r ≠ [] →
  k = common_chars l r → 0 < k → k = length l →
  Edge_Eat p k r u h = (Ok (Some nx, drop k r, u), h).
Proof.
  intros He Hr Hk Hpos Hlen. unfold Edge_Eat. munfold. rewrite He. munfold.
  pose proof (common_chars_le_r l r).
  destruct (Nat.eqb_spec k 0); [lia|]. simpl.
  destruct (Nat.ltb_spec (length l `min` length r) k); [lia|].
  destruct r as [|x r]; [done|].
  destruct (Nat.ltb_spec 0 k); [|lia].
  by destruct (Nat.eqb_spec k (length l)).
Qed.

Lemma Edge_Eat_split h p l nx k r u :
  edges h !! p = Some (mkEdge l nx) → r ≠ [] →
  k = common_chars l r → 0 < k → k < length l →
  let p1 := length (edges h) in
  let n2 := length (nodes h) in
  if accepts (drop k l) && accepts (drop k r) then
    ∃ c2, cok [(p1, drop k l); (S p1, drop k r)] c2
          ∧ Edge_Eat p k r u h
            = (Ok (None, [], true),
               mkHeap (nodes h ++ [mkNode Edges_new; mkNode c2])
                      (split_edges h p l r k nx (S n2)))
  else
    Edge_Eat p k r u h
    = (Undefined,
       mkHeap (nodes h ++ [mkNode Edges_new]) (split_edges h p l r k nx nx)).
Proof.
  intros He Hr Hk Hpos Hlt. cbv zeta. unfold Edge_Eat, split_edges. munfold. rewrite He. munfold.
  pose proof (common_chars_le_r l r).
  destruct (Nat.eqb_spec k 0); [lia|]. simpl.
  destruct (Nat.ltb_spec (length l `min` length r) k); [lia|].
  destruct r as [|x r]; [done|].
  destruct (Nat.ltb_spec 0 k); [|lia].
  destruct (Nat.eqb_spec k (length l)); [lia|].
  assert (p < length (edges h)) as Hp by (by eapply lookup_lt_Some).
  rewrite <- (assoc_L (++)). simpl.
  set (p1 := length (edges h)). set (n2 := length (nodes h)).
  set (es1 := edges h ++ [mkEdge (drop k l) nx; mkEdge (drop k (x :: r)) n2]).
  assert (es1 !! p = Some (mkEdge l nx)) as -> by (by apply lookup_app_l_Some).
  munfold.
  set (es2 := <[p := mkEdge (take k l) nx]> es1).
  assert (es2 !! p1 = Some (mkEdge (drop k l) nx)) as Hp1.
  { unfold es2, es1. rewrite list_lookup_insert_ne by (unfold p1; lia).
    by rewrite lookup_app_r, Nat.sub_diag by done. }
  assert (es2 !! S p1 = Some (mkEdge (drop k (x :: r)) n2)) as Hp2.
  { unfold es2, es1. rewrite list_lookup_insert_ne by (unfold p1; lia).
    rewrite lookup_app_r by (unfold p1; lia). by replace (S p1 - length (edges h)) with 1 by (unfold p1; lia). }
  destruct (common_chars_diverge l (x :: r)) as [Hdiv _]; [lia|]. rewrite <- Hk in Hdiv.
  pose proof (Add_ok es2 [] Edges_new p1 (drop k l) cok_new) as Ha1.
  simpl in Ha1. destruct (accepts (drop k l)); simpl.
  2:{ rewrite Ha1; [done|repeat constructor; set_solver|].
      intros ?? [= -> ->]%list_elem_of_singleton. eauto. }
  destruct Ha1 as (c1 & -> & Hc1); [repeat constructor; set_solver| |].
  { intros ?? [= -> ->]%list_elem_of_singleton. eauto. }
  pose proof (Add_ok es2 [(p1, drop k l)] c1 (S p1) (drop k (x :: r)) Hc1) as Ha2.
  simpl in Ha2. rewrite length_app. simpl. rewrite Nat.add_1_r. fold p1.
  assert (sib_ok [(p1, drop k l); (S p1, drop k (x :: r))]) as Hsib.
  { unfold sib_ok. simpl. apply NoDup_cons. split; [set_solver|]. apply NoDup_singleton. }
  assert (labelled es2 [(p1, drop k l); (S p1, drop k (x :: r))]) as Hlab.
  { intros ?? [[= -> ->]|[= -> ->]%list_elem_of_singleton]%elem_of_cons; eauto. }
  destruct (accepts (drop k (x :: r))); simpl.
  2:{ by rewrite Ha2. }
  destruct Ha2 as (c2 & -> & Hc2); [done..|].
  exists c2. split; [done|]. munfold.
  assert (es2 !! p = Some (mkEdge (take k l) nx)) as ->.
  { unfold es2. apply list_lookup_insert_eq. unfold es1. rewrite length_app. lia. }
  munfold. rewrite length_app. simpl. rewrite Nat.add_1_r.
  unfold es2. rewrite list_insert_insert_eq. rewrite <- (assoc_L (++)). done.
Qed.

Context (h : heap C) (np : ptr) (n : Node C) (les : list (ptr * str)).
Context (Hn : nodes h !! np = Some n) (Hc : cok les (m_Edges n)).
Context (Hsib : sib_ok les) (Hlab : labelled (edges h) les).

Lemma Node_Eat_reject r u :
  r ≠ [] → accepts r = false → Node_Eat np r u h = (Undefined, h).
Proof using Hn Hc Hsib Hlab.
  intros Hr Ha. unfold Node_Eat. destruct r as [|x r]; [done|]. munfold.
  rewrite Hn. munfold. by rewrite (Find_ok _ les), Ha.
Qed.

Lemma Node_Eat_follow r u k p l nx :
  r ≠ [] → accepts r = true → find_edge les r = (k, Some p) →
  edges h !! p = Some (mkEdge l nx) → k = length l →
  Node_Eat np r u h = (Ok (Some nx, drop k r, u), h).
Proof using Hn Hc Hsib Hlab.
  intros Hr Ha Hf He Hk. unfold Node_Eat. destruct r as [|x r'] eqn:Er; [done|].
  rewrite <- Er in *. clear Er x r'. munfold. rewrite Hn. munfold.
  rewrite (Find_ok _ les), Ha, Hf by done.
  munfold. apply find_edge_Some in Hf as (l' & Hin & Hk' & Hpos).
  destruct (Hlab _ _ Hin) as (e & He' & Hl).
  assert (e = mkEdge l nx) as -> by congruence. simpl in Hl. subst l'.
  destruct (Nat.ltb_spec 0 k); [|lia].
  rewrite (Edge_Eat_follow h p l nx k r u) by done.
  by destruct (drop _ _).
Qed.

Lemma Node_Eat_split r u k p l nx :
  r ≠ [] → accepts r = true → find_edge les r = (k, Some p) →
  edges h !! p = Some (mkEdge l nx) → k < length l →
  if accepts (drop k l) && accepts (drop k r) then
    ∃ c2, cok [(length (edges h), drop k l); (S (length (edges h)), drop k r)] c2
          ∧ Node_Eat np r u h
            = (Ok (None, [], true),
               mkHeap (nodes h ++ [mkNode Edges_new; mkNode c2])
                      (split_edges h p l r k nx (S (length (nodes h)))))
  else
    Node_Eat np r u h
    = (Undefined,
       mkHeap (nodes h ++ [mkNode Edges_new]) (split_edges h p l r k nx nx)).
Proof using Hn Hc Hsib Hlab.
  intros Hr Ha Hf He Hk.
  assert (Node_Eat np r u h =
          ('(next, remainder, isUnique) ← Edge_Eat p k r u;
          match next, remainder with
          | None, _ :: _ =>
              newEdge ← Edge_new remainder None;
              n ← get_node np;
              c ← Edges_Add newEdge (m_Edges n);
              put_node np (mkNode c);;
              mret (next, [], true)
          | _, _ => mret (next, remainder, isUnique)
          end) h) as ->.
  { unfold Node_Eat. destruct r as [|x r'] eqn:Er; [done|].
    rewrite <- Er in *. clear Er x r'. munfold. rewrite Hn. munfold.
    rewrite (Find_ok _ les), Ha, Hf by done. munfold.
    apply find_edge_Some in Hf as (l' & Hin & Hk' & Hpos).
    destruct (Nat.ltb_spec 0 k); [done|lia]. }
  pose proof Hf as (l' & Hin & Hk' & Hpos)%find_edge_Some.
  destruct (Hlab _ _ Hin) as (e & He' & Hl).
  assert (e = mkEdge l nx) as -> by congruence. simpl in Hl. subst l'.
  pose proof (Edge_Eat_split h p l nx k r u He Hr Hk' Hpos Hk) as Hs.
  cbv zeta in Hs. munfold.
  destruct (accepts (drop k l) && accepts (drop k r)).
  - destruct Hs as (c2 & Hc2 & ->). by exists c2.
  - by rewrite Hs.
Qed.

Lemma Node_Eat_new r u :
  r ≠ [] → accepts r = true → find_edge les r = (0, None) →
  ∃ c', cok (les ++ [(length (edges h), r)]) c'
        ∧ sib_ok (les ++ [(length (edges h), r)])
        ∧ Node_Eat np r u h
          = (Ok (None, [], true),
             mkHeap (<[np := mkNode c']> (nodes h ++ [mkNode Edges_new]))
                    (edges h ++ [mkEdge r (length (nodes h))])).
Proof using Hn Hc Hsib Hlab.
  intros Hr Ha Hf. pose proof Hf as [_ Hz]%find_edge_None.
  destruct r as [|x r']; [done|].
  set (es' := edges h ++ [mkEdge (x :: r') (length (nodes h))]).
  assert (sib_ok (les ++ [(length (edges h), x :: r')])) as Hsib'.
  { unfold sib_ok in *. rewrite !fmap_app. simpl. apply NoDup_app. split_and!; [done| |apply NoDup_singleton].
    intros o (l0 & -> & ([p l] & -> & Hin)%list_elem_of_fmap)%list_elem_of_fmap Ho.
    apply list_elem_of_singleton in Ho. simpl in *.
    apply Hz, common_chars_zero in Hin. destruct Hin as [?|Hl]; [done|].
    by rewrite Hl in Ho. }
  assert (labelled es' (les ++ [(length (edges h), x :: r')])) as Hlab'.
  { apply labelled_app. split.
    - intros p l (e & ? & ?)%Hlab. exists e. split; [by apply lookup_app_l_Some|done].
    - intros ?? [= -> ->]%list_elem_of_singleton. eexists. split.
      + unfold es'. by rewrite lookup_app_r, Nat.sub_diag by done.
      + done. }
  pose proof (Add_ok es' les (m_Edges n) _ (x :: r') Hc Hsib' Hlab') as Hadd.
  rewrite Ha in Hadd.
  destruct Hadd as (c' & Hadd & Hc'). exists c'. split_and!; [done..|].
  unfold Node_Eat. munfold. rewrite Hn. munfold.
  rewrite (Find_ok _ les), Ha, Hf by done. munfold.
  change (0 <? 0) with false. cbv beta iota.
  rewrite (lookup_app_l_Some _ _ _ _ Hn). munfold. fold es'. rewrite Hadd. munfold.
  rewrite (lookup_app_l_Some _ _ _ _ Hn). done.
Qed.
End Steps.

(** ** The store invariant is kept by every step *)

Section Safety.
Context {C : Type} `{!Edges C} `{!EdgesOk C}.

Lemma split_edges_old (h : heap C) p l r k nx node q :
  q ≠ p → q < length (edges h) →
  split_edges h p l r k nx node !! q = edges h !! q.
Proof.
  intros ??. unfold split_edges. rewrite list_lookup_insert_ne by done.
  by apply lookup_app_l.
Qed.

Lemma split_edges_this (h : heap C) p l r k nx node :
  p < length (edges h) →
  split_edges h p l r k nx node !! p = Some (mkEdge (take k l) node).
Proof.
  intros ?. unfold split_edges. apply list_lookup_insert_eq. rewrite length_app. lia.
Qed.

Lemma split_edges_first (h : heap C) p l r k nx node :
  p < length (edges h) →
  split_edges h p l r k nx node !! length (edges h) = Some (mkEdge (drop k l) nx).
Proof.
  intros ?. unfold split_edges. rewrite list_lookup_insert_ne by lia.
  by rewrite lookup_app_r, Nat.sub_diag by done.
Qed.

Lemma split_edges_second (h : heap C) p l r k nx node :
  p < length (edges h) →
  split_edges h p l r k nx node !! S (length (edges h))
  = Some (mkEdge (drop k r) (length (nodes h))).
Proof.
  intros ?. unfold split_edges. rewrite list_lookup_insert_ne by lia.
  rewrite lookup_app_r by lia. by replace (S (length (edges h)) - length (edges h)) with 1 by lia.
Qed.

Lemma split_edges_length (h : heap C) p l r k nx node :
  length (split_edges h p l r k nx node) = S (S (length (edges h))).
Proof. unfold split_edges. rewrite length_insert, length_app. simpl. lia. Qed.

Lemma split_edges_le (h : heap C) p l r k nx node :
  edges h !! p = Some (mkEdge l nx) → 0 < k →
  edges_le (edges h) (split_edges h p l r k nx node).
Proof.
  intros He Hk. eapply edges_le_trans; [apply edges_le_app|].
  eapply edges_le_insert; [by apply lookup_app_l_Some|..]; simpl.
  - apply prefix_take.
  - by apply take_head.
Qed.

(** The two edges of the node a split creates. *)
Lemma split_node_ok (h : heap C) p l r k nx node c2 :
  edges h !! p = Some (mkEdge l nx) → k = common_chars l r → k < length l →
  cok [(length (edges h), drop k l); (S (length (edges h)), drop k r)] c2 →
  node_ok (split_edges h p l r k nx node) c2.
Proof.
  intros He Hk Hlt Hc2. assert (p < length (edges h)) by (by eapply lookup_lt_Some).
  eexists. split_and!; [done| |].
  - destruct (common_chars_diverge l r) as [Hdiv _]; [lia|]. rewrite <- Hk in Hdiv.
    unfold sib_ok. simpl. apply NoDup_cons. split; [set_solver|]. apply NoDup_singleton.
  - intros ?? [[= -> ->]|[= -> ->]%list_elem_of_singleton]%elem_of_cons; eexists.
    + split; [by apply split_edges_first|done].
    + split; [by apply split_edges_second|done].
Qed.

(** Nothing is freed and no label grows. *)
Definition heap_le (h h' : heap C) : Prop :=
  edges_le (edges h) (edges h') ∧ length (nodes h) ≤ length (nodes h').

Lemma heap_le_refl h : heap_le h h.
Proof. split; [apply edges_le_refl|done]. Qed.

Lemma heap_le_trans h1 h2 h3 : heap_le h1 h2 → heap_le h2 h3 → heap_le h1 h3.
Proof. intros [??] [??]. split; [by eapply edges_le_trans|lia]. Qed.

Lemma Node_Eat_safe h np r u o h' :
  heap_ok h → r ≠ [] → Node_Eat np r u h = (o, h') →
  heap_ok h' ∧ heap_le h h'
  ∧ match o with
    | Ok (next, r', u') => length r' < length r ∧ (r' ≠ [] → is_Some next)
    | Undefined => True
    | _ => False
    end.
Proof.
  intros Hok Hr. destruct (nodes h !! np) as [n|] eqn:Hn.
  2:{ unfold Node_Eat. destruct r; [done|]. munfold. rewrite Hn.
      intros [= <- <-]. split_and!; [done|split; [apply edges_le_refl|done]|done]. }
  destruct (Hok np n Hn) as (les & Hc & Hsib & Hlab).
  destruct (accepts r) eqn:Ha.
  2:{ rewrite (Node_Eat_reject h np n les) by done.
      intros [= <- <-]. split_and!; [done|split; [apply edges_le_refl|done]|done]. }
  destruct (find_edge les r) as [k [p|]] eqn:Hf.
  - pose proof Hf as (l & Hin & Hk & Hpos)%find_edge_Some.
    destruct (labelled_lookup _ _ _ _ Hlab Hin) as [nx He].
    pose proof (common_chars_le_l l r). pose proof (common_chars_le_r l r).
    destruct (decide (k = length l)) as [Hfull|Hpart].
    + rewrite (Node_Eat_follow h np n les Hn Hc Hsib Hlab r u k p l nx) by done.
      intros [= <- <-]. split_and!; [done|split; [apply edges_le_refl|done]|..].
      * rewrite length_drop. lia.
      * done.
    + pose proof (Node_Eat_split h np n les Hn Hc Hsib Hlab r u k p l nx Hr Ha Hf He) as Hs.
      assert (edges_le (edges h) (split_edges h p l r k nx (S (length (nodes h))))
              ∧ edges_le (edges h) (split_edges h p l r k nx nx)) as [Hle1 Hle2].
      { split; by apply split_edges_le. }
      destruct (accepts (drop k l) && accepts (drop k r)).
      * destruct Hs as (c2 & Hc2 & ->); [lia|]. intros [= <- <-]. split_and!.
        -- change [mkNode Edges_new; mkNode c2] with ([mkNode Edges_new] ++ [mkNode c2]).
           rewrite (assoc_L (++)). apply heap_ok_alloc; [apply heap_ok_alloc|].
           ++ eapply heap_ok_edges; [|done]. by destruct h.
           ++ apply node_ok_new.
           ++ eapply split_node_ok; [done..|lia|done].
        -- split; [done|]. simpl. rewrite length_app. lia.
        -- simpl. destruct r; [done|simpl; lia].
        -- done.
      * rewrite Hs by lia. intros [= <- <-]. split_and!; [|split|done].
        -- apply heap_ok_alloc; [|apply node_ok_new].
           eapply heap_ok_edges; [|done]. by destruct h.
        -- done.
        -- simpl. rewrite length_app. lia.
  - pose proof Hf as [-> _]%find_edge_None.
    destruct (Node_Eat_new h np n les Hn Hc Hsib Hlab r u Hr Ha Hf) as (c' & Hc' & Hsib' & ->).
    intros [= <- <-].
    assert (edges_le (edges h) (edges h ++ [mkEdge r (length (nodes h))])) as Hle
      by apply edges_le_app.
    split_and!.
    + apply heap_ok_put.
      * apply heap_ok_alloc; [|apply node_ok_new]. eapply heap_ok_edges; [|done]. by destruct h.
      * exists (les ++ [(length (edges h), r)]). split_and!; [done..|].
        apply labelled_app. split.
        -- intros p l (e & ? & ?)%Hlab. exists e. split; [by apply lookup_app_l_Some|done].
        -- intros ?? [= -> ->]%list_elem_of_singleton. eexists. split.
           ++ by rewrite lookup_app_r, Nat.sub_diag by done.
           ++ done.
    + split; [done|]. simpl. rewrite length_insert, length_app. lia.
    + simpl. destruct r; [done|simpl; lia].
    + done.
Qed.
End Safety.

Section Safety_loop.
Context {C : Type} `{!Edges C} `{!EdgesOk C}.

(** The walk never throws and never needs more rounds than the value
    has characters. *)
Lemma IsUnique_loop_safe fuel cur r u (h : heap C) o h' :
  heap_ok h → length r ≤ fuel → IsUnique_loop fuel cur r u h = (o, h') →
  heap_ok h' ∧ heap_le h h'
  ∧ match o with Ok _ | Undefined => True | _ => False end.
Proof.
  revert cur r u h. induction fuel as [|fuel IH]; intros cur r u h Hok Hlen.
  - destruct r; [|simpl in Hlen; lia]. intros [= <- <-]. by split_and!; [|apply heap_le_refl|].
  - destruct r as [|x r]; [intros [= <- <-]; by split_and!; [|apply heap_le_refl|]|].
    destruct cur as [node|]; [|intros [= <- <-]; by split_and!; [|apply heap_le_refl|]].
    cbn [IsUnique_loop]. munfold.
    destruct (Node_Eat node (x :: r) u h) as [o1 h1] eqn:Hstep.
    destruct (Node_Eat_safe h node (x :: r) u o1 h1 Hok ltac:(done) Hstep)
      as (Hok1 & Hle1 & Ho1).
    destruct o1 as [[[next r'] u']| | |]; try done.
    + intros Hrest. destruct Ho1 as [Hshort _].
      destruct (IH next r' u' h1 Hok1 ltac:(simpl in *; lia) Hrest) as (? & ? & ?).
      split_and!; [done|by eapply heap_le_trans|done].
    + intros [= <- <-]. by split_and!.
Qed.
End Safety_loop.

(** ** The tree a store holds

    A tree with the addresses of its nodes and edges: a kid of a node is
    the address of an edge, its label and the subtree below it. *)

Inductive tree : Type :=
  TNode (addr : ptr) (kids : list (ptr * str * tree)).

Definition t_addr (t : tree) : ptr := match t with TNode a _ => a end.
Definition t_kids (t : tree) : list (ptr * str * tree) :=
  match t with TNode _ ks => ks end.

Lemma tree_ind' (P : tree → Prop) :
  (∀ a ks, Forall (λ k, P k.2) ks → P (TNode a ks)) → ∀ t, P t.
Proof.
  intros H. fix IH 1. intros [a ks]. apply H.
  induction ks as [|k ks IHks]; constructor; [apply IH|apply IHks].
Qed.

(** The addresses a tree occupies. *)
Fixpoint t_nodes (t : tree) : list ptr :=
  match t with
  | TNode a ks => a :: flat_map (λ k, t_nodes k.2) ks
  end.

Fixpoint t_edges (t : tree) : list ptr :=
  match t with
  | TNode _ ks => flat_map (λ k, k.1.1 :: t_edges k.2) ks
  end.

(** The values of a tree: the labels along a path from the root to a
    node without edges. *)
Inductive t_mem : tree → str → Prop :=
| t_mem_leaf a : t_mem (TNode a []) []
| t_mem_kid a ks p l c w :
    (p, l, c) ∈ ks → t_mem c w → t_mem (TNode a ks) (l ++ w).

(** A tree all of whose values have [n] characters: no empty label, no
    two labels of a node starting alike, every path [n] characters long. *)
Inductive t_full : nat → tree → Prop :=
| t_full_leaf a : t_full 0 (TNode a [])
| t_full_node n a ks :
    ks ≠ [] → sib_ok ks.*1 →
    Forall (λ k, k.1.2 ≠ [] ∧ length k.1.2 ≤ n ∧ t_full (n - length k.1.2) k.2) ks →
    t_full n (TNode a ks).

(** All labels are made of digits. *)
Inductive t_digits : tree → Prop :=
| t_digits_node a ks :
    Forall (λ k, forallb isdigit k.1.2 = true ∧ t_digits k.2) ks →
    t_digits (TNode a ks).

(** The position of the kid [Find] selects. *)
Fixpoint find_kid (ks : list (ptr * str * tree)) (r : str) : option nat :=
  match ks with
  | [] => None
  | (_, l, _) :: ks' =>
      if 0 <? common_chars l r then Some 0 else S <$> find_kid ks' r
  end.

(** The result of one insertion. *)
Record inserted : Type := mkInserted {
  i_tree : tree;        (* the tree afterwards *)
  i_unique : bool;      (* whether the tree has grown *)
  i_nodes : nat;        (* nodes created *)
  i_edges : nat         (* edges created *)
}.

(** What [IsUnique] does to the tree; [nn] and [ne] are the next free
    node and edge addresses. *)
Fixpoint t_insert (fuel nn ne : nat) (t : tree) (r : str) : inserted :=
  match r, fuel with
  | [], _ | _, 0 => mkInserted t false 0 0
  | _, S fuel' =>
      match find_kid (t_kids t) r with
      | None =>
          mkInserted (TNode (t_addr t) (t_kids t ++ [(ne, r, TNode nn [])])) true 1 1
      | Some i =>
          match t_kids t !! i with
          | None => mkInserted t false 0 0
          | Some (p, l, child) =>
              let k := common_chars l r in
              if k =? length l then
                let res := t_insert fuel' nn ne child (drop k r) in
                mkInserted (TNode (t_addr t) (<[i := (p, l, i_tree res)]> (t_kids t)))
                           (i_unique res) (i_nodes res) (i_edges res)
              else
                mkInserted
                  (TNode (t_addr t)
                     (<[i := (p, take k l,
                              TNode (S nn) [(ne, drop k l, child);
                                            (S ne, drop k r, TNode nn [])])]>
                        (t_kids t)))
                  true 2 2
          end
      end
  end.

Lemma find_kid_Some ks r i :
  find_kid ks r = Some i →
  ∃ p l c, ks !! i = Some (p, l, c) ∧ 0 < common_chars l r.
Proof.
  revert i. induction ks as [|[[p l] c] ks IH]; intros i; simpl; [done|].
  destruct (Nat.ltb_spec 0 (common_chars l r)).
  - intros [= <-]. by exists p, l, c.
  - destruct (find_kid ks r) as [j|]; [|done]. intros [= <-]. by apply IH.
Qed.

Lemma find_kid_None ks r p l c :
  find_kid ks r = None → (p, l, c) ∈ ks → common_chars l r = 0.
Proof.
  induction ks as [|[[p' l'] c'] ks IH]; simpl; [by intros _ ?%elem_of_nil|].
  destruct (Nat.ltb_spec 0 (common_chars l' r)); [done|].
  destruct (find_kid ks r); [done|]. intros _ [[= -> -> ->]|?]%elem_of_cons; [lia|by apply IH].
Qed.

(** [find_kid] selects the kid of the edge [find_edge] returns. *)
Lemma find_edge_kids ks r :
  find_edge ks.*1 r
  = match find_kid ks r with
    | Some i =>
        match ks !! i with
        | Some (p, l, _) => (common_chars l r, Some p)
        | None => (0, None)
        end
    | None => (0, None)
    end.
Proof.
  induction ks as [|[[p l] c] ks IH]; [done|].
  rewrite fmap_cons. cbn [find_edge find_kid fst snd].
  destruct (0 <? common_chars l r); [done|]. rewrite IH.
  by destruct (find_kid ks r).
Qed.

Lemma kid_head_inj (ks : list (ptr * str * tree)) i j k1 k2 :
  sib_ok ks.*1 → ks !! i = Some k1 → ks !! j = Some k2 →
  head k1.1.2 = head k2.1.2 → i = j.
Proof.
  unfold sib_ok. intros Hnd Hi Hj Hh. apply (NoDup_lookup _ i j (head k1.1.2) Hnd).
  - by rewrite !list_lookup_fmap, Hi.
  - by rewrite !list_lookup_fmap, Hj, Hh.
Qed.

Lemma t_mem_node a ks w :
  ks ≠ [] →
  t_mem (TNode a ks) w ↔
  ∃ j p l c w', ks !! j = Some (p, l, c) ∧ w = l ++ w' ∧ t_mem c w'.
Proof.
  intros Hne. split.
  - inversion 1 as [|a' ks' p l c w' Hin Hm]; subst; [done|].
    apply list_elem_of_lookup in Hin as [j Hj]. by exists j, p, l, c, w'.
  - intros (j & p & l & c & w' & Hj & -> & Hm).
    econstructor; [by eapply list_elem_of_lookup_2|done].
Qed.

(** The kids of a node of a tree of height [n]. *)
Definition kids_ok (n : nat) (ks : list (ptr * str * tree)) : Prop :=
  sib_ok ks.*1
  ∧ Forall (λ k, k.1.2 ≠ [] ∧ length k.1.2 ≤ n ∧ t_full (n - length k.1.2) k.2) ks.

Lemma t_full_inv n a ks :
  t_full n (TNode a ks) → (n = 0 ∧ ks = []) ∨ (0 < n ∧ ks ≠ [] ∧ kids_ok n ks).
Proof.
  inversion 1 as [|??? Hne Hsib Hall]; subst; [by left|right].
  split_and!; [|done|by split]. destruct ks as [|k ks]; [done|].
  apply Forall_cons in Hall as [(? & ? & _) _]. destruct (k.1.2); [done|simpl in *; lia].
Qed.

Lemma t_full_mem_length n t w : t_full n t → t_mem t w → length w = n.
Proof.
  revert n w. induction t as [a ks IH] using tree_ind'. intros n w Hf Hm.
  apply t_full_inv in Hf as [[-> ->]|(Hn & Hne & _ & Hall)].
  - by inversion Hm as [|a' ks' p l c w' Hin Hm']; subst; [|apply elem_of_nil in Hin].
  - inversion Hm as [|a' ks' p l c w' Hin Hm']; subst; [done|].
    rewrite Forall_forall in IH, Hall. specialize (IH _ Hin). destruct (Hall _ Hin) as (_ & ? & Hf).
    simpl in *. rewrite length_app, (IH _ _ Hf Hm'). lia.
Qed.

Lemma t_mem_insert a ks i k0 k1 w :
  ks !! i = Some k0 →
  t_mem (TNode a (<[i := k1]> ks)) w ↔
    (∃ w', w = k1.1.2 ++ w' ∧ t_mem k1.2 w')
    ∨ (∃ j k w', j ≠ i ∧ ks !! j = Some k ∧ w = k.1.2 ++ w' ∧ t_mem k.2 w').
Proof.
  intros Hi. assert (i < length ks) by (by eapply lookup_lt_Some).
  assert (<[i := k1]> ks ≠ []) as Hne.
  { intros Hnil. apply (f_equal length) in Hnil. rewrite length_insert in Hnil.
    simpl in Hnil. lia. }
  rewrite t_mem_node by done. split.
  - intros (j & p & l & c & w' & Hj & -> & Hm).
    apply list_lookup_insert_Some in Hj as [(-> & -> & _)|[? Hj]].
    + left. by exists w'.
    + right. by exists j, (p, l, c), w'.
  - intros [(w' & -> & Hm)|(j & [[p l] c] & w' & Hne' & Hj & -> & Hm)].
    + destruct k1 as [[p l] c]. exists i, p, l, c, w'.
      by rewrite list_lookup_insert_eq.
    + exists j, p, l, c, w'. by rewrite list_lookup_insert_ne.
Qed.

Lemma t_mem_at a ks i k0 w :
  ks !! i = Some k0 →
  t_mem (TNode a ks) w ↔
    (∃ w', w = k0.1.2 ++ w' ∧ t_mem k0.2 w')
    ∨ (∃ j k w', j ≠ i ∧ ks !! j = Some k ∧ w = k.1.2 ++ w' ∧ t_mem k.2 w').
Proof. intros Hi. by rewrite <- (t_mem_insert a ks i k0 k0 w Hi), list_insert_id. Qed.

(** Under [kids_ok], a value of the node that starts like the label of
    the kid [i] goes through that kid. *)
Lemma t_mem_through n a ks i p l c w :
  kids_ok n ks → ks !! i = Some (p, l, c) → head w = head l →
  t_mem (TNode a ks) w ↔ ∃ w', w = l ++ w' ∧ t_mem c w'.
Proof.
  intros [Hsib Hall] Hi Hh. rewrite (t_mem_at a ks i (p, l, c)) by done. simpl.
  split; [|by left]. intros [?|(j & k & w' & Hne & Hj & -> & Hm)]; [done|]. exfalso.
  rewrite Forall_forall in Hall.
  destruct (Hall k) as (Hk & _); [by eapply list_elem_of_lookup_2|].
  destruct (Hall (p, l, c)) as (Hl & _); [by eapply list_elem_of_lookup_2|]. simpl in *.
  apply Hne, (kid_head_inj ks j i k (p, l, c)); [done..|]. simpl.
  rewrite <- Hh. by destruct (k.1.2).
Qed.

Lemma kids_ok_insert n ks i k0 k1 :
  kids_ok n ks → ks !! i = Some k0 →
  head k1.1.2 = head k0.1.2 → k1.1.2 ≠ [] → length k1.1.2 ≤ n →
  t_full (n - length k1.1.2) k1.2 →
  kids_ok n (<[i := k1]> ks).
Proof.
  intros [Hsib Hall] Hi Hh ???. split.
  - unfold sib_ok in *. rewrite !list_fmap_insert, Hh.
    rewrite list_insert_id; [done|]. by rewrite !list_lookup_fmap, Hi.
  - by apply Forall_insert.
Qed.

Lemma kids_ok_snoc n ks ne nn r :
  kids_ok n ks → find_kid ks r = None → r ≠ [] → length r = n →
  kids_ok n (ks ++ [(ne, r, TNode nn [])]).
Proof.
  intros [Hsib Hall] Hf Hr Hn. split.
  - unfold sib_ok in *. rewrite !fmap_app. simpl. apply NoDup_app. split_and!; [done| |apply NoDup_singleton].
    intros o (l0 & -> & (pl & -> & ([[p l] c] & -> & Hin)%list_elem_of_fmap)%list_elem_of_fmap)%list_elem_of_fmap Ho.
    apply list_elem_of_singleton in Ho. simpl in *.
    pose proof (find_kid_None _ _ _ _ _ Hf Hin) as Hz. apply common_chars_zero in Hz.
    destruct Hz as [?|Hl]; [done|].
    rewrite Forall_forall in Hall. by destruct (Hall _ Hin) as (? & _).
  - apply Forall_app. split; [done|]. constructor; [|done]. simpl. split_and!; [done|lia|].
    rewrite Hn, Nat.sub_diag. constructor.
Qed.

Lemma t_mem_snoc a ks k w :
  ks ≠ [] →
  t_mem (TNode a (ks ++ [k])) w ↔
    t_mem (TNode a ks) w ∨ ∃ w', w = k.1.2 ++ w' ∧ t_mem k.2 w'.
Proof.
  intros Hne. rewrite !t_mem_node by (done || by destruct ks). split.
  - intros (j & p & l & c & w' & Hj & -> & Hm).
    apply lookup_app_Some in Hj as [Hj|[_ Hj]].
    + left. by exists j, p, l, c, w'.
    + apply list_lookup_singleton_Some in Hj as [_ ->]. right. by exists w'.
  - intros [(j & p & l & c & w' & Hj & -> & Hm)|(w' & -> & Hm)].
    + exists j, p, l, c, w'. split; [by apply lookup_app_l_Some|done].
    + destruct k as [[p l] c]. exists (length ks), p, l, c, w'.
      split; [|done]. by rewrite lookup_app_r, Nat.sub_diag by done.
Qed.

Lemma t_mem_leaf_inv a w : t_mem (TNode a []) w ↔ w = [].
Proof.
  split; [|intros ->; constructor].
  by inversion 1 as [|a' ks' p l c w' Hin Hm']; subst; [|apply elem_of_nil in Hin].
Qed.

(** *** What an insertion does to the values of a tree *)

Lemma t_insert_spec fuel nn ne t r n :
  t_full n t → length r = n → n ≤ fuel →
  let res := t_insert fuel nn ne t r in
  t_full n (i_tree res) ∧ t_addr (i_tree res) = t_addr t
  ∧ (i_unique res = true ↔ ¬ t_mem t r)
  ∧ (∀ w, t_mem (i_tree res) w ↔ t_mem t w ∨ w = r).
Proof.
  revert t r n. induction fuel as [|fuel IH]; intros [a ks] r n Hf Hlen Hfuel; cbv zeta.
  { assert (n = 0) by lia. subst n. destruct r; [|done].
    apply t_full_inv in Hf as [[_ ->]|(? & _)]; [|lia]. simpl.
    split_and!; [constructor|done|..].
    - split; [done|]. intros Hx. destruct Hx. constructor.
    - intros w. rewrite t_mem_leaf_inv. naive_solver. }
  destruct r as [|x r0].
  { simpl in Hlen. subst n.
    apply t_full_inv in Hf as [[_ ->]|(? & _)]; [|lia]. simpl.
    split_and!; [constructor|done|..].
    - split; [done|]. intros Hx. destruct Hx. constructor.
    - intros w. rewrite t_mem_leaf_inv. naive_solver. }
  apply t_full_inv in Hf as [[-> _]|(Hn & Hne & Hk)]; [done|].
  cbn [t_insert t_kids t_addr]. set (r := x :: r0) in *.
  assert (r ≠ []) as Hr by done. clearbody r. clear x r0.
  destruct (find_kid ks r) as [i|] eqn:Hfk.
  - destruct (find_kid_Some _ _ _ Hfk) as (p & l & c & Hi & Hpos). rewrite Hi.
    pose proof Hk as [Hsib Hall]. rewrite Forall_forall in Hall.
    destruct (Hall (p, l, c)) as (Hl & Hln & Hfc); [by eapply list_elem_of_lookup_2|].
    simpl in Hl, Hln, Hfc.
    pose proof Hpos as [Hh _]%common_chars_pos.
    pose proof (common_chars_le_r l r) as Hkr.
    assert (∀ k1, <[i := k1]> ks ≠ []) as Hne'.
    { intros k1 Hnil. apply (f_equal length) in Hnil. rewrite length_insert in Hnil.
      by destruct ks. }
    destruct (Nat.eqb_spec (common_chars l r) (length l)) as [Hfull|Hpart].
    + pose proof (common_chars_full l r Hfull) as Hrl. rewrite Hfull.
      set (r' := drop (length l) r) in *.
      destruct (IH c r' (n - length l) Hfc) as (Hf' & Ha' & Hu' & Hm').
      { unfold r'. rewrite length_drop. lia. }
      { destruct l; [done|]. simpl in *. lia. }
      cbn [i_tree i_unique]. split_and!.
      * constructor; [done|..]; by eapply kids_ok_insert.
      * done.
      * rewrite Hu', (t_mem_through n a ks i p l c r) by done. split.
        -- intros Hc (w' & Hw & Hm). apply Hc. rewrite Hrl in Hw.
           apply app_inv_head in Hw. by rewrite Hw.
        -- intros Hc Hm. apply Hc. by exists r'.
      * intros w. rewrite (t_mem_insert a ks i (p, l, c)), (t_mem_at a ks i (p, l, c)) by done.
        simpl. setoid_rewrite Hm'. split.
        -- intros [(w' & -> & [Hm| ->])|HB]; [left; left; by exists w'|right; by symmetry|left; by right].
        -- intros [[(w' & -> & Hm)|HB]| ->]; [left|by right|left].
           ++ exists w'. split; [done|by left].
           ++ exists r'. split; [done|by right].
    + set (k := common_chars l r) in *. pose proof (common_chars_le_l l r).
      assert (k < length l) as Hkl by (unfold k in *; lia).
      destruct (common_chars_diverge l r) as [Hdiv Hdl]; [done|]. fold k in Hdiv, Hdl.
      assert (drop k r ≠ []) as Hdr.
      { intros Hnil. apply (f_equal length) in Hnil. rewrite length_drop in Hnil.
        simpl in Hnil. lia. }
      cbn [i_tree i_unique]. split_and!.
      * assert (kids_ok n (<[i := (p, take k l,
                  TNode (S nn) [(ne, drop k l, c); (S ne, drop k r, TNode nn [])])]> ks))
          as [??]; [|by constructor].
        apply (kids_ok_insert n ks i (p, l, c)); [done..| | | |]; simpl.
        -- by rewrite take_head.
        -- intros Hnil. apply (f_equal length) in Hnil. rewrite length_take in Hnil.
           simpl in Hnil. lia.
        -- rewrite length_take. lia.
        -- rewrite length_take, Nat.min_l by lia. constructor; [done| |].
           ++ unfold sib_ok. simpl. apply NoDup_cons. split; [set_solver|apply NoDup_singleton].
           ++ apply Forall_cons. split; [|apply Forall_cons; split; [|constructor]]; simpl.
              ** split_and!; [done|rewrite length_drop; lia|]. rewrite length_drop.
                 by replace (n - k - (length l - k)) with (n - length l) by lia.
              ** split_and!; [done|rewrite length_drop; lia|]. rewrite length_drop.
                 replace (n - k - (length r - k)) with 0 by lia. constructor.
      * done.
      * split; [intros _|done]. rewrite (t_mem_through n a ks i p l c r) by done.
        intros (w' & Hw & _). apply Hpart. unfold k. rewrite Hw. apply common_chars_app.
      * intros w. rewrite (t_mem_insert a ks i (p, l, c)), (t_mem_at a ks i (p, l, c)) by done.
        simpl. assert (∀ w0, t_mem (TNode (S nn) [(ne, drop k l, c); (S ne, drop k r, TNode nn [])]) w0
                        ↔ (∃ w', w0 = drop k l ++ w' ∧ t_mem c w') ∨ w0 = drop k r) as Hsub.
        { intros w0.
          change [(ne, drop k l, c); (S ne, drop k r, TNode nn [])]
            with ([(ne, drop k l, c)] ++ [(S ne, drop k r, TNode nn [])]).
          rewrite (t_mem_snoc _ [(ne, drop k l, c)]) by done. simpl.
          rewrite (t_mem_at _ _ 0 (ne, drop k l, c)) by done. simpl.
          setoid_rewrite t_mem_leaf_inv. split.
          - intros [[?|(j & k' & w' & ? & Hj & _)]| (w' & -> & ->)]; [by left| |right; by rewrite app_nil_r].
            destruct j; [done|]. by destruct j.
          - intros [?| ->]; [left; by left|]. right. exists []. by rewrite app_nil_r. }
        setoid_rewrite Hsub.
        assert (take k l = take k r) as Htk by apply common_chars_take.
        split.
        -- intros [(w' & -> & [(w'' & -> & Hm)| ->])|?]; [left; left| |left; by right].
           ++ exists w''. by rewrite (assoc_L (++)), take_drop.
           ++ right. by rewrite Htk, take_drop.
        -- intros [[(w' & -> & Hm)|?]| ->]; [left|by right|left].
           ++ exists (drop k l ++ w'). rewrite (assoc_L (++)), take_drop. split; [done|]. left. by exists w'.
           ++ exists (drop k r). rewrite Htk, take_drop. split; [done|]. by right.
  - cbn [i_tree i_unique]. split_and!.
    + constructor; [by destruct ks|..]; by eapply kids_ok_snoc.
    + done.
    + split; [intros _|done]. rewrite t_mem_node by done.
      intros (j & p & l & c & w' & Hj & Hw & _).
      pose proof (find_kid_None _ _ _ _ _ Hfk (list_elem_of_lookup_2 _ _ _ Hj)) as Hz.
      destruct Hk as [_ Hall]. rewrite Forall_forall in Hall.
      destruct (Hall (p, l, c)) as (Hl & _); [by eapply list_elem_of_lookup_2|]. simpl in Hl.
      rewrite Hw, common_chars_app in Hz. by destruct l.
    + intros w. rewrite t_mem_snoc by done. simpl. setoid_rewrite t_mem_leaf_inv.
      split.
      * intros [?| (w' & -> & ->)]; [by left|right; by rewrite app_nil_r].
      * intros [?| ->]; [by left|right]. exists []. by rewrite app_nil_r.
Qed.

(** *** The addresses of a tree after an insertion *)

Lemma flat_map_insert {A B} (f : A → list B) (ks : list A) i k0 k1 extra :
  ks !! i = Some k0 → f k1 ≡ₚ f k0 ++ extra →
  flat_map f (<[i := k1]> ks) ≡ₚ flat_map f ks ++ extra.
Proof.
  revert i. induction ks as [|k ks IH]; intros [|i]; simpl; try done.
  - intros [= ->] ->. by rewrite <- !(assoc_L (++)), (comm (++) extra).
  - intros Hi Hf. by rewrite (IH i Hi Hf), (assoc_L (++)).
Qed.

Lemma t_insert_nodes fuel nn ne t r :
  let res := t_insert fuel nn ne t r in
  t_nodes (i_tree res) ≡ₚ t_nodes t ++ seq nn (i_nodes res).
Proof.
  revert t r. induction fuel as [|fuel IH]; intros [a ks] r; cbv zeta.
  { destruct r; simpl; by rewrite app_nil_r. }
  destruct r as [|x r0]; [simpl; by rewrite app_nil_r|].
  cbn [t_insert t_kids t_addr]. set (r := x :: r0). clearbody r.
  destruct (find_kid ks r) as [i|] eqn:Hfk.
  - destruct (ks !! i) as [[[p l] c]|] eqn:Hi; [|simpl; by rewrite app_nil_r].
    destruct (common_chars l r =? length l); cbn [i_tree i_nodes t_nodes].
    + rewrite (flat_map_insert _ ks i (p, l, c) _ (seq nn (i_nodes (t_insert fuel nn ne c (drop (common_chars l r) r))))); [done..|].
      apply IH.
    + rewrite (flat_map_insert _ ks i (p, l, c) _ [nn; S nn]); [done..|]. simpl.
      change [nn; S nn] with ([nn] ++ [S nn]). rewrite (assoc_L (++)).
      apply Permutation_cons_append.
  - cbn [i_tree i_nodes t_nodes]. rewrite flat_map_app. simpl. by rewrite ?app_nil_r.
Qed.

Lemma t_insert_edges fuel nn ne t r :
  let res := t_insert fuel nn ne t r in
  t_edges (i_tree res) ≡ₚ t_edges t ++ seq ne (i_edges res).
Proof.
  revert t r. induction fuel as [|fuel IH]; intros [a ks] r; cbv zeta.
  { destruct r; simpl; by rewrite app_nil_r. }
  destruct r as [|x r0]; [simpl; by rewrite app_nil_r|].
  cbn [t_insert t_kids t_addr]. set (r := x :: r0). clearbody r.
  destruct (find_kid ks r) as [i|] eqn:Hfk.
  - destruct (ks !! i) as [[[p l] c]|] eqn:Hi; [|simpl; by rewrite app_nil_r].
    destruct (common_chars l r =? length l); cbn [i_tree i_edges t_edges].
    + rewrite (flat_map_insert _ ks i (p, l, c) _ (seq ne (i_edges (t_insert fuel nn ne c (drop (common_chars l r) r))))); [done..|].
      simpl. by rewrite IH.
    + rewrite (flat_map_insert _ ks i (p, l, c) _ [ne; S ne]); [done..|]. simpl.
      apply Permutation_skip. change [ne; S ne] with ([ne] ++ [S ne]).
      rewrite (assoc_L (++)).
      change (ne :: t_edges c ++ [S ne]) with ((ne :: t_edges c) ++ [S ne]).
      apply Permutation_app_tail. apply Permutation_cons_append.
  - cbn [i_tree i_edges t_edges]. rewrite flat_map_app. simpl. by rewrite ?app_nil_r.
Qed.

(** The addresses of a tree are distinct and below the next free ones. *)
Definition t_wf (nn ne : nat) (t : tree) : Prop :=
  NoDup (t_nodes t) ∧ NoDup (t_edges t)
  ∧ Forall (λ a, a < nn) (t_nodes t) ∧ Forall (λ p, p < ne) (t_edges t).

Lemma NoDup_app_seq (l : list nat) n d :
  NoDup l → Forall (λ a, a < n) l → NoDup (l ++ seq n d).
Proof.
  intros Hnd Hb. apply NoDup_app. split_and!; [done| |apply NoDup_seq].
  rewrite Forall_forall in Hb. intros a Ha%Hb Hs%elem_of_seq. lia.
Qed.

Lemma t_insert_wf fuel nn ne t r :
  t_wf nn ne t →
  let res := t_insert fuel nn ne t r in
  t_wf (nn + i_nodes res) (ne + i_edges res) (i_tree res).
Proof.
  intros (Hn & He & Hbn & Hbe). cbv zeta.
  pose proof (t_insert_nodes fuel nn ne t r) as Hpn.
  pose proof (t_insert_edges fuel nn ne t r) as Hpe. cbv zeta in Hpn, Hpe.
  split_and!.
  - rewrite Hpn. by apply NoDup_app_seq.
  - rewrite Hpe. by apply NoDup_app_seq.
  - rewrite Hpn. apply Forall_app. split.
    + eapply Forall_impl; [done|]. simpl. lia.
    + apply Forall_forall. intros a Hs%elem_of_seq. lia.
  - rewrite Hpe. apply Forall_app. split.
    + eapply Forall_impl; [done|]. simpl. lia.
    + apply Forall_forall. intros a Hs%elem_of_seq. lia.
Qed.

(** Digits stay digits. *)
Lemma forallb_take {A} (f : A → bool) l k : forallb f l = true → forallb f (take k l) = true.
Proof.
  revert k. induction l as [|x l IH]; intros [|k]; simpl; try done.
  intros [-> ?]%andb_prop. simpl. by apply IH.
Qed.

Lemma forallb_drop {A} (f : A → bool) l k : forallb f l = true → forallb f (drop k l) = true.
Proof.
  revert k. induction l as [|x l IH]; intros [|k]; simpl; try done.
  intros [_ ?]%andb_prop. by apply IH.
Qed.

Lemma t_insert_digits fuel nn ne t r :
  t_digits t → forallb isdigit r = true →
  t_digits (i_tree (t_insert fuel nn ne t r)).
Proof.
  revert t r. induction fuel as [|fuel IH]; intros [a ks] r Ht Hr.
  { by destruct r. }
  destruct r as [|x r0]; [done|].
  cbn [t_insert t_kids t_addr]. set (r := x :: r0) in *. clearbody r.
  inversion Ht as [a' ks' Hall]; subst.
  destruct (find_kid ks r) as [i|] eqn:Hfk.
  - destruct (ks !! i) as [[[p l] c]|] eqn:Hi; [|done].
    pose proof Hall as Hall'. rewrite Forall_forall in Hall'.
    destruct (Hall' (p, l, c)) as [Hl Hc]; [by eapply list_elem_of_lookup_2|]. simpl in *.
    destruct (common_chars l r =? length l); cbn [i_tree]; constructor; apply Forall_insert; try done; simpl.
    + split; [done|]. apply IH; [done|]. by apply forallb_drop.
    + split; [by apply forallb_take|]. constructor.
      repeat (apply Forall_cons; split); simpl; [split|split|constructor].
      * by apply forallb_drop.
      * done.
      * by apply forallb_drop.
      * by constructor.
  - cbn [i_tree]. constructor. apply Forall_app. split; [done|].
    apply Forall_cons. split; [|constructor]. simpl. split; [done|]. by constructor.
Qed.

(** ** The store holds the tree *)

Lemma elem_of_flat_map {A B} (f : A → list B) (l : list A) (y : B) :
  y ∈ flat_map f l ↔ ∃ x, x ∈ l ∧ y ∈ f x.
Proof. rewrite list_elem_of_In, in_flat_map. by setoid_rewrite list_elem_of_In. Qed.

Section Repr.
Context {C : Type} `{!Edges C} `{!EdgesOk C}.

(** Every node of the tree is in the store at its address with exactly
    its kids as edges, and every edge leads to the kid's subtree. *)
Inductive repr (h : heap C) : tree → Prop :=
| repr_node a ks n :
    nodes h !! a = Some n →
    cok ks.*1 (m_Edges n) →
    Forall (λ k, edges h !! k.1.1 = Some (mkEdge k.1.2 (t_addr k.2)) ∧ repr h k.2) ks →
    repr h (TNode a ks).

Lemma repr_inv h a ks :
  repr h (TNode a ks) →
  ∃ n, nodes h !! a = Some n ∧ cok ks.*1 (m_Edges n)
       ∧ Forall (λ k, edges h !! k.1.1 = Some (mkEdge k.1.2 (t_addr k.2)) ∧ repr h k.2) ks.
Proof. inversion 1; subst. eauto. Qed.

Lemma repr_labelled h ks :
  Forall (λ k, edges h !! k.1.1 = Some (mkEdge k.1.2 (t_addr k.2)) ∧ repr h k.2) ks →
  labelled (edges h) ks.*1.
Proof.
  rewrite Forall_forall. intros Hall p l ([[p' l'] c] & [= -> ->] & Hin)%list_elem_of_fmap.
  destruct (Hall _ Hin) as [He _]. eauto.
Qed.

(** A tree is unaffected by changes outside its addresses. *)
Lemma repr_frame h h' t :
  repr h t →
  (∀ a, a ∈ t_nodes t → nodes h' !! a = nodes h !! a) →
  (∀ p, p ∈ t_edges t → edges h' !! p = edges h !! p) →
  repr h' t.
Proof.
  induction t as [a ks IH] using tree_ind'. intros (n & Hn & Hc & Hall)%repr_inv Hfn Hfe.
  apply (repr_node h' a ks n); [|done|].
  - rewrite Hfn; [done|]. simpl. left.
  - rewrite Forall_forall in IH, Hall. apply Forall_forall. intros [[p l] c] Hin.
    destruct (Hall _ Hin) as [He Hr]. simpl in *. split.
    + rewrite Hfe; [done|]. apply elem_of_flat_map. exists (p, l, c).
      split; [done|]. simpl. left.
    + apply (IH _ Hin); [done|..].
      * intros a' Ha'. apply Hfn. simpl. right. apply elem_of_flat_map.
        by exists (p, l, c).
      * intros p' Hp'. apply Hfe. apply elem_of_flat_map.
        exists (p, l, c). split; [done|]. simpl. by right.
Qed.

Lemma repr_leaf (h : heap C) a :
  nodes h !! a = Some (mkNode Edges_new) → repr h (TNode a []).
Proof. intros Hn. apply (repr_node h a [] _ Hn); [apply cok_new|constructor]. Qed.
End Repr.

Lemma NoDup_flat_map_kid {A B} (f : A → list B) (ks : list A) k :
  NoDup (flat_map f ks) → k ∈ ks → NoDup (f k).
Proof.
  induction ks as [|k' ks IH]; simpl; [by intros _ ?%elem_of_nil|].
  intros (? & _ & ?)%NoDup_app [->|?]%elem_of_cons; auto.
Qed.

Lemma NoDup_flat_map_disjoint {A B} (f : A → list B) (ks : list A) i j k k' x :
  NoDup (flat_map f ks) → i ≠ j → ks !! i = Some k → ks !! j = Some k' →
  x ∈ f k → x ∉ f k'.
Proof.
  revert i j. induction ks as [|k0 ks IH]; intros i j; simpl; [done|].
  intros (Hnd0 & Hdis & Hnd)%NoDup_app Hne Hi Hj Hx Hx'.
  destruct i as [|i], j as [|j]; [done|..]; simplify_eq/=.
  - destruct (Hdis x Hx). apply elem_of_flat_map. exists k'. split; [by eapply list_elem_of_lookup_2|done].
  - destruct (Hdis x Hx'). apply elem_of_flat_map. exists k. split; [by eapply list_elem_of_lookup_2|done].
  - apply (IH i j); [done|lia|done..].
Qed.

(** What the distinctness of the addresses of a tree says about a kid. *)
Lemma t_wf_kid nn ne a ks i p l c :
  t_wf nn ne (TNode a ks) → ks !! i = Some (p, l, c) →
  t_wf nn ne c ∧ a ∉ t_nodes c ∧ p ∉ t_edges c ∧ a < nn ∧ p < ne
  ∧ ∀ j k, j ≠ i → ks !! j = Some k →
      k.1.1 ≠ p ∧ k.1.1 ∉ t_edges c
      ∧ (∀ x, x ∈ t_nodes k.2 → x ∉ t_nodes c)
      ∧ (∀ x, x ∈ t_edges k.2 → x ∉ t_edges c ∧ x ≠ p).
Proof.
  intros (Hn & He & Hbn & Hbe) Hi. simpl in *.
  pose proof (list_elem_of_lookup_2 _ _ _ Hi) as Hin.
  apply NoDup_cons in Hn as [Ha Hn]. apply Forall_cons in Hbn as [Han Hbn].
  rewrite Forall_forall in Hbn, Hbe.
  pose proof (NoDup_flat_map_kid _ _ _ He Hin) as Hek. simpl in Hek.
  apply NoDup_cons in Hek as [Hp Hek].
  split_and!.
  - split_and!; [apply (NoDup_flat_map_kid (λ k, t_nodes k.2) ks (p, l, c) Hn Hin)|done|..].
    + apply Forall_forall. intros x Hx. apply Hbn, elem_of_flat_map. by exists (p, l, c).
    + apply Forall_forall. intros x Hx. apply Hbe, elem_of_flat_map. exists (p, l, c).
      split; [done|]. simpl. by right.
  - intros Hx. apply Ha, elem_of_flat_map. by exists (p, l, c).
  - done.
  - done.
  - apply Hbe, elem_of_flat_map. exists (p, l, c). split; [done|]. simpl. left.
  - intros j [[p' l'] c'] Hne Hj. simpl. split_and!.
    + intros ->. eapply (NoDup_flat_map_disjoint _ ks j i _ _ p He Hne Hj Hi); simpl; left.
    + intros Hx. eapply (NoDup_flat_map_disjoint _ ks j i _ _ p' He Hne Hj Hi); simpl; [left|by right].
    + intros x Hx Hx'. by eapply (NoDup_flat_map_disjoint (λ k, t_nodes k.2) ks j i _ _ x Hn Hne Hj Hi).
    + intros x Hx. split.
      * intros Hx'. eapply (NoDup_flat_map_disjoint _ ks j i _ _ x He Hne Hj Hi); simpl; by right.
      * intros ->. eapply (NoDup_flat_map_disjoint _ ks j i _ _ p He Hne Hj Hi); simpl; [by right|left].
Qed.

(** ** The walk in the store follows the insertion in the tree *)

Section Simulation.
Context {C : Type} `{!Edges C} `{!EdgesOk C}.

Lemma IsUnique_loop_nil fuel cur u (h : heap C) :
  IsUnique_loop fuel cur [] u h = (Ok u, h).
Proof. by destruct fuel. Qed.

Lemma IsUnique_loop_step fuel a r u (h : heap C) next r' u' h1 :
  r ≠ [] → Node_Eat a r u h = (Ok (next, r', u'), h1) →
  IsUnique_loop (S fuel) (Some a) r u h = IsUnique_loop fuel next r' u' h1.
Proof.
  destruct r; [done|]. intros _ Heq. cbn [IsUnique_loop]. unfold mbind, M_bind.
  by rewrite Heq.
Qed.

Lemma shortened_insert (les : list (ptr * str)) i p l l' :
  les !! i = Some (p, l) → l' `prefix_of` l → head l' = head l →
  shortened les (<[i := (p, l')]> les).
Proof.
  intros Hi ??. unfold shortened. apply Forall2_same_length_lookup_2.
  { by rewrite length_insert. }
  intros j x y Hx [(-> & <- & _)|[? Hy]]%list_lookup_insert_Some; simplify_eq/=; [done|].
  split_and!; done.
Qed.

Lemma IsUnique_loop_sim fuel : ∀ (h : heap C) t r u n,
  repr h t → t_wf (length (nodes h)) (length (edges h)) t →
  t_digits t → forallb isdigit r = true →
  (r ≠ [] → kids_ok n (t_kids t)) → length r = n → n ≤ fuel →
  let res := t_insert fuel (length (nodes h)) (length (edges h)) t r in
  ∃ h', IsUnique_loop fuel (Some (t_addr t)) r u h = (Ok (i_unique res || u), h')
        ∧ repr h' (i_tree res)
        ∧ length (nodes h') = length (nodes h) + i_nodes res
        ∧ length (edges h') = length (edges h) + i_edges res
        ∧ (∀ a, a < length (nodes h) → a ∉ t_nodes t → nodes h' !! a = nodes h !! a)
        ∧ (∀ p, p < length (edges h) → p ∉ t_edges t → edges h' !! p = edges h !! p).
Proof.
  induction fuel as [|fuel IH]; intros h [a ks] r u n Hrep Hwf Hdig Hr Hk Hlen Hfuel; cbv zeta.
  { assert (n = 0) by lia. subst n. destruct r; [|done]. exists h. simpl.
    split_and!; [done..|lia|lia|done|done]. }
  destruct r as [|x r0].
  { exists h. simpl. split_and!; [done..|lia|lia|done|done]. }
  cbn [t_insert t_kids t_addr]. set (r := x :: r0) in *.
  assert (r ≠ []) as Hrne by done. clearbody r. clear x r0.
  destruct (Hk Hrne) as [Hsib Hall]. simpl in Hsib, Hall.
  apply repr_inv in Hrep as (n0 & Hn & Hc & Hkids).
  pose proof (repr_labelled _ _ Hkids) as Hlab.
  assert (accepts r = true) as Hacc by (by apply accepts_digits).
  pose proof (find_edge_kids ks r) as Hfe.
  inversion Hdig as [a' ks' Hdall]; subst a' ks'.
  set (nn := length (nodes h)) in *. set (ne := length (edges h)) in *.
  destruct (find_kid ks r) as [i|] eqn:Hfk.
  - destruct (find_kid_Some _ _ _ Hfk) as (p & l & c & Hi & Hpos). rewrite Hi in Hfe |- *.
    pose proof (list_elem_of_lookup_2 _ _ _ Hi) as Hin.
    rewrite Forall_forall in Hkids, Hall, Hdall.
    destruct (Hkids _ Hin) as [He Hrc]. destruct (Hall _ Hin) as (Hl & Hln & Hfc).
    destruct (Hdall _ Hin) as [Hdl Hdc]. simpl in He, Hrc, Hl, Hln, Hfc, Hdl, Hdc.
    destruct (t_wf_kid nn ne a ks i p l c Hwf Hi) as (Hwfc & Hac & Hpc & Han & Hpn & Hoth).
    pose proof (common_chars_le_l l r). pose proof (common_chars_le_r l r).
    destruct (Nat.eqb_spec (common_chars l r) (length l)) as [Hfull|Hpart].
    + rewrite Hfull in Hfe |- *.
      rewrite (IsUnique_loop_step fuel a r u h (Some (t_addr c)) (drop (length l) r) u h)
        by (done || by eapply Node_Eat_follow).
      destruct (IH h c (drop (length l) r) u (n - length l)) as (h' & Hloop & Hrep' & Hln' & Hle' & Hfn & Hfe');
        [done|done|done|by apply forallb_drop| |by rewrite length_drop; lia|destruct l; [done|simpl in *; lia]|].
      { intros Hd. clear -Hd Hfc Hlen H0. destruct c as [ac kc]. simpl.
        apply t_full_inv in Hfc as [[Hz _]|(_ & _ & ?)]; [|done].
        destruct Hd. apply length_zero_iff_nil. rewrite length_drop. lia. }
      fold nn ne in Hloop, Hrep', Hln', Hle', Hfn, Hfe'.
      set (res := t_insert fuel nn ne c (drop (length l) r)) in *.
      assert (t_addr (i_tree res) = t_addr c) as Haddr.
      { apply (t_insert_spec fuel nn ne c (drop (length l) r) (n - length l) Hfc).
        - rewrite length_drop. lia.
        - destruct l; [done|simpl in *; lia]. }
      exists h'. cbn [i_tree i_unique i_nodes i_edges]. split_and!; [done| |done|done|..].
      * apply (repr_node h' a _ n0).
        -- by rewrite Hfn.
        -- rewrite list_fmap_insert. simpl. rewrite list_insert_id; [done|].
           by rewrite list_lookup_fmap, Hi.
        -- apply Forall_lookup. intros j k [(-> & <- & _)|[Hne Hj]]%list_lookup_insert_Some; simpl.
           ++ split; [|done]. rewrite Hfe' by done. by rewrite He, Haddr.
           ++ apply not_eq_sym in Hne.
              destruct (Hoth j k Hne Hj) as (Hkp & Hkc & Hkn & Hke).
              pose proof (list_elem_of_lookup_2 _ _ _ Hj) as Hjin.
              destruct (Hkids _ Hjin) as [Hek Hrk].
              assert (k.1.1 < ne) as Hkb.
              { by eapply lookup_lt_Some. }
              split; [by rewrite Hfe'|].
              destruct (t_wf_kid nn ne a ks j k.1.1 k.1.2 k.2 Hwf) as ((_ & _ & Hbn & Hbe) & _);
                [by destruct k as [[??]?]|].
              rewrite Forall_forall in Hbn, Hbe.
              apply (repr_frame h); [done|..].
              ** intros a' Ha'. apply Hfn; [by apply Hbn|by apply Hkn].
              ** intros p' Hp'. apply Hfe'; [by apply Hbe|by apply Hke].
      * intros a' ? Ha'. apply Hfn; [done|]. intros Hx. apply Ha'. simpl. right.
        apply elem_of_flat_map. by exists (p, l, c).
      * intros p' ? Hp'. apply Hfe'; [done|]. intros Hx. apply Hp'. simpl.
        apply elem_of_flat_map. exists (p, l, c). split; [done|]. simpl. by right.
    + set (k := common_chars l r) in *.
      assert (k < length l) as Hkl by lia.
      assert (accepts (drop k l) && accepts (drop k r) = true) as Hacc2.
      { apply andb_true_intro. split; apply accepts_digits; try (by apply forallb_drop).
        - intros Hnil%(f_equal length). rewrite length_drop in Hnil. simpl in Hnil. lia.
        - intros Hnil%(f_equal length). rewrite length_drop in Hnil. simpl in Hnil. lia. }
      pose proof (Node_Eat_split h a n0 ks.*1 Hn Hc Hsib Hlab r u k p l (t_addr c)
                    Hrne Hacc Hfe He Hkl) as Hstep.
      rewrite Hacc2 in Hstep. destruct Hstep as (c2 & Hc2 & Hstep). fold nn ne in Hc2, Hstep.
      rewrite (IsUnique_loop_step fuel a r u h None [] true _ Hrne Hstep), IsUnique_loop_nil.
      eexists. split; [done|]. cbn [i_tree i_unique i_nodes i_edges nodes edges].
      assert (∀ t0, repr h t0 → Forall (λ a, a < nn) (t_nodes t0) →
                Forall (λ q, q < ne) (t_edges t0) → p ∉ t_edges t0 →
                repr (mkHeap (nodes h ++ [mkNode Edges_new; mkNode c2])
                        (split_edges h p l r k (t_addr c) (S nn))) t0) as Hframe.
      { intros t0 Ht0 Hbn Hbe Hpt. rewrite Forall_forall in Hbn, Hbe.
        apply (repr_frame h); [done|..]; simpl.
        - intros a' Ha'. apply lookup_app_l. by apply Hbn.
        - intros p' Hp'. apply split_edges_old; [by intros ->|by apply Hbe]. }
      split_and!.
      * apply (repr_node _ a _ n0); simpl.
        -- by apply lookup_app_l_Some.
        -- rewrite list_fmap_insert. simpl. eapply cok_shorten; [done|].
           apply (shortened_insert _ i p l); [by rewrite list_lookup_fmap, Hi|apply prefix_take|].
           apply take_head. lia.
        -- apply Forall_lookup. intros j k0 [(-> & <- & _)|[Hne Hj]]%list_lookup_insert_Some; simpl.
           ++ split; [by apply split_edges_this|].
              apply (repr_node _ (S nn) _ (mkNode c2)); simpl.
              ** rewrite lookup_app_r by (fold nn; lia). by replace (S nn - length (nodes h)) with 1 by (fold nn; lia).
              ** done.
              ** apply Forall_cons. split; [|apply Forall_cons; split; [|constructor]]; simpl.
                 --- split; [by apply split_edges_first|]. destruct Hwfc as (_ & _ & ? & ?). by apply Hframe.
                 --- split; [by apply split_edges_second|]. apply repr_leaf. simpl.
                     by rewrite lookup_app_r, Nat.sub_diag by done.
           ++ apply not_eq_sym in Hne. destruct (Hoth j k0 Hne Hj) as (Hkp & Hkc & Hkn & Hke).
              pose proof (list_elem_of_lookup_2 _ _ _ Hj) as Hjin.
              destruct (Hkids _ Hjin) as [Hek Hrk].
              destruct (t_wf_kid nn ne a ks j k0.1.1 k0.1.2 k0.2 Hwf) as ((_ & _ & Hbn & Hbe) & _ & _ & _ & Hkb & _);
                [by destruct k0 as [[??]?]|].
              split; [by rewrite split_edges_old|]. apply Hframe; [done..|].
              intros Hx. by destruct (Hke _ Hx).
      * rewrite length_app. simpl. fold nn. lia.
      * rewrite split_edges_length. fold ne. lia.
      * intros a' ? _. by apply lookup_app_l.
      * intros p' ? Hp'. apply split_edges_old; [|done]. intros ->. apply Hp'. simpl.
        apply elem_of_flat_map. exists (p, l, c). split; [done|]. simpl. left.
  - destruct (Node_Eat_new h a n0 ks.*1 Hn Hc Hsib Hlab r u Hrne Hacc Hfe) as (c' & Hc' & _ & Hstep).
    fold nn ne in Hc', Hstep.
    rewrite (IsUnique_loop_step fuel a r u h None [] true _ Hrne Hstep), IsUnique_loop_nil.
    eexists. split; [done|]. cbn [i_tree i_unique i_nodes i_edges nodes edges].
    assert (a < nn) as Han by (by eapply lookup_lt_Some).
    destruct Hwf as (Hnd & Hed & Hbn & Hbe). simpl in Hnd, Hbn.
    apply NoDup_cons in Hnd as [Hak Hnd]. apply Forall_cons in Hbn as [_ Hbn].
    rewrite Forall_forall in Hbn, Hbe. rewrite Forall_forall in Hkids.
    split_and!.
    * apply (repr_node _ a _ (mkNode c')); simpl.
      -- apply list_lookup_insert_eq. rewrite length_app. simpl. lia.
      -- by rewrite fmap_app.
      -- apply Forall_app. split; [|apply Forall_cons; split; [|constructor]]; simpl.
         ++ apply Forall_forall. intros k0 Hk0. destruct (Hkids _ Hk0) as [Hek Hrk]. split.
            ** by apply lookup_app_l_Some.
            ** apply (repr_frame h); [done|..]; simpl.
               --- intros a' Ha'. assert (a' ∈ flat_map (λ k, t_nodes k.2) ks) as Hin'.
                   { apply elem_of_flat_map. by exists k0. }
                   rewrite list_lookup_insert_ne by (by intros ->).
                   apply lookup_app_l. by apply Hbn.
               --- intros p' Hp'. apply lookup_app_l. apply Hbe. simpl.
                   apply elem_of_flat_map. exists k0. split; [done|]. simpl. by right.
         ++ split; [by rewrite lookup_app_r, Nat.sub_diag by done|].
            apply repr_leaf. simpl. rewrite list_lookup_insert_ne by lia.
            by rewrite lookup_app_r, Nat.sub_diag by done.
    * rewrite length_insert, length_app. simpl. fold nn. lia.
    * rewrite length_app. simpl. fold ne. lia.
    * intros a' ? Ha'. rewrite list_lookup_insert_ne.
      -- by apply lookup_app_l.
      -- intros ->. apply Ha'. simpl. left.
    * intros p' ? _. by apply lookup_app_l.
Qed.
End Simulation.

(** ** The engine against the set of values seen *)

(** The values of one data set: [n] digits each. *)
Definition digit_value (n : nat) (v : str) : bool :=
  (length v =? n) && forallb isdigit v.

Lemma digit_value_spec n v :
  digit_value n v = true ↔ length v = n ∧ forallb isdigit v = true.
Proof.
  unfold digit_value. rewrite andb_true_iff. by rewrite Nat.eqb_eq.
Qed.

(** An insertion at the root, which may still be without edges. *)
Lemma t_insert_root fuel nn ne t r n :
  0 < n → t_kids t = [] ∨ t_full n t → length r = n → n ≤ fuel →
  let res := t_insert fuel nn ne t r in
  t_full n (i_tree res) ∧ t_addr (i_tree res) = t_addr t
  ∧ (i_unique res = true ↔ ¬ t_mem t r)
  ∧ (∀ w, length w = n → t_mem (i_tree res) w ↔ t_mem t w ∨ w = r).
Proof.
  intros Hn [Hempty|Hfull] Hlen Hfuel.
  - destruct t as [a ks]. simpl in Hempty. subst ks.
    destruct fuel as [|fuel]; [lia|]. destruct r as [|x r0]; [simpl in Hlen; lia|].
    cbn [t_insert t_kids t_addr find_kid i_tree i_unique]. simpl app.
    set (r := x :: r0) in *. assert (r ≠ []) as Hr by done. clearbody r.
    split_and!.
    + constructor; [done|apply NoDup_singleton|].
      apply Forall_cons. split; [|constructor]. simpl. split_and!; [done|lia|].
      rewrite Hlen, Nat.sub_diag. constructor.
    + done.
    + split; [intros _|done]. by rewrite t_mem_leaf_inv.
    + intros w Hw. rewrite (t_mem_at a [(ne, r, TNode nn [])] 0 (ne, r, TNode nn [])) by done.
      simpl. setoid_rewrite t_mem_leaf_inv. split.
      * intros [(w' & Hw1 & Hw2)|(j & k & w' & ? & Hj & _)].
        -- right. subst w w'. by rewrite app_nil_r.
        -- destruct j; [done|]. by destruct j.
      * intros [Hw1|Hw1]; subst w; [simpl in Hw; lia|]. left. exists []. by rewrite app_nil_r.
  - destruct (t_insert_spec fuel nn ne t r n Hfull Hlen Hfuel) as (? & ? & ? & ?).
    by split_and!.
Qed.

(** The tree after a whole data set of values of [n] digits. *)
Fixpoint t_run (n nn ne : nat) (t : tree) (vs : list str) : tree :=
  match vs with
  | [] => t
  | v :: vs' =>
      let res := t_insert n nn ne t v in
      t_run n (nn + i_nodes res) (ne + i_edges res) (i_tree res) vs'
  end.

Section Engine.
Context {C : Type} `{!Edges C} `{!EdgesOk C}.

(** The engine [s] holds the tree [t], whose values of [n] digits are
    the members of [m]. *)
Definition holds (n : nat) (s : CompactRadixTreeAlgorithm C) (t : tree)
    (m : gset str) : Prop :=
  repr (store s) t ∧ t_addr t = m_Root s
  ∧ t_wf (length (nodes (store s))) (length (edges (store s))) t
  ∧ t_digits t ∧ (t_kids t = [] ∨ t_full n t)
  ∧ ∀ w, length w = n → t_mem t w ↔ w ∈ m.

Lemma holds_new n : 0 < n → holds n RadixTree.new (TNode 0 []) ∅.
Proof.
  intros Hn. split_and!; [by apply repr_leaf|done| |by constructor|by left|].
  - split_and!; simpl; [apply NoDup_singleton|constructor|by repeat constructor|constructor].
  - intros w Hw. rewrite t_mem_leaf_inv. split; [|set_solver].
    intros ->. simpl in Hw. lia.
Qed.

Lemma holds_Reset n s :
  0 < n →
  holds n (RadixTree.Reset s).2 (TNode (length (nodes (store s))) []) ∅.
Proof.
  intros Hn. unfold RadixTree.Reset, Node_new, alloc_node. simpl.
  split_and!; simpl; [|done| |by constructor|by left|].
  - apply repr_leaf. simpl. by rewrite lookup_app_r, Nat.sub_diag by done.
  - split_and!; simpl; [apply NoDup_singleton|constructor| |constructor].
    repeat constructor. rewrite length_app. simpl. lia.
  - intros w Hw. rewrite t_mem_leaf_inv. split; [|set_solver].
    intros ->. simpl in Hw. lia.
Qed.

(** One call: the engine answers as the set does, and holds the value
    afterwards. *)
Lemma IsUnique_holds n s t m v :
  0 < n → holds n s t m → digit_value n v = true →
  let res := t_insert n (length (nodes (store s))) (length (edges (store s))) t v in
  ∃ s', RadixTree.IsUnique v s = (Ok (bool_decide (v ∉ m)), s')
        ∧ holds n s' (i_tree res) ({[v]} ∪ m)
        ∧ length (nodes (store s')) = length (nodes (store s)) + i_nodes res
        ∧ length (edges (store s')) = length (edges (store s)) + i_edges res.
Proof.
  intros Hn (Hrep & Haddr & Hwf & Hdig & Hroot & Hmem) [Hlen Hd]%digit_value_spec. cbv zeta.
  destruct (t_insert_root n (length (nodes (store s))) (length (edges (store s))) t v n)
    as (Hfull & Ha & Hu & Hm); [done..|].
  destruct (IsUnique_loop_sim n (store s) t v false n)
    as (h' & Hloop & Hrep' & Hln & Hle & _ & _); [done..| |done|done|].
  { intros _. destruct Hroot as [->|Hf]; [by split; [constructor|constructor]|].
    destruct t as [a ks]. by apply t_full_inv in Hf as [[-> _]|(_ & _ & ?)]; [lia|]. }
  exists (mkTree (m_Root s) h'). split_and!; [| |done|done].
  - unfold RadixTree.IsUnique. rewrite Hlen, <- Haddr, Hloop. rewrite orb_false_r.
    do 2 f_equal. destruct (i_unique _) eqn:Eu.
    + symmetry. apply bool_decide_eq_true. rewrite <- Hmem by done. by apply Hu.
    + symmetry. apply bool_decide_eq_false. rewrite <- Hmem by done.
      intros Hx. apply Hu in Hx. congruence.
  - split_and!; simpl; [done|congruence| |by apply t_insert_digits|by right|].
    + rewrite Hln, Hle. by apply t_insert_wf.
    + intros w Hw. rewrite Hm by done. rewrite Hmem by done. set_solver.
Qed.

(** A whole data set: call by call the engine answers as the set. *)
Lemma run_calls_holds n vs : ∀ s t m,
  0 < n → holds n s t m → forallb (digit_value n) vs = true →
  (run_calls vs s).1 = (run_calls vs m).1
  ∧ holds n (run_calls vs s).2
      (t_run n (length (nodes (store s))) (length (edges (store s))) t vs)
      (run_calls vs m).2.
Proof.
  induction vs as [|v vs IH]; intros s t m Hn Hh Hvs; simpl.
  { done. }
  simpl in Hvs. apply andb_prop in Hvs as [Hv Hvs].
  destruct (IsUnique_holds n s t m v Hn Hh Hv) as (s' & Hcall & Hh' & Hln & Hle).
  change (IsUnique v s) with (RadixTree.IsUnique v s). rewrite Hcall.
  change (IsUnique v m) with (SetAlgorithm.IsUnique v m). unfold SetAlgorithm.IsUnique.
  destruct (IH s' _ _ Hn Hh' Hvs) as [Hrs Ht']. rewrite Hln, Hle in Ht'.
  destruct (run_calls vs s') as [rs s''] eqn:E1.
  destruct (run_calls vs ({[v]} ∪ m)) as [rs' m''] eqn:E2. simpl in *.
  by rewrite Hrs.
Qed.
End Engine.

(** *** The set based detector *)

Lemma count_true_cons r rs :
  count_true (r :: rs) = (if decide (r = Ok true) then 1 else 0) + count_true rs.
Proof. unfold count_true. rewrite filter_cons. by destruct (decide _). Qed.

Lemma Set_run_calls (vs : list str) (m : gset str) :
  (run_calls vs m).2 = list_to_set vs ∪ m
  ∧ count_true (run_calls vs m).1 + size m = size (list_to_set vs ∪ m)
  ∧ Forall (λ r, ∃ b, r = Ok b) (run_calls vs m).1
  ∧ length (run_calls vs m).1 = length vs.
Proof.
  revert m. induction vs as [|v vs IH]; intros m; simpl.
  { split_and!; [set_solver|by rewrite union_empty_l_L|constructor|done]. }
  change (IsUnique v m) with (SetAlgorithm.IsUnique v m). unfold SetAlgorithm.IsUnique.
  destruct (IH ({[v]} ∪ m)) as (Hs & Hc & Hok & Hlen).
  destruct (run_calls vs ({[v]} ∪ m)) as [rs m'] eqn:E. simpl in *.
  split_and!.
  - rewrite Hs. set_solver.
  - replace ({[v]} ∪ list_to_set vs ∪ m) with (list_to_set vs ∪ ({[v]} ∪ m)) by set_solver.
    rewrite <- Hc, count_true_cons. case_bool_decide as Hv.
    + rewrite decide_True by done. rewrite size_union by set_solver.
      rewrite size_singleton. lia.
    + rewrite decide_False by done. replace ({[v]} ∪ m) with m by set_solver. done.
  - constructor; [by eexists|done].
  - by rewrite Hlen.
Qed.

(** ** What a call does to the store *)

Section Effect.
Context {C : Type} `{!Edges C}.

(** What a step has done to the store when it returns: nothing, or
    the split of an edge, or a new edge. *)
Definition grown (h h' : heap C) (dn de : nat) : Prop :=
  length (nodes h') = length (nodes h) + dn
  ∧ length (edges h') = length (edges h) + de.

Lemma Edge_Eat_effect (h : heap C) p k r u next r' u' h' :
  Edge_Eat p k r u h = (Ok (next, r', u'), h') →
  (h' = h ∧ u' = u ∧ is_Some next ∧ length r' < length r)
  ∨ (u' = true ∧ r' = [] ∧ next = None ∧ grown h h' 2 2).
Proof.
  unfold Edge_Eat. munfold. destruct (edges h !! p) as [e|] eqn:He; [|done]. munfold.
  destruct (Nat.eqb_spec k 0) as [|Hk]; [done|]. simpl.
  destruct (Nat.ltb_spec (length (m_Value e) `min` length r) k) as [|Hle]; [done|].
  destruct r as [|x r]; [done|].
  destruct (Nat.ltb_spec 0 k); [|lia].
  destruct (Nat.eqb_spec k (length (m_Value e))).
  { intros [= <- <- <- <-]. left. split_and!; [done|done|by eexists|].
    rewrite length_drop. simpl in *. lia. }
  set (es1 := (edges h ++ [_]) ++ [_]).
  assert (length es1 = length (edges h) + 2) as Hes1.
  { unfold es1. rewrite !length_app. simpl. lia. }
  destruct (es1 !! p) as [e1|] eqn:He1; [|done]. munfold.
  set (es2 := <[p := _]> es1).
  assert (length es2 = length (edges h) + 2) as Hes2.
  { unfold es2. by rewrite length_insert. }
  destruct (Add es2 (length (edges h)) Edges_new) as [c1| | |] eqn:Ha1; try done.
  destruct (Add es2 _ c1) as [c2| | |] eqn:Ha2; try done. munfold.
  destruct (es2 !! p) as [e2|] eqn:He2; [|done].
  intros [= <- <- <- <-]. right. split_and!; [done..|]. split; simpl.
  - rewrite !length_app. simpl. lia.
  - by rewrite length_insert.
Qed.

Lemma Node_Eat_effect (h : heap C) np r u next r' u' h' :
  Node_Eat np r u h = (Ok (next, r', u'), h') →
  (h' = h ∧ u' = u ∧ length r' < length r)
  ∨ (u' = true ∧ r' = [] ∧ (grown h h' 1 1 ∨ grown h h' 2 2)).
Proof.
  unfold Node_Eat. destruct r as [|x r]; [done|]. munfold.
  destruct (nodes h !! np) as [n|] eqn:Hn; [|done]. munfold.
  destruct (Find (edges h) (x :: r) (m_Edges n)) as [[k o]| | |] eqn:Hf; try done.
  cbn [fst snd].
  assert (np < length (nodes h)) as Hnp by (by eapply lookup_lt_Some).
  assert (
    (let '(o1, h2) := Edge_new (x :: r) None h in
     match o1 with
     | Ok newEdge =>
         (n0 ← get_node np; c ← Edges_Add newEdge (m_Edges n0);
          put_node np (mkNode c);; mret (@None ptr, @nil ascii, true)) h2
     | Raise msg => (Raise msg, h2)
     | Undefined => (Undefined, h2)
     | OutOfFuel => (OutOfFuel, h2)
     end) = (Ok (next, r', u'), h') →
    u' = true ∧ r' = [] ∧ grown h h' 1 1) as Hnew.
  { munfold. rewrite (lookup_app_l (nodes h)) by done.
    rewrite Hn. munfold.
    destruct (Add _ _ _) as [c| | |]; try done. munfold.
    rewrite (lookup_app_l (nodes h)) by done. rewrite Hn.
    intros [= <- <- <- <-]. split_and!; [done..|]. split; simpl.
    - rewrite length_insert, length_app. simpl. lia.
    - rewrite length_app. simpl. lia. }
  destruct (Nat.ltb_spec 0 k).
  - destruct o as [edge|]; [|done].
    destruct (Edge_Eat edge k (x :: r) u h) as [[[[next1 r1] u1]| | |] h1] eqn:Hee; try done.
    apply Edge_Eat_effect in Hee
      as [(-> & -> & [nx ->] & Hlen)|(-> & -> & -> & Hg)].
    + intros [= <- <- <- <-]. by left.
    + intros [= <- <- <- <-]. right. split_and!; [done..|by right].
  - intros Hrest. right.
    destruct (Hnew Hrest) as (? & ? & ?). split_and!; [done..|by left].
Qed.

Lemma IsUnique_loop_effect fuel : ∀ cur r u (h : heap C) b h',
  IsUnique_loop fuel cur r u h = (Ok b, h') →
  (h' = h ∧ b = u) ∨ (b = true ∧ (grown h h' 1 1 ∨ grown h h' 2 2)).
Proof.
  induction fuel as [|fuel IH]; intros cur r u h b h'.
  { destruct r; [|done]. intros [= <- <-]. by left. }
  destruct r as [|x r]; [intros [= <- <-]; by left|].
  destruct cur as [node|]; [|done].
  cbn [IsUnique_loop]. munfold.
  destruct (Node_Eat node (x :: r) u h) as [[[[next r1] u1]| | |] h1] eqn:Hstep; try done.
  apply Node_Eat_effect in Hstep as [(-> & -> & _)|(-> & -> & Hg)].
  - apply IH.
  - rewrite IsUnique_loop_nil. intros [= <- <-]. by right.
Qed.
End Effect.

(** ** [OrderedEdges]: where [Find] is defined

    [OrderedEdges::Find] and [Find_guarded] differ on one path only:
    no key lies below the remainder and the first edge shares no
    character with it.  There [Find] decrements [begin()], and
    [Find_guarded] reports that there is no edge. *)

Lemma Ordered_Find_guarded es r (c : OrderedEdges.Container) x :
  OrderedEdges.Find_guarded es r c = Ok x →
  OrderedEdges.Find es r c
  = if negb (bool_decide (c = [])) && (x.1 =? 0) && (OrderedEdges.upper_bound r c =? 0)
    then Undefined else Ok x.
Proof.
  unfold OrderedEdges.Find, OrderedEdges.Find_guarded.
  destruct c as [|kp c]; [by intros [= <-]|].
  rewrite bool_decide_eq_false_2 by done. cbn [negb andb].
  set (c0 := kp :: c). set (iter := OrderedEdges.upper_bound r c0).
  destruct (match c0 !! iter with
            | Some (_, edge) => OrderedEdges.try_edge es r edge (0, None)
            | None => Ok (0, None)
            end) as [ret| | |]; obind_simpl; try done.
  destruct (ret.1 =? 0) eqn:E0; destruct (iter =? 0) eqn:Ei; cbn [negb].
  - intros [= <-]. by rewrite E0.
  - intros ->. by rewrite andb_false_r.
  - intros [= <-]. by rewrite E0.
  - intros [= <-]. by rewrite E0.
Qed.

Lemma Ordered_Find_guarded_other es r (c : OrderedEdges.Container) :
  (∀ x, OrderedEdges.Find_guarded es r c ≠ Ok x) →
  OrderedEdges.Find es r c = OrderedEdges.Find_guarded es r c.
Proof.
  unfold OrderedEdges.Find, OrderedEdges.Find_guarded.
  destruct c as [|kp c]; [done|].
  set (c0 := kp :: c). set (iter := OrderedEdges.upper_bound r c0).
  destruct (match c0 !! iter with
            | Some (_, edge) => OrderedEdges.try_edge es r edge (0, None)
            | None => Ok (0, None)
            end) as [ret| | |]; obind_simpl; try done.
  destruct (ret.1 =? 0) eqn:E0; destruct (iter =? 0) eqn:Ei; cbn [negb]; try done.
  intros H. by destruct (H ret).
Qed.

Lemma Ordered_Find_or_stop es r (c : OrderedEdges.Container) :
  OrderedEdges.Find es r c = OrderedEdges.Find_guarded es r c
  ∨ (OrderedEdges.Find es r c = Undefined
     ∧ ∃ o, OrderedEdges.Find_guarded es r c = Ok (0, o)).
Proof.
  destruct (OrderedEdges.Find_guarded es r c) as [x| | |] eqn:HG.
  - rewrite (Ordered_Find_guarded es r c x HG).
    destruct (negb _ && (x.1 =? 0) && _) eqn:E; [right|by left].
    split; [done|]. apply andb_prop in E as [[_ E%Nat.eqb_eq]%andb_prop _].
    destruct x as [k o]. simpl in E. subst k. by exists o.
  - left. rewrite Ordered_Find_guarded_other; [done|]. by rewrite HG.
  - left. rewrite Ordered_Find_guarded_other; [done|]. by rewrite HG.
  - left. rewrite Ordered_Find_guarded_other; [done|]. by rewrite HG.
Qed.

(** A step that finds no edge makes one, when it returns. *)
Lemma Node_Eat_miss {C} `{!Edges C} (h : heap C) np n r u o next r' u' h' :
  nodes h !! np = Some n → Find (edges h) r (m_Edges n) = Ok (0, o) →
  Node_Eat np r u h = (Ok (next, r', u'), h') → u' = true ∧ r' = [].
Proof.
  intros Hn HF. unfold Node_Eat. destruct r as [|x r]; [done|]. munfold.
  rewrite Hn. munfold. rewrite HF. cbn [fst snd]. change (0 <? 0) with false. cbv iota.
  assert (np < length (nodes h)) as Hnp by (by eapply lookup_lt_Some).
  munfold. rewrite (lookup_app_l (nodes h)) by done. rewrite Hn. munfold.
  destruct (Add _ _ _) as [c| | |]; try done. munfold.
  rewrite (lookup_app_l (nodes h)) by done. rewrite Hn.
  by intros [= <- <- <- <-].
Qed.

(** The engine on [OrderedEdges], and the one with [Find_guarded]. *)
Abbreviation OrderedTree := (CompactRadixTreeAlgorithm OrderedEdges.Container).
Abbreviation Node_Eat_guarded := (@Node_Eat _ OrderedEdges_guarded).
Abbreviation IsUnique_loop_guarded := (@IsUnique_loop _ OrderedEdges_guarded).
Abbreviation IsUnique_guarded := (@RadixTree.IsUnique _ OrderedEdges_guarded).
Abbreviation run_calls_guarded :=
  (@run_calls OrderedTree (@CompactRadixTree_Algorithm _ OrderedEdges_guarded)).

Lemma Ordered_Node_Eat (h : heap OrderedEdges.Container) np r u :
  Node_Eat np r u h = Node_Eat_guarded np r u h
  ∨ (Node_Eat np r u h = (Undefined, h)
     ∧ ∀ next r' u' h', Node_Eat_guarded np r u h = (Ok (next, r', u'), h') →
                        u' = true ∧ r' = []).
Proof.
  destruct (nodes h !! np) as [n|] eqn:Hn.
  2:{ left. unfold Node_Eat. destruct r; [done|]. munfold. by rewrite Hn. }
  destruct r as [|x r]; [by left|].
  destruct (Ordered_Find_or_stop (edges h) (x :: r) (m_Edges n)) as [HF|[HS [o HG]]].
  - left. unfold Node_Eat. munfold. rewrite Hn. munfold.
    change (@Find _ OrderedEdges_Edges) with OrderedEdges.Find.
    change (@Find _ OrderedEdges_guarded) with OrderedEdges.Find_guarded.
    by rewrite HF.
  - right. split.
    + unfold Node_Eat. munfold. rewrite Hn. munfold.
      change (@Find _ OrderedEdges_Edges) with OrderedEdges.Find. by rewrite HS.
    + intros next r' u' h'. by apply (Node_Eat_miss h np n (x :: r) u o).
Qed.

Lemma Ordered_loop fuel : ∀ cur r u (h : heap OrderedEdges.Container),
  IsUnique_loop fuel cur r u h = IsUnique_loop_guarded fuel cur r u h
  ∨ (IsUnique_loop fuel cur r u h = (Undefined, h)
     ∧ ∀ b h', IsUnique_loop_guarded fuel cur r u h = (Ok b, h') → b = true).
Proof.
  induction fuel as [|fuel IH]; intros cur r u h.
  { left. by destruct r. }
  destruct r as [|x r]; [by left|]. destruct cur as [node|]; [|by left].
  cbn [IsUnique_loop]. unfold mbind, M_bind.
  destruct (Ordered_Node_Eat h node (x :: r) u) as [->|[-> Hmiss]].
  - destruct (Node_Eat_guarded node (x :: r) u h) as [[[[next r'] u']| | |] h1] eqn:Hstep;
      [|by left..].
    destruct (IH next r' u' h1) as [->|[HS Hb]]; [by left|].
    apply Node_Eat_effect in Hstep as [(-> & -> & _)|(-> & -> & _)].
    + right. by split.
    + by rewrite IsUnique_loop_nil in HS.
  - right. split; [done|]. intros b h'.
    destruct (Node_Eat_guarded node (x :: r) u h) as [[[[next r'] u']| | |] h1] eqn:Hstep;
      try done.
    destruct (Hmiss _ _ _ _ eq_refl) as [-> ->]. rewrite IsUnique_loop_nil. congruence.
Qed.

Lemma Ordered_IsUnique (s : OrderedTree) v :
  IsUnique v s = IsUnique_guarded v s
  ∨ (IsUnique v s = (Undefined, s)
     ∧ ∀ b s', IsUnique_guarded v s = (Ok b, s') → b = true).
Proof.
  change (IsUnique v s) with (RadixTree.IsUnique v s). unfold RadixTree.IsUnique.
  destruct (Ordered_loop (length v) (Some (m_Root s)) v false (store s)) as [->|[-> Hb]].
  - by left.
  - right. split; [by destruct s|]. intros b s'.
    destruct (IsUnique_loop_guarded _ _ _ _ _) as [o h']. intros [= -> _]. by eapply Hb.
Qed.

Lemma Ordered_IsUnique_cases (s : OrderedTree) v b s' :
  IsUnique_guarded v s = (Ok b, s') →
  IsUnique v s = (Ok b, s') ∨ (b = true ∧ IsUnique v s = (Undefined, s)).
Proof.
  intros HG. destruct (Ordered_IsUnique s v) as [->|[-> Hb]]; [by left|].
  right. split; [by eapply Hb|done].
Qed.

(** On a root without edges [Find] is defined. *)
Lemma Ordered_IsUnique_first (s : OrderedTree) v s' :
  nodes (store s) !! m_Root s = Some (mkNode []) →
  IsUnique_guarded v s = (Ok true, s') → IsUnique v s = (Ok true, s').
Proof.
  intros Hroot HG.
  destruct (Ordered_IsUnique_cases _ _ _ _ HG) as [?|[_ HS]]; [done|]. exfalso.
  change (IsUnique v s) with (RadixTree.IsUnique v s) in HS.
  unfold RadixTree.IsUnique in HS.
  destruct v as [|x v]; [by destruct s|]. cbn [length IsUnique_loop] in HS.
  unfold mbind, M_bind in HS.
  assert (Node_Eat (m_Root s) (x :: v) false (store s)
          = Node_Eat_guarded (m_Root s) (x :: v) false (store s)) as HE.
  { unfold Node_Eat. munfold. by rewrite Hroot. }
  rewrite HE in HS.
  destruct (Node_Eat_guarded (m_Root s) (x :: v) false (store s))
    as [[[[next r'] u']| | |] h1] eqn:Hstep; try by destruct s.
  - destruct (@Node_Eat_miss _ OrderedEdges_guarded (store s) (m_Root s) (mkNode [])
                (x :: v) false None next r' u' h1 Hroot eq_refl Hstep) as [-> ->].
    rewrite IsUnique_loop_nil in HS. done.
  - unfold RadixTree.IsUnique in HG. cbn [length IsUnique_loop] in HG.
    unfold mbind, M_bind in HG. by rewrite Hstep in HG.
Qed.

Lemma Ordered_IsUnique_first_result (s : OrderedTree) v :
  nodes (store s) !! m_Root s = Some (mkNode []) →
  (IsUnique_guarded v s).1 = Ok true → (IsUnique v s).1 = Ok true.
Proof.
  intros Hroot HG. destruct (IsUnique_guarded v s) as [o s1] eqn:E.
  simpl in HG. subst o. by rewrite (Ordered_IsUnique_first s v s1 Hroot E).
Qed.

(** Calls that all return are calls of the guarded engine. *)
Lemma Ordered_run_calls vs : ∀ s : OrderedTree,
  Forall (λ r, ∃ b, r = Ok b) (run_calls vs s).1 →
  run_calls vs s = run_calls_guarded vs s.
Proof.
  induction vs as [|v vs IH]; intros s Hall; [done|]. cbn [run_calls] in *.
  change (@IsUnique _ (@CompactRadixTree_Algorithm _ OrderedEdges_guarded) v s)
    with (IsUnique_guarded v s).
  destruct (Ordered_IsUnique s v) as [HE|[HS _]].
  - rewrite HE in Hall |- *. destruct (IsUnique_guarded v s) as [o s1].
    specialize (IH s1). destruct (run_calls vs s1) as [rs s2].
    apply Forall_cons in Hall as [_ Hall]. by rewrite <- IH.
  - rewrite HS in Hall. destruct (run_calls vs s) as [rs s2].
    apply Forall_cons in Hall as [[b [=]] _].
Qed.

(** What the guarded engine keeps, the engine keeps. *)
Lemma Ordered_run_calls_inv (I : OrderedTree → Prop) (Q : str → Prop) vs :
  ∀ s : OrderedTree,
    (∀ s v, Q v → I s → I (IsUnique_guarded v s).2) → Forall Q vs → I s →
    I (run_calls vs s).2.
Proof.
  induction vs as [|v vs IH]; intros s Hstep HQ Hs; [done|]. cbn [run_calls].
  apply Forall_cons in HQ as [Hv HQ].
  assert (I (IsUnique v s).2) as Hs1.
  { destruct (Ordered_IsUnique s v) as [->|[-> _]]; [by apply Hstep|done]. }
  destruct (IsUnique v s) as [o s1]. specialize (IH s1 Hstep HQ Hs1).
  by destruct (run_calls vs s1).
Qed.

(** * The claims *)

(** A statement about the engine, made for each of the three edge
    collections in turn. *)
Definition each_strategy (P : ∀ C : Type, Edges C → Prop) : Prop :=
  P UnorderedEdges.Container UnorderedEdges_Edges
  ∧ P OrderedEdges.Container OrderedEdges_Edges
  ∧ P IndexedEdges.Container IndexedEdges_Edges.

Lemma each_strategy_intro (P : ∀ C : Type, Edges C → Prop) :
  (∀ C (E : Edges C), EdgesOk C → P C E) →
  P OrderedEdges.Container OrderedEdges_Edges → each_strategy P.
Proof. intros H HO. split_and!; [apply H; apply _|done|apply H; apply _]. Qed.

(** For a property that does not depend on how [Find] ends. *)
Lemma each_strategy_guarded (P : ∀ C : Type, Edges C → Prop) :
  (∀ C (E : Edges C), EdgesOk C → P C E) →
  (P OrderedEdges.Container OrderedEdges_guarded →
   P OrderedEdges.Container OrderedEdges_Edges) →
  each_strategy P.
Proof.
  intros H HO. apply each_strategy_intro; [done|].
  apply HO, (H _ OrderedEdges_guarded OrderedEdges_guarded_Ok).
Qed.

(** A property of the engine on the collection the program is built
    with, [IndexedEdges], and on [UnorderedEdges]. *)
Definition unordered_and_indexed (P : ∀ C : Type, Edges C → Prop) : Prop :=
  P UnorderedEdges.Container UnorderedEdges_Edges
  ∧ P IndexedEdges.Container IndexedEdges_Edges.

Lemma unordered_and_indexed_intro (P : ∀ C : Type, Edges C → Prop) :
  (∀ C (E : Edges C), EdgesOk C → P C E) → unordered_and_indexed P.
Proof. intros H. split; apply H; apply _. Qed.

Lemma run_calls_app {D} `{!IUniqueNumberAlgorithm D} (vs1 vs2 : list str) (d : D) :
  run_calls (vs1 ++ vs2) d
  = ((run_calls vs1 d).1 ++ (run_calls vs2 (run_calls vs1 d).2).1,
     (run_calls vs2 (run_calls vs1 d).2).2).
Proof.
  revert d. induction vs1 as [|v vs1 IH]; intros d; simpl.
  { by destruct (run_calls vs2 d). }
  destruct (IsUnique v d) as [r d']. rewrite IH.
  by destruct (run_calls vs1 d') as [rs1 d1].
Qed.

Lemma run_calls_snoc_state {D} `{!IUniqueNumberAlgorithm D} (vs : list str) v (d : D) :
  (run_calls (vs ++ [v]) d).2 = (IsUnique v (run_calls vs d).2).2.
Proof. rewrite run_calls_app. simpl. by destruct (IsUnique v _). Qed.

Section C1.
Context {C : Type} `{!Edges C} `{!EdgesOk C}.

Lemma IsUnique_after n (init : CompactRadixTreeAlgorithm C) t (vs : list str) v :
  0 < n → holds n init t ∅ → forallb (digit_value n) (v :: vs) = true →
  (IsUnique v (run_calls vs init).2).1 = Ok (bool_decide (v ∉ vs)).
Proof.
  intros Hn Hinit Hvvs.
  assert (digit_value n v = true ∧ forallb (digit_value n) vs = true) as [Hv Hvs]
    by (by apply andb_prop in Hvvs).
  destruct (run_calls_holds n vs init t ∅ Hn Hinit Hvs) as [_ Hh].
  destruct (IsUnique_holds n _ _ _ v Hn Hh Hv) as (s' & Hcall & _).
  change (IsUnique v ?s) with (RadixTree.IsUnique v s). rewrite Hcall. simpl. f_equal.
  destruct (Set_run_calls vs ∅) as (-> & _). apply bool_decide_ext. set_solver.
Qed.
End C1.

Abbreviation holds_guarded :=
  (@holds _ OrderedEdges_guarded OrderedEdges_guarded_Ok).

Lemma Ordered_IsUnique_after n (init : OrderedTree) t (vs : list str) v :
  0 < n → holds_guarded n init t ∅ → forallb (digit_value n) (v :: vs) = true →
  Forall (λ r, ∃ b, r = Ok b) (run_calls vs init).1 →
  (v ∈ vs → (IsUnique v (run_calls vs init).2).1 = Ok false)
  ∧ (v ∉ vs → (IsUnique v (run_calls vs init).2).1 = Ok true
              ∨ IsUnique v (run_calls vs init).2 = (Undefined, (run_calls vs init).2)).
Proof.
  intros Hn Hinit Hvvs Hall.
  assert (digit_value n v = true ∧ forallb (digit_value n) vs = true) as [Hv Hvs]
    by (by apply andb_prop in Hvvs).
  rewrite (Ordered_run_calls vs init Hall).
  destruct (@run_calls_holds _ OrderedEdges_guarded OrderedEdges_guarded_Ok
              n vs init t ∅ Hn Hinit Hvs) as [_ Hh].
  destruct (@IsUnique_holds _ OrderedEdges_guarded OrderedEdges_guarded_Ok
              n _ _ _ v Hn Hh Hv) as (s' & Hcall & _).
  destruct (Set_run_calls vs ∅) as (Hset & _). rewrite Hset in Hcall.
  apply Ordered_IsUnique_cases in Hcall. split; intros Hin.
  - rewrite bool_decide_eq_false_2 in Hcall by set_solver.
    destruct Hcall as [->|[[=] _]]. done.
  - rewrite bool_decide_eq_true_2 in Hcall by set_solver.
    destruct Hcall as [->|[_ ->]]; [by left|by right].
Qed.

(** C1, as amended: on the radix tree engine, for every length [n > 0],
    every sequence [vs] of earlier calls with values of [n] digits since
    the construction or the last [Reset] (whatever the engine held
    before that [Reset]) and every value [v] of [n] digits: with
    [UnorderedEdges] and with [IndexedEdges], [IsUnique v] returns
    [true] if and only if [v] is not among [vs]; in particular a value
    seen before a [Reset] is unique again after it, and a second call
    with the same value returns [false].  With [OrderedEdges], where
    [Find] is undefined on one path, the same holds of the calls that
    return: when the earlier calls have all returned, a value among
    [vs] gives [false], and a value not among them gives [true] or the
    call is undefined and leaves the engine as it was. *)
Theorem C1_is_unique_iff_not_seen :
  unordered_and_indexed (λ C _,
    ∀ (n : nat) (s0 : CompactRadixTreeAlgorithm C) (vs : list str) (v : str),
      0 < n → forallb (digit_value n) (v :: vs) = true →
      (IsUnique v (run_calls vs RadixTree.new).2).1 = Ok (bool_decide (v ∉ vs))
      ∧ (IsUnique v (run_calls vs (Reset s0).2).2).1 = Ok (bool_decide (v ∉ vs))
      ∧ (IsUnique v (Reset (run_calls (v :: vs) s0).2).2).1 = Ok true
      ∧ (IsUnique v (IsUnique v (run_calls vs (Reset s0).2).2).2).1 = Ok false)
  ∧ ∀ (n : nat) (s0 init : OrderedTree) (vs : list str) (v : str),
      0 < n → forallb (digit_value n) (v :: vs) = true →
      init = RadixTree.new ∨ init = (Reset s0).2 →
      Forall (λ r, ∃ b, r = Ok b) (run_calls vs init).1 →
      (v ∈ vs → (IsUnique v (run_calls vs init).2).1 = Ok false)
      ∧ (v ∉ vs → (IsUnique v (run_calls vs init).2).1 = Ok true
                  ∨ IsUnique v (run_calls vs init).2
                    = (Undefined, (run_calls vs init).2)).
Proof.
  split.
  - apply unordered_and_indexed_intro. intros C E HE n s0 vs v Hn Hvs.
    assert (digit_value n v = true ∧ forallb (digit_value n) vs = true) as [Hv Hvs']
      by (by apply andb_prop in Hvs).
    split_and!.
    + by eapply IsUnique_after; [|apply holds_new|].
    + by eapply IsUnique_after; [|apply (holds_Reset n s0)|].
    + pose proof (IsUnique_after n _ _ [] v Hn
                    (holds_Reset n (run_calls (v :: vs) s0).2 Hn)) as H.
      simpl in H. apply H. by rewrite Hv.
    + rewrite <- run_calls_snoc_state. change (Reset s0) with (RadixTree.Reset s0).
      rewrite (IsUnique_after n _ _ (vs ++ [v]) v Hn (holds_Reset n s0 Hn)).
      * f_equal. apply bool_decide_eq_false. set_solver.
      * change (v :: vs ++ [v]) with ([v] ++ vs ++ [v]).
        rewrite !forallb_app, Hvs'. simpl. by rewrite Hv.
  - intros n s0 init vs v Hn Hvs [->| ->] Hall.
    + eapply Ordered_IsUnique_after; [done| |done..].
      by apply (@holds_new _ OrderedEdges_guarded OrderedEdges_guarded_Ok).
    + eapply Ordered_IsUnique_after; [done| |done..].
      by apply (@holds_Reset _ OrderedEdges_guarded OrderedEdges_guarded_Ok n s0).
Qed.

(** A run of C1 on the digit-indexed engine. *)
Lemma C1_is_unique_iff_not_seen_witness :
  0 < 2
  ∧ forallb (digit_value 2) (of_string "12" :: [of_string "12"; of_string "34"]) = true
  ∧ (IsUnique (of_string "12")
       (run_calls [of_string "12"; of_string "34"]
          (RadixTree.new (C := IndexedEdges.Container))).2).1
    = Ok (bool_decide (of_string "12" ∉ [of_string "12"; of_string "34"])).
Proof.
  split; [lia|]. split; [reflexivity|].
  pose proof (proj2 (proj1 C1_is_unique_iff_not_seen)) as H. cbv beta in H.
  destruct (H 2 RadixTree.new [of_string "12"; of_string "34"] (of_string "12"))
    as [H1 _]; [lia|reflexivity|].
  exact H1.
Defined.

(** C1 as stated fails once the values differ in length: after ["12"]
    and ["13"] the value ["1"], never passed before, is reported as a
    repeat, by each of the three collections. *)
Lemma C1_counterexample :
  forallb (λ v, negb (length v =? 0) && forallb isdigit v)
    [of_string "12"; of_string "13"; of_string "1"] = true
  ∧ bool_decide (of_string "1" ∈ [of_string "12"; of_string "13"]) = false
  ∧ (IsUnique (of_string "1")
       (run_calls [of_string "12"; of_string "13"]
          (RadixTree.new (C := IndexedEdges.Container))).2).1 = Ok false
  ∧ (IsUnique (of_string "1")
       (run_calls [of_string "12"; of_string "13"]
          (RadixTree.new (C := UnorderedEdges.Container))).2).1 = Ok false
  ∧ (IsUnique (of_string "1")
       (run_calls [of_string "12"; of_string "13"]
          (RadixTree.new (C := OrderedEdges.Container))).2).1 = Ok false.
Proof. split_and!; vm_compute; reflexivity. Qed.

(** ** What the counter needs from a detector *)

(** [det_inv n d m]: the detector [d] has seen the values [m], all of
    [n] digits, since it was last reset.  Both detectors answer a value
    of [n] digits with [true] exactly when it is new. *)
Class DetectorOk (D : Type) `{!IUniqueNumberAlgorithm D} : Type := {
  det_inv : nat → D → gset str → Prop;
  det_Reset n d : 0 < n → (Reset d).1 = Ok () ∧ det_inv n (Reset d).2 ∅;
  det_IsUnique n d m v :
    0 < n → det_inv n d m → digit_value n v = true →
    (IsUnique v d).1 = Ok (bool_decide (v ∉ m))
    ∧ det_inv n (IsUnique v d).2 ({[v]} ∪ m)
}.

Global Program Instance Set_DetectorOk : DetectorOk SetAlgorithm.Numbers := {|
  det_inv _ d m := d = m
|}.
Next Obligation. done. Qed.
Next Obligation. by intros n d m v _ -> _. Qed.

Global Program Instance CompactRadixTree_DetectorOk {C} `{!Edges C} `{!EdgesOk C}
    : DetectorOk (CompactRadixTreeAlgorithm C) := {|
  det_inv n s m := ∃ t, holds n s t m
|}.
Next Obligation.
intros C ?? n d Hn. split; [done|]. eexists. by apply holds_Reset.
Qed.
Next Obligation.
intros C ?? n s m v Hn [t Ht] Hv.
destruct (IsUnique_holds n s t m v Hn Ht Hv) as (s' & Hcall & Hh & _).
change (IsUnique v s) with (RadixTree.IsUnique v s). rewrite Hcall. split; [done|by eexists].
Qed.

Section Counter_facts.
Context {D : Type} `{!IUniqueNumberAlgorithm D}.

Lemma check_digits_spec (number : str) :
  Counter.check_digits number
  = if forallb isdigit number then Ok () else Raise "Not a number".
Proof.
  induction number as [|ch number IH]; simpl; [done|].
  destruct (isdigit ch); simpl; [apply IH|done].
Qed.

Lemma m_CheckNumber_spec (this : UniqueNumberCounter D) (number : str) :
  Counter.m_CheckNumber this number
  = if digit_value (m_NumExpectedDigits this) number then Ok ()
    else Raise (if length number =? m_NumExpectedDigits this
                then "Not a number" else "Invalid number of digits").
Proof.
  unfold Counter.m_CheckNumber, digit_value. rewrite check_digits_spec.
  destruct (length number =? m_NumExpectedDigits this); simpl; [|done].
  by destruct (forallb isdigit number).
Qed.

(** A rejected value leaves the counter and its detector as they were. *)
Lemma ProcessNumber_invalid (this : UniqueNumberCounter D) (number : str) :
  digit_value (m_NumExpectedDigits this) number = false →
  ∃ msg, Counter.ProcessNumber number this = (Raise msg, this).
Proof.
  intros Hv. unfold Counter.ProcessNumber. rewrite m_CheckNumber_spec, Hv. by eexists.
Qed.

(** An accepted value is forwarded; the count moves with the answer. *)
Lemma ProcessNumber_valid (this : UniqueNumberCounter D) (number : str) b d' :
  digit_value (m_NumExpectedDigits this) number = true →
  IsUnique number (m_Algorithm this) = (Ok b, d') →
  Counter.ProcessNumber number this
  = (Ok (), mkCounter (m_NumExpectedDigits this) d'
              (if b then size_t_wrap (m_Count this + 1) else m_Count this)).
Proof.
  intros Hv Hcall. unfold Counter.ProcessNumber. rewrite m_CheckNumber_spec, Hv, Hcall.
  by destruct b.
Qed.

Context `{!DetectorOk D}.

(** The counter has counted the values [m]. *)
Definition counter_inv (this : UniqueNumberCounter D) (m : gset str) : Prop :=
  0 < m_NumExpectedDigits this
  ∧ det_inv (m_NumExpectedDigits this) (m_Algorithm this) m
  ∧ m_Count this = size_t_wrap (N.of_nat (size m)).

Lemma Counter_new_ok (d : D) (n : nat) :
  0 < n →
  ∃ this, Counter.new (Some d) n = (Ok this, Some (m_Algorithm this))
          ∧ m_NumExpectedDigits this = n ∧ counter_inv this ∅.
Proof.
  intros Hn. unfold Counter.new. destruct (Nat.leb_spec n 0); [lia|].
  destruct (det_Reset n d Hn) as [Hr Hinv]. destruct (Reset d) as [r d']. simpl in *.
  subst r. exists (mkCounter n d' 0%N). split; [done|]. split; [done|].
  split_and!; [done..|]. cbn [m_Count]. by rewrite size_empty.
Qed.

Lemma size_t_wrap_succ (k : N) :
  size_t_wrap (size_t_wrap k + 1) = size_t_wrap (k + 1).
Proof.
  unfold size_t_wrap. rewrite N.Div0.add_mod_idemp_l. done.
Qed.

Lemma ProcessNumber_ok (this : UniqueNumberCounter D) (m : gset str) (number : str) :
  counter_inv this m → digit_value (m_NumExpectedDigits this) number = true →
  ∃ this', Counter.ProcessNumber number this = (Ok (), this')
           ∧ IsUnique number (m_Algorithm this) = (Ok (bool_decide (number ∉ m)), m_Algorithm this')
           ∧ m_NumExpectedDigits this' = m_NumExpectedDigits this
           ∧ m_Count this'
             = (if bool_decide (number ∉ m) then size_t_wrap (m_Count this + 1)
                else m_Count this)
           ∧ counter_inv this' ({[number]} ∪ m).
Proof.
  intros (Hn & Hinv & Hcount) Hv.
  destruct (det_IsUnique _ _ _ _ Hn Hinv Hv) as [Hr Hinv'].
  destruct (IsUnique number (m_Algorithm this)) as [r d'] eqn:Hcall. simpl in *. subst r.
  eexists. split; [by apply ProcessNumber_valid|]. simpl. split_and!; [done..|].
  split_and!; simpl; [done..|]. rewrite Hcount. case_bool_decide as Hm.
  - rewrite size_t_wrap_succ, size_union, size_singleton by set_solver. f_equal. lia.
  - by replace ({[number]} ∪ m) with m by set_solver.
Qed.

(** The counter after any sequence of calls of [ProcessNumber], rejected
    values included. *)
Definition after_all (values : list str) (this : UniqueNumberCounter D)
    : UniqueNumberCounter D :=
  foldl (λ this v, (Counter.ProcessNumber v this).2) this values.

Lemma after_all_inv values : ∀ this m,
  counter_inv this m →
  ∃ m', counter_inv (after_all values this) m'
        ∧ m_NumExpectedDigits (after_all values this) = m_NumExpectedDigits this.
Proof.
  induction values as [|v values IH]; intros this m Hinv; simpl; [by exists m|].
  destruct (digit_value (m_NumExpectedDigits this) v) eqn:Hv.
  - destruct (ProcessNumber_ok this m v Hinv Hv) as (this' & -> & _ & Hn & _ & Hinv').
    simpl. destruct (IH this' _ Hinv') as (m' & ? & ?). exists m'. split; [done|congruence].
  - destruct (ProcessNumber_invalid this v Hv) as [msg ->]. simpl. by apply (IH this m).
Qed.

Lemma process_all_ok values : ∀ this m,
  counter_inv this m →
  forallb (digit_value (m_NumExpectedDigits this)) values = true →
  ∃ this', Counter.process_all values this = (Ok (), this')
           ∧ counter_inv this' (list_to_set values ∪ m).
Proof.
  induction values as [|v values IH]; intros this m Hinv Hvs; simpl.
  { exists this. split; [done|]. by rewrite union_empty_l_L. }
  assert (digit_value (m_NumExpectedDigits this) v = true
          ∧ forallb (digit_value (m_NumExpectedDigits this)) values = true) as [Hv Hvs']
    by (by apply andb_prop in Hvs).
  destruct (ProcessNumber_ok this m v Hinv Hv) as (this' & Hp & _ & Hn & _ & Hinv').
  unfold mbind, M_bind. rewrite Hp. rewrite <- Hn in Hvs'.
  destruct (IH this' _ Hinv' Hvs') as (this'' & -> & Hinv'').
  exists this''. split; [done|].
  by replace ({[v]} ∪ list_to_set values ∪ m) with (list_to_set values ∪ ({[v]} ∪ m))
    by set_solver.
Qed.

Lemma ProcessDataset_ok (n : nat) (dataset : list str) (d : D) :
  0 < n → forallb (digit_value n) dataset = true →
  Counter.ProcessDataset n dataset (Some d)
  = Ok (size_t_wrap (N.of_nat (size (list_to_set dataset : gset str)))).
Proof.
  intros Hn Hvs. unfold Counter.ProcessDataset.
  destruct (Counter_new_ok d n Hn) as (this & -> & Hnn & Hinv). simpl.
  rewrite <- Hnn in Hvs.
  destruct (process_all_ok dataset this ∅ Hinv Hvs) as (this' & -> & (_ & _ & Hc)).
  simpl. unfold Counter.GetCount. rewrite Hc. by rewrite union_empty_r_L.
Qed.
End Counter_facts.

Lemma size_list_to_set_remove_dups (vs : list str) :
  size (list_to_set vs : gset str) = length (remove_dups vs).
Proof.
  rewrite <- (size_list_to_set (C := gset str) (remove_dups vs)) by apply NoDup_remove_dups.
  f_equal. apply set_eq. intros x. by rewrite !elem_of_list_to_set, elem_of_remove_dups.
Qed.

Lemma Set_count_true (vs : list str) :
  count_true (run_calls vs SetAlgorithm.new).1 = length (remove_dups vs).
Proof.
  destruct (Set_run_calls vs ∅) as (_ & Hc & _). rewrite size_empty, Nat.add_0_r in Hc.
  unfold SetAlgorithm.new. by rewrite Hc, union_empty_r_L, size_list_to_set_remove_dups.
Qed.

Lemma digit_values_perm n (vs vs' : list str) :
  vs ≡ₚ vs' → forallb (digit_value n) vs = true → forallb (digit_value n) vs' = true.
Proof.
  intros Hp. rewrite !forallb_forall. intros H x Hx. apply H.
  apply list_elem_of_In. rewrite Hp. by apply list_elem_of_In.
Qed.

(** C2: for every sequence of values of one length [n > 0] given to a
    freshly constructed detector, the radix tree engine (with
    [IndexedEdges], as the program is built, and with [UnorderedEdges])
    and the set based detector return the same results call by call,
    every call returns, and the number of [true] results is the number
    of distinct values of the sequence.  With [OrderedEdges] the same
    holds of every run whose calls all return. *)
Theorem C2_count_and_agreement :
  unordered_and_indexed (λ C _,
    ∀ (n : nat) (vs : list str),
      0 < n → forallb (digit_value n) vs = true →
      (run_calls vs (RadixTree.new (C := C))).1 = (run_calls vs SetAlgorithm.new).1
      ∧ Forall (λ r, ∃ b, r = Ok b) (run_calls vs (RadixTree.new (C := C))).1
      ∧ count_true (run_calls vs (RadixTree.new (C := C))).1 = length (remove_dups vs)
      ∧ count_true (run_calls vs SetAlgorithm.new).1 = length (remove_dups vs))
  ∧ ∀ (n : nat) (vs : list str),
      0 < n → forallb (digit_value n) vs = true →
      Forall (λ r, ∃ b, r = Ok b)
        (run_calls vs (RadixTree.new (C := OrderedEdges.Container))).1 →
      (run_calls vs (RadixTree.new (C := OrderedEdges.Container))).1
      = (run_calls vs SetAlgorithm.new).1
      ∧ count_true (run_calls vs (RadixTree.new (C := OrderedEdges.Container))).1
        = length (remove_dups vs).
Proof.
  split.
  - apply unordered_and_indexed_intro. intros C E HE n vs Hn Hvs.
    destruct (run_calls_holds n vs RadixTree.new _ ∅ Hn (holds_new n Hn) Hvs) as [Hrs _].
    unfold SetAlgorithm.new. rewrite Hrs. split_and!; [done| |apply Set_count_true..].
    by destruct (Set_run_calls vs ∅) as (_ & _ & ? & _).
  - intros n vs Hn Hvs Hall. rewrite (Ordered_run_calls vs _ Hall).
    destruct (@run_calls_holds _ OrderedEdges_guarded OrderedEdges_guarded_Ok
                n vs RadixTree.new _ ∅ Hn (holds_new n Hn) Hvs) as [Hrs _].
    unfold SetAlgorithm.new.
    change (@RadixTree.new _ OrderedEdges_Edges)
      with (@RadixTree.new _ OrderedEdges_guarded).
    rewrite Hrs. split; [done|apply Set_count_true].
Qed.

(** The data set of the tests, on the digit-indexed engine. *)
Lemma C2_count_and_agreement_witness :
  0 < 3
  ∧ forallb (digit_value 3)
      (of_string <$> ["123"; "456"; "123"; "457"; "442"; "441"]) = true
  ∧ count_true
      (run_calls (of_string <$> ["123"; "456"; "123"; "457"; "442"; "441"])
         (RadixTree.new (C := IndexedEdges.Container))).1
    = length (remove_dups (of_string <$> ["123"; "456"; "123"; "457"; "442"; "441"])).
Proof.
  split; [lia|]. split; [reflexivity|].
  pose proof (proj2 (proj1 C2_count_and_agreement)) as H. cbv beta in H.
  destruct (H 3 (of_string <$> ["123"; "456"; "123"; "457"; "442"; "441"]))
    as (_ & _ & H1 & _); [lia|reflexivity|].
  exact H1.
Defined.

(** Without digits to pass, the engine reports nothing new. *)
Lemma run_calls_empty_values {C} `{!Edges C} (vs : list str) :
  ∀ s : CompactRadixTreeAlgorithm C,
    forallb (digit_value 0) vs = true → count_true (run_calls vs s).1 = 0.
Proof.
  induction vs as [|v vs IH]; intros s Hvs; [done|].
  cbn [forallb] in Hvs. apply andb_prop in Hvs as [[Hv _]%digit_value_spec Hvs].
  apply nil_length_inv in Hv as ->. cbn [run_calls].
  assert (IsUnique [] s = (Ok false, s)) as -> by (by destruct s).
  specialize (IH s Hvs). destruct (run_calls vs s) as [rs s']. cbn [fst] in *.
  rewrite count_true_cons. by rewrite decide_False.
Qed.

(** The counter on the engine with [OrderedEdges]: what it returns,
    it returns with [Find_guarded] as well. *)
Abbreviation ProcessNumber_guarded :=
  (@Counter.ProcessNumber OrderedTree (@CompactRadixTree_Algorithm _ OrderedEdges_guarded)).
Abbreviation process_all_guarded :=
  (@Counter.process_all OrderedTree (@CompactRadixTree_Algorithm _ OrderedEdges_guarded)).
Abbreviation ProcessDataset_guarded :=
  (@Counter.ProcessDataset OrderedTree (@CompactRadixTree_Algorithm _ OrderedEdges_guarded)).

Lemma Ordered_ProcessNumber v (this this' : UniqueNumberCounter OrderedTree) :
  Counter.ProcessNumber v this = (Ok (), this') →
  ProcessNumber_guarded v this = (Ok (), this').
Proof.
  unfold Counter.ProcessNumber.
  destruct (Counter.m_CheckNumber this v); try done.
  change (@IsUnique _ (@CompactRadixTree_Algorithm _ OrderedEdges_guarded) v)
    with (IsUnique_guarded v).
  by destruct (Ordered_IsUnique (m_Algorithm this) v) as [->|[-> _]].
Qed.

Lemma Ordered_process_all vs : ∀ this this' : UniqueNumberCounter OrderedTree,
  Counter.process_all vs this = (Ok (), this') →
  process_all_guarded vs this = (Ok (), this').
Proof.
  induction vs as [|v vs IH]; intros this this'; [done|]. cbn [Counter.process_all].
  unfold mbind, M_bind.
  destruct (Counter.ProcessNumber v this) as [[[]| | |] this1] eqn:Hp; try done.
  rewrite (Ordered_ProcessNumber v this this1 Hp). apply IH.
Qed.

Lemma Ordered_ProcessDataset n vs (s : OrderedTree) count :
  Counter.ProcessDataset n vs (Some s) = Ok count →
  ProcessDataset_guarded n vs (Some s) = Ok count.
Proof.
  unfold Counter.ProcessDataset.
  change (@Counter.new _ (@CompactRadixTree_Algorithm _ OrderedEdges_guarded))
    with (@Counter.new _ (@CompactRadixTree_Algorithm _ OrderedEdges_Edges)).
  destruct (Counter.new (Some s) n).1 as [this| | |]; try done. obind_simpl.
  destruct (Counter.process_all vs this) as [[[]| | |] this'] eqn:Hp; try done.
  by rewrite (Ordered_process_all vs this this' Hp).
Qed.

(** C7: permuting a data set of values of one length [n] changes
    neither the number of [true] results of a fresh detector nor the
    outcome of [ProcessDataset], which for [n > 0] is a count, for the
    set based detector and for the radix tree engine with
    [IndexedEdges], as the program is built, and with [UnorderedEdges].
    With [OrderedEdges] two orders whose calls all return give the same
    number of [true] results, and two orders for which [ProcessDataset]
    returns give the same count, that of the set based detector. *)
Theorem C7_order_independence :
  unordered_and_indexed (λ C _,
    ∀ (n : nat) (vs vs' : list str) (s : CompactRadixTreeAlgorithm C)
      (m : SetAlgorithm.Numbers),
      forallb (digit_value n) vs = true → vs ≡ₚ vs' →
      count_true (run_calls vs (RadixTree.new (C := C))).1
      = count_true (run_calls vs' (RadixTree.new (C := C))).1
      ∧ count_true (run_calls vs SetAlgorithm.new).1
        = count_true (run_calls vs' SetAlgorithm.new).1
      ∧ Counter.ProcessDataset n vs (Some s) = Counter.ProcessDataset n vs' (Some s)
      ∧ Counter.ProcessDataset n vs (Some m) = Counter.ProcessDataset n vs' (Some m)
      ∧ (0 < n → ∃ count, Counter.ProcessDataset n vs (Some s) = Ok count
                          ∧ Counter.ProcessDataset n vs (Some m) = Ok count))
  ∧ ∀ (n : nat) (vs vs' : list str) (s : OrderedTree) (m : SetAlgorithm.Numbers),
      forallb (digit_value n) vs = true → vs ≡ₚ vs' →
      (Forall (λ r, ∃ b, r = Ok b)
         (run_calls vs (RadixTree.new (C := OrderedEdges.Container))).1 →
       Forall (λ r, ∃ b, r = Ok b)
         (run_calls vs' (RadixTree.new (C := OrderedEdges.Container))).1 →
       count_true (run_calls vs (RadixTree.new (C := OrderedEdges.Container))).1
       = count_true (run_calls vs' (RadixTree.new (C := OrderedEdges.Container))).1)
      ∧ ∀ count, Counter.ProcessDataset n vs (Some s) = Ok count →
          Counter.ProcessDataset n vs (Some m) = Ok count
          ∧ ∀ count', Counter.ProcessDataset n vs' (Some s) = Ok count' → count' = count.
Proof.
  split.
  - apply unordered_and_indexed_intro. intros C E HE n vs vs' s m Hvs Hp.
    pose proof (digit_values_perm n vs vs' Hp Hvs) as Hvs'.
    assert (length (remove_dups vs) = length (remove_dups vs')) as Hlen.
    { by rewrite <- !size_list_to_set_remove_dups, Hp. }
    rewrite !Set_count_true.
    destruct n as [|n].
    { rewrite !run_calls_empty_values by done. split_and!; [done..|lia]. }
    assert (0 < S n) as Hn by lia.
    destruct (run_calls_holds (S n) vs RadixTree.new _ ∅ Hn (holds_new _ Hn) Hvs) as [Hrs _].
    destruct (run_calls_holds (S n) vs' RadixTree.new _ ∅ Hn (holds_new _ Hn) Hvs')
      as [Hrs' _].
    rewrite Hrs, Hrs'. fold SetAlgorithm.new. rewrite !Set_count_true.
    rewrite !ProcessDataset_ok by done. rewrite !size_list_to_set_remove_dups, Hlen.
    split_and!; [done..|]. by eexists.
  - intros n vs vs' s m Hvs Hp.
    pose proof (digit_values_perm n vs vs' Hp Hvs) as Hvs'.
    assert (length (remove_dups vs) = length (remove_dups vs')) as Hlen.
    { by rewrite <- !size_list_to_set_remove_dups, Hp. }
    destruct n as [|n].
    { split; [|done]. intros _ _. by rewrite !run_calls_empty_values. }
    assert (0 < S n) as Hn by lia.
    split.
    + intros Hall Hall'.
      rewrite (Ordered_run_calls vs _ Hall), (Ordered_run_calls vs' _ Hall').
      destruct (@run_calls_holds _ OrderedEdges_guarded OrderedEdges_guarded_Ok
                  (S n) vs RadixTree.new _ ∅ Hn (holds_new _ Hn) Hvs) as [Hrs _].
      destruct (@run_calls_holds _ OrderedEdges_guarded OrderedEdges_guarded_Ok
                  (S n) vs' RadixTree.new _ ∅ Hn (holds_new _ Hn) Hvs') as [Hrs' _].
      change (@RadixTree.new _ OrderedEdges_Edges)
        with (@RadixTree.new _ OrderedEdges_guarded).
      rewrite Hrs, Hrs'. fold SetAlgorithm.new. by rewrite !Set_count_true.
    + intros count Hc%Ordered_ProcessDataset.
      rewrite (@ProcessDataset_ok _ _ (@CompactRadixTree_DetectorOk _ _
                 OrderedEdges_guarded_Ok) (S n) vs s Hn Hvs) in Hc.
      rewrite (ProcessDataset_ok (S n) vs m Hn Hvs). split; [done|].
      intros count' Hc'%Ordered_ProcessDataset.
      rewrite (@ProcessDataset_ok _ _ (@CompactRadixTree_DetectorOk _ _
                 OrderedEdges_guarded_Ok) (S n) vs' s Hn Hvs') in Hc'.
      rewrite !size_list_to_set_remove_dups in *. congruence.
Qed.

Lemma C7_order_independence_witness :
  forallb (digit_value 2) (of_string <$> ["12"; "34"; "12"]) = true
  ∧ of_string <$> ["12"; "34"; "12"] ≡ₚ of_string <$> ["12"; "12"; "34"]
  ∧ Counter.ProcessDataset 2 (of_string <$> ["12"; "34"; "12"])
      (Some (RadixTree.new (C := IndexedEdges.Container)))
    = Counter.ProcessDataset 2 (of_string <$> ["12"; "12"; "34"])
        (Some (RadixTree.new (C := IndexedEdges.Container)))
  ∧ 0 < 2
  ∧ ∃ count,
      Counter.ProcessDataset 2 (of_string <$> ["12"; "34"; "12"])
        (Some (RadixTree.new (C := IndexedEdges.Container))) = Ok count
      ∧ Counter.ProcessDataset 2 (of_string <$> ["12"; "34"; "12"])
          (Some SetAlgorithm.new) = Ok count.
Proof.
  assert (of_string <$> ["12"; "34"; "12"] ≡ₚ of_string <$> ["12"; "12"; "34"]) as Hp.
  { simpl. apply Permutation_skip, Permutation_swap. }
  split; [reflexivity|]. split; [exact Hp|].
  pose proof (proj2 (proj1 C7_order_independence)) as H. cbv beta in H.
  destruct (H 2 (of_string <$> ["12"; "34"; "12"]) (of_string <$> ["12"; "12"; "34"])
              RadixTree.new SetAlgorithm.new)
    as (_ & _ & H1 & _ & H2); [reflexivity|exact Hp|].
  split; [exact H1|]. split; [lia|]. apply H2. lia.
Defined.

(** C10: on the empty string the two detectors part.  The radix tree
    engine returns [false] and stays as it is, in every state; the set
    based detector returns [true] for the first empty string after a
    [Reset] and [false] for every later one. *)
Theorem C10_empty_string :
  each_strategy (λ C _,
    ∀ s : CompactRadixTreeAlgorithm C, IsUnique [] s = (Ok false, s))
  ∧ ∀ (m : SetAlgorithm.Numbers) (vs vs' : list str),
      [] ∉ vs →
      (IsUnique [] (run_calls vs (Reset m).2).2).1 = Ok true
      ∧ (IsUnique []
           (run_calls vs' (IsUnique [] (run_calls vs (Reset m).2).2).2).2).1 = Ok false.
Proof.
  split.
  - apply each_strategy_intro; [intros C E HE [root h]; reflexivity|].
    by intros [root h].
  - intros m vs vs' Hvs.
    change (Reset m).2 with (∅ : gset str).
    change (IsUnique [] ?d) with (SetAlgorithm.IsUnique [] d).
    unfold SetAlgorithm.IsUnique. simpl.
    destruct (Set_run_calls vs ∅) as (-> & _).
    destruct (Set_run_calls vs' ({[ [] ]} ∪ (list_to_set vs ∪ ∅))) as (-> & _).
    split; f_equal.
    + apply bool_decide_eq_true. set_solver.
    + apply bool_decide_eq_false. set_solver.
Qed.

Lemma C10_empty_string_witness :
  [] ∉ [of_string "1"]
  ∧ (IsUnique [] (run_calls [of_string "1"] (Reset (∅ : SetAlgorithm.Numbers)).2).2).1
    = Ok true.
Proof.
  assert ([] ∉ [of_string "1"]) as Hn by (by intros ?%list_elem_of_singleton).
  split; [exact Hn|].
  destruct (proj2 C10_empty_string ∅ [of_string "1"] [] Hn) as [H1 _].
  exact H1.
Defined.

(** What C8 says, for one detector class [D]. *)
Definition counter_contract (D : Type) `{!IUniqueNumberAlgorithm D} : Prop :=
  (∀ n : nat, Counter.new (None : option D) n = (Raise "NULL ptr", None))
  ∧ (∀ d : D,
       Counter.new (Some d) 0 = (Raise "numExpectedDigits cannot be zero", Some d))
  ∧ ∀ (d : D) (n : nat) (history : list str) (value : str),
      0 < n →
      ∃ this0,
        Counter.new (Some d) n = (Ok this0, Some (m_Algorithm this0))
        ∧ let this := after_all history this0 in
          if digit_value n value
          then ∃ b d',
                 IsUnique value (m_Algorithm this) = (Ok b, d')
                 ∧ Counter.ProcessNumber value this
                   = (Ok (),
                      mkCounter n d'
                        (if b then size_t_wrap (m_Count this + 1) else m_Count this))
          else ∃ msg, Counter.ProcessNumber value this = (Raise msg, this).

Lemma counter_contract_holds (D : Type) `{!IUniqueNumberAlgorithm D} `{!DetectorOk D} :
  counter_contract D.
Proof.
  split_and!; [done|done|]. intros d n history value Hn.
  destruct (Counter_new_ok d n Hn) as (this0 & Hnew & Hnn & Hinv).
  exists this0. split; [done|]. cbv zeta.
  destruct (after_all_inv history this0 ∅ Hinv) as (m & Hinv' & Hn').
  rewrite Hnn in Hn'. destruct (digit_value n value) eqn:Hv.
  - destruct (ProcessNumber_ok (after_all history this0) m value Hinv') as (this' & Hp & Hcall & _);
      [by rewrite Hn'|].
    eexists _, _. split; [done|]. rewrite <- Hn'. apply ProcessNumber_valid; [by rewrite Hn'|done].
  - apply ProcessNumber_invalid. by rewrite Hn'.
Qed.

(** The same with a detector whose [IsUnique] may be undefined: then
    so is [ProcessNumber], and counter and detector stay as they were. *)
Definition counter_contract_or_undefined (D : Type) `{!IUniqueNumberAlgorithm D} : Prop :=
  (∀ n : nat, Counter.new (None : option D) n = (Raise "NULL ptr", None))
  ∧ (∀ d : D,
       Counter.new (Some d) 0 = (Raise "numExpectedDigits cannot be zero", Some d))
  ∧ ∀ (d : D) (n : nat) (history : list str) (value : str),
      0 < n →
      ∃ this0,
        Counter.new (Some d) n = (Ok this0, Some (m_Algorithm this0))
        ∧ let this := after_all history this0 in
          if digit_value n value
          then (∃ b d',
                  IsUnique value (m_Algorithm this) = (Ok b, d')
                  ∧ Counter.ProcessNumber value this
                    = (Ok (),
                       mkCounter n d'
                         (if b then size_t_wrap (m_Count this + 1) else m_Count this)))
               ∨ (IsUnique value (m_Algorithm this) = (Undefined, m_Algorithm this)
                  ∧ Counter.ProcessNumber value this = (Undefined, this))
          else ∃ msg, Counter.ProcessNumber value this = (Raise msg, this).

Abbreviation counter_inv_guarded :=
  (@counter_inv OrderedTree (@CompactRadixTree_Algorithm _ OrderedEdges_guarded)
     (@CompactRadixTree_DetectorOk _ OrderedEdges_guarded OrderedEdges_guarded_Ok)).

Lemma Ordered_ProcessNumber_cases v (this : UniqueNumberCounter OrderedTree) :
  Counter.ProcessNumber v this = ProcessNumber_guarded v this
  ∨ (IsUnique v (m_Algorithm this) = (Undefined, m_Algorithm this)
     ∧ Counter.ProcessNumber v this = (Undefined, this)).
Proof.
  unfold Counter.ProcessNumber. destruct (Counter.m_CheckNumber this v); try by left.
  change (@IsUnique _ (@CompactRadixTree_Algorithm _ OrderedEdges_guarded) v)
    with (IsUnique_guarded v).
  destruct (Ordered_IsUnique (m_Algorithm this) v) as [->|[-> _]]; [by left|].
  right. by destruct this.
Qed.

Lemma Ordered_after_all_inv history : ∀ (this : UniqueNumberCounter OrderedTree) m,
  counter_inv_guarded this m →
  ∃ m', counter_inv_guarded (after_all history this) m'
        ∧ m_NumExpectedDigits (after_all history this) = m_NumExpectedDigits this.
Proof.
  induction history as [|v history IH]; intros this m Hinv; [by exists m|].
  cbn [after_all foldl].
  destruct (Ordered_ProcessNumber_cases v this) as [->|[_ ->]]; [|by apply (IH this m)].
  destruct (@after_all_inv _ (@CompactRadixTree_Algorithm _ OrderedEdges_guarded)
              (@CompactRadixTree_DetectorOk _ OrderedEdges_guarded OrderedEdges_guarded_Ok)
              [v] this m Hinv) as (m1 & Hinv1 & Hn1).
  cbn [after_all foldl] in Hinv1, Hn1.
  destruct (IH _ m1 Hinv1) as (m' & ? & Hd). exists m'. split; [done|].
  etrans; [exact Hd|exact Hn1].
Qed.

Lemma Ordered_counter_contract : counter_contract_or_undefined OrderedTree.
Proof.
  split_and!; [done|done|]. intros d n history value Hn.
  destruct (@Counter_new_ok _ (@CompactRadixTree_Algorithm _ OrderedEdges_guarded)
              (@CompactRadixTree_DetectorOk _ OrderedEdges_guarded OrderedEdges_guarded_Ok)
              d n Hn) as (this0 & Hnew & Hnn & Hinv).
  exists this0. split; [exact Hnew|]. cbv zeta.
  destruct (Ordered_after_all_inv history this0 ∅ Hinv) as (m & Hinv' & Hn').
  rewrite Hnn in Hn'. destruct (digit_value n value) eqn:Hv.
  - destruct (Ordered_ProcessNumber_cases value (after_all history this0)) as [HE|[? ?]];
      [|by right].
    left.
    destruct (@ProcessNumber_ok _ (@CompactRadixTree_Algorithm _ OrderedEdges_guarded)
                (@CompactRadixTree_DetectorOk _ OrderedEdges_guarded OrderedEdges_guarded_Ok)
                (after_all history this0) m value Hinv') as (this' & Hp & Hcall & _);
      [by rewrite Hn'|].
    change (@IsUnique _ (@CompactRadixTree_Algorithm _ OrderedEdges_guarded) value)
      with (IsUnique_guarded value) in Hcall.
    destruct (Ordered_IsUnique_cases _ _ _ _ Hcall) as [Hs|[_ Hs]].
    + eexists _, _. split; [exact Hs|]. rewrite <- Hn'.
      apply ProcessNumber_valid; [by rewrite Hn'|done].
    + exfalso. rewrite Hp in HE.
      assert (Counter.ProcessNumber value (after_all history this0)
              = (Undefined, mkCounter (m_NumExpectedDigits (after_all history this0))
                              (m_Algorithm (after_all history this0))
                              (m_Count (after_all history this0)))) as Hu.
      { unfold Counter.ProcessNumber. by rewrite m_CheckNumber_spec, Hn', Hv, Hs. }
      by rewrite Hu in HE.
  - apply ProcessNumber_invalid. by rewrite Hn'.
Qed.

(** C8: a counter cannot be built on a null detector or for zero digits:
    the constructor throws before it touches the detector.  A counter
    that has been built, whatever it has been fed since, throws on a
    value of the wrong length or with a character that is not a digit,
    and then neither it nor its detector changes; any other value is
    passed to [IsUnique], and [m_Count] is incremented (as a [size_t])
    exactly when the answer is [true].  This holds for the set based
    detector and for the radix tree engine with [IndexedEdges], as the
    program is built, and with [UnorderedEdges].  With [OrderedEdges] a
    value that has passed the checks is counted in the same way when
    [IsUnique] returns; when it is undefined, counter and engine stay as
    they were. *)
Theorem C8_counter_contract :
  counter_contract SetAlgorithm.Numbers
  ∧ unordered_and_indexed (λ C _, counter_contract (CompactRadixTreeAlgorithm C))
  ∧ counter_contract_or_undefined (CompactRadixTreeAlgorithm OrderedEdges.Container).
Proof.
  split; [apply counter_contract_holds; apply _|]. split.
  - apply unordered_and_indexed_intro. intros C E HE.
    apply counter_contract_holds; apply _.
  - apply Ordered_counter_contract.
Qed.

Lemma C8_counter_contract_witness :
  0 < 3
  ∧ ∃ this0,
      Counter.new (Some (RadixTree.new (C := IndexedEdges.Container))) 3
      = (Ok this0, Some (m_Algorithm this0))
      ∧ ∃ msg,
          Counter.ProcessNumber (of_string "12a") (after_all [of_string "123"] this0)
          = (Raise msg, after_all [of_string "123"] this0).
Proof.
  split; [lia|].
  destruct (proj2 (proj2 (proj2 (proj1 (proj2 C8_counter_contract))))
              RadixTree.new 3 [of_string "123"] (of_string "12a"))
    as (this0 & H0 & H1); [lia|].
  exists this0. split; [exact H0|]. exact H1.
Defined.

(** ** Any sequence of calls *)

(** The calls of [IUniqueNumberAlgorithm]. *)
Inductive call : Type :=
| CallReset
| CallIsUnique (value : str).

Definition run_call {D} `{!IUniqueNumberAlgorithm D} (c : call) (d : D) : D :=
  match c with
  | CallReset => (Reset d).2
  | CallIsUnique value => (IsUnique value d).2
  end.

(** The detector after the calls [cs], whatever their outcomes. *)
Definition run {D} `{!IUniqueNumberAlgorithm D} (cs : list call) (d : D) : D :=
  foldl (λ d c, run_call c d) d cs.

Lemma Ordered_run_inv (I : OrderedTree → Prop) calls : ∀ s : OrderedTree,
  (∀ s v, I s → I (IsUnique_guarded v s).2) → (∀ s, I s → I (Reset s).2) →
  I s → I (run calls s).
Proof.
  induction calls as [|c calls IH]; intros s Hstep Hreset Hs; [done|]. simpl.
  apply IH; [done..|]. destruct c as [|v]; simpl; [by apply Hreset|].
  change (RadixTree.IsUnique v s) with (IsUnique v s).
  destruct (Ordered_IsUnique s v) as [->|[-> _]]; [by apply Hstep|done].
Qed.

Section Any_calls.
Context {C : Type} `{!Edges C} `{!EdgesOk C}.

Lemma heap_ok_new : heap_ok (store (RadixTree.new (C := C))).
Proof.
  intros np n Hn. simpl in Hn. apply list_lookup_singleton_Some in Hn as [_ <-].
  apply node_ok_new.
Qed.

Lemma IsUnique_safe (s : CompactRadixTreeAlgorithm C) v :
  heap_ok (store s) →
  heap_ok (store (RadixTree.IsUnique v s).2)
  ∧ edges_le (edges (store s)) (edges (store (RadixTree.IsUnique v s).2))
  ∧ match (RadixTree.IsUnique v s).1 with Ok _ | Undefined => True | _ => False end.
Proof.
  intros Hok. unfold RadixTree.IsUnique.
  destruct (IsUnique_loop (length v) (Some (m_Root s)) v false (store s)) as [o h'] eqn:Hloop.
  destruct (IsUnique_loop_safe _ _ _ _ _ _ _ Hok (le_n _) Hloop) as (? & [? _] & ?).
  by split_and!.
Qed.

Lemma run_call_safe (s : CompactRadixTreeAlgorithm C) c :
  heap_ok (store s) →
  heap_ok (store (run_call c s))
  ∧ edges_le (edges (store s)) (edges (store (run_call c s))).
Proof.
  intros Hok. destruct c as [|v]; simpl.
  - split; [|apply edges_le_refl]. unfold RadixTree.Reset, Node_new, alloc_node. simpl.
    apply heap_ok_alloc; [by destruct (store s)|apply node_ok_new].
  - by destruct (IsUnique_safe s v Hok) as (? & ? & _).
Qed.

Lemma run_safe cs : ∀ s : CompactRadixTreeAlgorithm C,
  heap_ok (store s) → heap_ok (store (run cs s)).
Proof.
  induction cs as [|c cs IH]; intros s Hok; simpl; [done|].
  apply IH. by apply run_call_safe.
Qed.

(** Two edges of one node start differently. *)
Lemma heap_ok_apart (h : heap C) np n i j p1 p2 e1 e2 :
  heap_ok h → nodes h !! np = Some n →
  GetContainer (m_Edges n) !! i = Some p1 → GetContainer (m_Edges n) !! j = Some p2 →
  i ≠ j → edges h !! p1 = Some e1 → edges h !! p2 = Some e2 →
  head (m_Value e1) ≠ head (m_Value e2)
  ∧ common_chars (m_Value e1) (m_Value e2) = 0.
Proof.
  intros Hok Hn Hi Hj Hne He1 He2.
  destruct (Hok np n Hn) as (les & Hc & Hsib & Hlab).
  pose proof (cok_elems _ _ Hc) as Hperm.
  pose proof (labelled_NoDup _ _ Hlab Hsib) as Hnd. rewrite <- Hperm in Hnd.
  assert (p1 ≠ p2) as Hp.
  { intros ->. apply Hne. by apply (NoDup_lookup _ i j p2 Hnd). }
  assert (∀ p e, p ∈ GetContainer (m_Edges n) → edges h !! p = Some e →
            (p, m_Value e) ∈ les) as Hin.
  { intros p e Hp' He. rewrite Hperm in Hp'.
    apply list_elem_of_fmap in Hp' as ([p' l] & -> & Hpl).
    destruct (Hlab _ _ Hpl) as (e' & He' & <-). simpl in *. congruence. }
  assert (head (m_Value e1) ≠ head (m_Value e2)) as Hh.
  { intros Hh. apply Hp.
    assert ((p1, m_Value e1) = (p2, m_Value e2)) as [=]; [|done].
    apply (sib_ok_inj les); [done|..|done].
    - apply Hin; [by eapply list_elem_of_lookup_2|done].
    - apply Hin; [by eapply list_elem_of_lookup_2|done]. }
  split; [done|]. apply common_chars_zero. by left.
Qed.
End Any_calls.

Abbreviation heap_ok_guarded :=
  (@heap_ok _ OrderedEdges_guarded OrderedEdges_guarded_Ok).

Lemma Ordered_run_safe cs (s : OrderedTree) :
  heap_ok_guarded (store s) → heap_ok_guarded (store (run cs s)).
Proof.
  apply (Ordered_run_inv (λ s, heap_ok_guarded (store s))).
  - intros s1 v Hok.
    by destruct (@IsUnique_safe _ OrderedEdges_guarded OrderedEdges_guarded_Ok s1 v Hok).
  - intros s1 Hok.
    by destruct (@run_call_safe _ OrderedEdges_guarded OrderedEdges_guarded_Ok
                   s1 CallReset Hok).
Qed.

(** C4: after any sequence of [Reset] and [IsUnique] calls on a freshly
    constructed engine (with any values at all, hence with non-empty
    digit strings), any two edges held by one node of the store, so by
    one node of the tree, have labels that start differently: they share
    no non-empty prefix.  A call that stops at an out-of-range slot
    leaves such a store too. *)
Theorem C4_edges_apart :
  each_strategy (λ C _,
    ∀ (calls : list call) (np : ptr) (n : Node C) (i j p1 p2 : nat) (e1 e2 : Edge),
      let s := run calls (RadixTree.new (C := C)) in
      nodes (store s) !! np = Some n →
      GetContainer (m_Edges n) !! i = Some p1 →
      GetContainer (m_Edges n) !! j = Some p2 →
      i ≠ j →
      edges (store s) !! p1 = Some e1 → edges (store s) !! p2 = Some e2 →
      head (m_Value e1) ≠ head (m_Value e2)
      ∧ common_chars (m_Value e1) (m_Value e2) = 0).
Proof.
  apply each_strategy_intro.
  - intros C E HE calls np n i j p1 p2 e1 e2 s.
    apply heap_ok_apart. apply run_safe, heap_ok_new.
  - intros calls np n i j p1 p2 e1 e2 s.
    apply (@heap_ok_apart _ OrderedEdges_guarded OrderedEdges_guarded_Ok).
    apply Ordered_run_safe, (@heap_ok_new _ OrderedEdges_guarded OrderedEdges_guarded_Ok).
Qed.

(** After ["12"] and ["13"] the node under the edge ["1"] holds the
    edges ["2"] and ["3"]. *)
Lemma C4_edges_apart_witness :
  let s := run [CallIsUnique (of_string "12"); CallIsUnique (of_string "13")]
             (RadixTree.new (C := IndexedEdges.Container)) in
  ∃ n, nodes (store s) !! 3 = Some n
       ∧ GetContainer (m_Edges n) !! 0 = Some 1
       ∧ GetContainer (m_Edges n) !! 1 = Some 2
       ∧ 0 ≠ 1
       ∧ edges (store s) !! 1 = Some (mkEdge (of_string "2") 1)
       ∧ edges (store s) !! 2 = Some (mkEdge (of_string "3") 2)
       ∧ head (of_string "2") ≠ head (of_string "3")
       ∧ common_chars (of_string "2") (of_string "3") = 0.
Proof.
  eexists. split; [reflexivity|]. split; [reflexivity|]. split; [reflexivity|].
  split; [lia|]. split; [reflexivity|]. split; [reflexivity|].
  refine (proj2 (proj2 C4_edges_apart)
            [CallIsUnique (of_string "12"); CallIsUnique (of_string "13")]
            3 _ 0 1 1 2 (mkEdge (of_string "2") 1) (mkEdge (of_string "3") 2)
            _ _ _ _ _ _); try reflexivity. lia.
Defined.

Section Raising.
Context {C : Type} `{!Edges C}.

(** [Edge::Eat] throws on the arguments its checks name. *)
Lemma Edge_Eat_raises (h : heap C) p e k r u :
  edges h !! p = Some e →
  k = 0 ∨ length (m_Value e) `min` length r < k ∨ r = [] →
  ∃ msg, Edge_Eat p k r u h = (Raise msg, h).
Proof.
  intros He Hbad. unfold Edge_Eat. munfold. rewrite He. munfold.
  destruct (Nat.eqb_spec k 0) as [|Hk]; simpl; [by eexists|].
  destruct (Nat.ltb_spec (length (m_Value e) `min` length r) k) as [|Hle]; [by eexists|].
  destruct Hbad as [?|[?| ->]]; [lia|lia|]. by eexists.
Qed.

Lemma Node_Eat_raises (h : heap C) np u :
  Node_Eat np [] u h = (Raise "invalid remainder", h).
Proof. done. Qed.
End Raising.

(** C9: after any sequence of [Reset] and [IsUnique] calls on a freshly
    constructed engine, no [IsUnique] call throws (nor does its loop run
    longer than the value has characters), whatever the value, hence for
    every non-empty digit string: a call returns, or stops where the
    program is undefined, at a slot outside the vector of
    [IndexedEdges] or at the step below [begin()] in
    [OrderedEdges::Find].  The checks that throw are the
    ones on an empty remainder and on a count of common characters that
    is zero or larger than the label or the remainder: as a thrown error
    is never caught on the way out of [IsUnique], these branches are not
    reached. *)
Theorem C9_no_raise :
  each_strategy (λ C _,
    (∀ (calls : list call) (value : str),
       match (IsUnique value (run calls (RadixTree.new (C := C)))).1 with
       | Ok _ | Undefined => True
       | Raise _ | OutOfFuel => False
       end)
    ∧ (∀ e : Edge, GetNumCommonChars e [] = Raise "invalid remainder")
    ∧ (∀ (h : heap C) (np : ptr) (u : bool),
         Node_Eat np [] u h = (Raise "invalid remainder", h))
    ∧ (∀ (h : heap C) (p : ptr) (e : Edge) (k : nat) (r : str) (u : bool),
         edges h !! p = Some e →
         k = 0 ∨ length (m_Value e) `min` length r < k ∨ r = [] →
         ∃ msg, Edge_Eat p k r u h = (Raise msg, h))).
Proof.
  apply each_strategy_intro.
  - intros C E HE. split_and!.
    + intros calls value.
      apply (IsUnique_safe (run calls RadixTree.new) value), run_safe, heap_ok_new.
    + done.
    + done.
    + apply Edge_Eat_raises.
  - split_and!.
    + intros calls value.
      destruct (Ordered_IsUnique (run calls RadixTree.new) value) as [->|[-> _]]; [|done].
      apply (@IsUnique_safe _ OrderedEdges_guarded OrderedEdges_guarded_Ok).
      apply Ordered_run_safe, (@heap_ok_new _ OrderedEdges_guarded OrderedEdges_guarded_Ok).
    + done.
    + done.
    + apply Edge_Eat_raises.
Qed.

Lemma C9_no_raise_witness :
  let h := store (run [CallIsUnique (of_string "12")]
                    (RadixTree.new (C := IndexedEdges.Container))) in
  edges h !! 0 = Some (mkEdge (of_string "12") 1)
  ∧ (0 = 0 ∨ length (of_string "12") `min` length (of_string "1") < 0 ∨ of_string "1" = [])
  ∧ ∃ msg, Edge_Eat 0 0 (of_string "1") false h = (Raise msg, h).
Proof.
  split; [reflexivity|]. split; [by left|].
  refine (proj2 (proj2 (proj2 (proj2 (proj2 C9_no_raise)))) _ 0
            (mkEdge (of_string "12") 1) 0 (of_string "1") false _ _);
    [reflexivity|by left].
Defined.

(** ** The tree as the store shows it *)

(** Every label of the tree has a character. *)
Inductive t_nonempty : tree → Prop :=
| t_nonempty_node a ks :
    Forall (λ k, k.1.2 ≠ [] ∧ t_nonempty k.2) ks → t_nonempty (TNode a ks).

Lemma t_full_nonempty t : ∀ n, t_full n t → t_nonempty t.
Proof.
  induction t as [a ks IH] using tree_ind'. intros n Hfull. constructor.
  apply t_full_inv in Hfull as [[_ ->]|(_ & _ & _ & Hall)]; [constructor|].
  rewrite Forall_forall in IH. rewrite Forall_forall in Hall.
  apply Forall_forall. intros k Hk.
  destruct (Hall k Hk) as (? & _ & ?). eauto.
Qed.

Section Reach.
Context {C : Type} `{!Edges C} `{!EdgesOk C}.

(** [reachable h a b]: from the node at [a] the edges of the store lead
    to the node at [b]. *)
Inductive reachable (h : heap C) : ptr → ptr → Prop :=
| reach_here a : reachable h a a
| reach_edge a n p e b :
    nodes h !! a = Some n → p ∈ GetContainer (m_Edges n) →
    edges h !! p = Some e → reachable h (m_Next e) b →
    reachable h a b.

(** The edges of a node of the store are the kids of the tree. *)
Lemma repr_kid (h : heap C) a ks n p :
  repr h (TNode a ks) → nodes h !! a = Some n → p ∈ GetContainer (m_Edges n) →
  ∃ l c, (p, l, c) ∈ ks ∧ edges h !! p = Some (mkEdge l (t_addr c)) ∧ repr h c.
Proof.
  intros (n' & Hn' & Hc & Hall)%repr_inv Hn Hp.
  assert (n' = n) as -> by congruence.
  rewrite (cok_elems _ _ Hc) in Hp.
  apply list_elem_of_fmap in Hp as ([p' l] & -> & ([[p'' l'] c] & [= -> ->] & Hin)%list_elem_of_fmap).
  rewrite Forall_forall in Hall. destruct (Hall _ Hin) as [He Hr]. simpl in *. eauto.
Qed.

(** What is reached from the root of a tree is a node of the tree. *)
Lemma repr_reachable (h : heap C) a b :
  reachable h a b →
  ∀ t, t_addr t = a → repr h t → t_nonempty t →
  ∃ t', t_addr t' = b ∧ repr h t' ∧ t_nonempty t'.
Proof.
  induction 1 as [a|a n p e b Hn Hp He _ IH]; intros [a' ks] Ha Hr Hne; simpl in Ha; subst a'.
  { by exists (TNode a ks). }
  destruct (repr_kid h a ks n p Hr Hn Hp) as (l & c & Hin & He' & Hrc).
  assert (e = mkEdge l (t_addr c)) as -> by congruence. simpl in IH.
  apply (IH c); [done|done|].
  inversion Hne as [?? Hall]; subst. rewrite Forall_forall in Hall.
  by destruct (Hall _ Hin).
Qed.

(** No node of an engine holding values of one length has an edge
    without characters. *)
Lemma holds_nonempty n (s : CompactRadixTreeAlgorithm C) t m np nd p e :
  holds n s t m →
  reachable (store s) (m_Root s) np → nodes (store s) !! np = Some nd →
  p ∈ GetContainer (m_Edges nd) → edges (store s) !! p = Some e →
  m_Value e ≠ [].
Proof.
  intros (Hr & Ha & _ & _ & Hroot & _) Hreach Hnd Hp He.
  assert (t_nonempty t) as Hne.
  { destruct Hroot as [Hk|Hf]; [|by eapply t_full_nonempty].
    destruct t as [a ks]. simpl in Hk. subst ks. constructor. constructor. }
  destruct (repr_reachable _ _ _ Hreach t Ha Hr Hne) as ([a' ks'] & Ha' & Hr' & Hne').
  simpl in Ha'. subst a'.
  destruct (repr_kid _ _ _ _ _ Hr' Hnd Hp) as (l & c & Hin & He' & _).
  assert (e = mkEdge l (t_addr c)) as -> by congruence. simpl.
  inversion Hne' as [?? Hall]; subst. rewrite Forall_forall in Hall.
  by destruct (Hall _ Hin).
Qed.
End Reach.

Lemma Ordered_reachable (h : heap OrderedEdges.Container) a b :
  reachable h a b → @reachable _ OrderedEdges_guarded h a b.
Proof.
  induction 1 as [a|a n p e b Hn Hp He _ IH]; [constructor|].
  by apply (@reach_edge _ OrderedEdges_guarded h a n p e b).
Qed.

(** Whatever the calls with values of [n] digits return, the engine
    holds a tree of such values. *)
Lemma Ordered_run_calls_holds_some n vs (init : OrderedTree) t :
  0 < n → holds_guarded n init t ∅ → forallb (digit_value n) vs = true →
  ∃ t' m, holds_guarded n (run_calls vs init).2 t' m.
Proof.
  intros Hn Hh Hvs.
  apply (Ordered_run_calls_inv (λ s, ∃ t' m, holds_guarded n s t' m)
           (λ v, digit_value n v = true)).
  - intros s v Hv (t' & m & Hs).
    destruct (@IsUnique_holds _ OrderedEdges_guarded OrderedEdges_guarded_Ok
                n s t' m v Hn Hs Hv) as (s' & Hcall & Hs' & _).
    rewrite Hcall. by eexists _, _.
  - apply Forall_forall. intros v Hv. rewrite forallb_forall in Hvs.
    by apply Hvs, list_elem_of_In.
  - by eexists _, _.
Qed.

Lemma Ordered_run_call_le (s : OrderedTree) c :
  heap_ok_guarded (store s) →
  edges_le (edges (store s)) (edges (store (run_call c s))).
Proof.
  intros Hok.
  destruct (@run_call_safe _ OrderedEdges_guarded OrderedEdges_guarded_Ok s c Hok)
    as [_ Hle].
  destruct c as [|v]; [exact Hle|]. cbn [run_call] in *.
  change (@IsUnique _ (@CompactRadixTree_Algorithm _ OrderedEdges_guarded) v s)
    with (IsUnique_guarded v s) in Hle.
  destruct (Ordered_IsUnique s v) as [->|[-> _]]; [done|apply edges_le_refl].
Qed.

(** C6, as amended: when all values since the construction or the last
    [Reset] are strings of [n] digits for one [n > 0], every edge of
    every node reached from the root has a label with at least one
    character.  And whatever the calls, a call leaves every edge of the
    store in place with a label that is a prefix of the one it had and
    starts with the same character: a label changes only by being cut
    to its first characters. *)
Theorem C6_labels_nonempty :
  each_strategy (λ C _,
    (∀ (n : nat) (s0 init : CompactRadixTreeAlgorithm C) (vs : list str)
       (np : ptr) (nd : Node C) (p : ptr) (e : Edge),
       0 < n → forallb (digit_value n) vs = true →
       init = RadixTree.new ∨ init = (Reset s0).2 →
       let s := (run_calls vs init).2 in
       reachable (store s) (m_Root s) np → nodes (store s) !! np = Some nd →
       p ∈ GetContainer (m_Edges nd) → edges (store s) !! p = Some e →
       m_Value e ≠ [])
    ∧ (∀ (calls : list call) (c : call) (p : ptr) (e : Edge),
         let s := run calls (RadixTree.new (C := C)) in
         edges (store s) !! p = Some e →
         ∃ e', edges (store (run_call c s)) !! p = Some e'
               ∧ m_Value e' `prefix_of` m_Value e
               ∧ head (m_Value e') = head (m_Value e))).
Proof.
  apply each_strategy_intro.
  - intros C E HE. split.
    + intros n s0 init vs np nd p e Hn Hvs Hinit s.
      assert (∃ t, holds n init t ∅) as [t Hh].
      { destruct Hinit as [->| ->]; eexists;
          [by apply holds_new|by apply (holds_Reset n s0)]. }
      destruct (run_calls_holds n vs init t ∅ Hn Hh Hvs) as [_ Hh'].
      by apply holds_nonempty with (1 := Hh').
    + intros calls c p e s He.
      destruct (run_call_safe s c) as [_ Hle]; [apply run_safe, heap_ok_new|].
      by apply Hle.
  - split.
    + intros n s0 init vs np nd p e Hn Hvs Hinit s Hreach.
      assert (∃ t, holds_guarded n init t ∅) as [t Hh].
      { destruct Hinit as [->| ->]; eexists;
          [by apply (@holds_new _ OrderedEdges_guarded OrderedEdges_guarded_Ok)
          |by apply (@holds_Reset _ OrderedEdges_guarded OrderedEdges_guarded_Ok n s0)]. }
      destruct (Ordered_run_calls_holds_some n vs init t Hn Hh Hvs) as (t' & m & Hh').
      apply (@holds_nonempty _ OrderedEdges_guarded OrderedEdges_guarded_Ok
               n _ t' m np nd p e Hh').
      by apply Ordered_reachable.
    + intros calls c p e s He.
      apply (Ordered_run_call_le s c); [|done].
      apply Ordered_run_safe, (@heap_ok_new _ OrderedEdges_guarded OrderedEdges_guarded_Ok).
Qed.

Lemma C6_labels_nonempty_witness :
  let vs := [of_string "12"; of_string "13"] in
  let s := (run_calls vs (RadixTree.new (C := IndexedEdges.Container))).2 in
  0 < 2 ∧ forallb (digit_value 2) vs = true
  ∧ edges (store s) !! 2 = Some (mkEdge (of_string "3") 2)
  ∧ m_Value (mkEdge (of_string "3") 2) ≠ [].
Proof.
  split; [lia|]. split; [reflexivity|]. split; [reflexivity|].
  pose proof (proj1 (proj2 (proj2 C6_labels_nonempty))) as H. cbv beta in H.
  refine (H 2 RadixTree.new RadixTree.new [of_string "12"; of_string "13"] 3
            (mkNode (C := IndexedEdges.Container)
               [None; None; Some 1; Some 2; None; None; None; None; None; None])
            2 (mkEdge (of_string "3") 2) _ _ _ _ _ _ _).
  - lia.
  - reflexivity.
  - by left.
  - apply (reach_edge _ 0
             (mkNode (C := IndexedEdges.Container)
                [None; Some 0; None; None; None; None; None; None; None; None])
             0 (mkEdge (of_string "1") 3) 3); [reflexivity| |reflexivity|apply reach_here].
    apply list_elem_of_In. vm_compute. by left.
  - reflexivity.
  - apply list_elem_of_In. vm_compute. right. by left.
  - reflexivity.
Defined.

(** C6 as stated fails for values of different lengths: after ["12"] the
    value ["1"], which is the whole common prefix, makes the split build
    an edge without characters.  The two collections that can hold it
    attach it to the node put on the split edge; the digit-indexed one
    creates it and stops at its slot. *)
Lemma C6_counterexample :
  let vs := [of_string "12"; of_string "1"] in
  let sU := (run_calls vs (RadixTree.new (C := UnorderedEdges.Container))).2 in
  let sO := (run_calls vs (RadixTree.new (C := OrderedEdges.Container))).2 in
  forallb (λ v, negb (length v =? 0) && forallb isdigit v) vs = true
  ∧ ((run_calls vs (RadixTree.new (C := UnorderedEdges.Container))).1 = [Ok true; Ok true]
     ∧ m_Root sU = 0
     ∧ nodes (store sU) !! 0 = Some (mkNode (C := UnorderedEdges.Container) [0])
     ∧ edges (store sU) !! 0 = Some (mkEdge (of_string "1") 3)
     ∧ nodes (store sU) !! 3 = Some (mkNode (C := UnorderedEdges.Container) [1; 2])
     ∧ edges (store sU) !! 2 = Some (mkEdge [] 2))
  ∧ ((run_calls vs (RadixTree.new (C := OrderedEdges.Container))).1 = [Ok true; Ok true]
     ∧ m_Root sO = 0
     ∧ GetContainer <$> (m_Edges <$> nodes (store sO) !! 0) = Some [0]
     ∧ edges (store sO) !! 0 = Some (mkEdge (of_string "1") 3)
     ∧ GetContainer <$> (m_Edges <$> nodes (store sO) !! 3) = Some [2; 1]
     ∧ edges (store sO) !! 2 = Some (mkEdge [] 2))
  ∧ run_calls vs (RadixTree.new (C := IndexedEdges.Container))
    = ([Ok true; Undefined],
       mkTree 0
         {| nodes := [mkNode (C := IndexedEdges.Container)
                        [None; Some 0; None; None; None; None; None; None; None; None];
                      mkNode (C := IndexedEdges.Container)
                        [None; None; None; None; None; None; None; None; None; None];
                      mkNode (C := IndexedEdges.Container)
                        [None; None; None; None; None; None; None; None; None; None]];
            edges := [mkEdge (of_string "1") 1; mkEdge (of_string "2") 1; mkEdge [] 2] |}).
Proof. cbv zeta. split_and!; vm_compute; reflexivity. Qed.

Section Split.
Context {C : Type} `{!Edges C} `{!EdgesOk C}.

Lemma GetContainer_new : GetContainer (Edges_new (C := C)) = [].
Proof. apply Permutation_nil_r. apply (cok_elems [] _ cok_new). Qed.

(** The split of an edge whose label and the remainder part ways after
    [k] characters, both going on with a digit. *)
Lemma Edge_Eat_split_digits (h : heap C) p l nx r u :
  edges h !! p = Some (mkEdge l nx) →
  let k := common_chars l r in
  0 < k → k < length l → k < length r →
  forallb isdigit (drop k l) = true → forallb isdigit (drop k r) = true →
  ∃ c2, GetContainer c2 ≡ₚ [length (edges h); S (length (edges h))]
        ∧ Edge_Eat p k r u h
          = (Ok (None, [], true),
             mkHeap (nodes h ++ [mkNode Edges_new; mkNode c2])
               (<[p := mkEdge (take k l) (S (length (nodes h)))]>
                  (edges h ++ [mkEdge (drop k l) nx;
                               mkEdge (drop k r) (length (nodes h))]))).
Proof.
  intros He k Hpos Hl Hr Hdl Hdr.
  assert (r ≠ []) as Hne by (intros ->; simpl in Hr; lia).
  assert (drop k l ≠ []) as Hnl.
  { intros Hnil%(f_equal length). rewrite length_drop in Hnil. simpl in Hnil. lia. }
  assert (drop k r ≠ []) as Hnr.
  { intros Hnil%(f_equal length). rewrite length_drop in Hnil. simpl in Hnil. lia. }
  pose proof (Edge_Eat_split h p l nx k r u He Hne eq_refl Hpos Hl) as Hsplit.
  cbv zeta in Hsplit.
  rewrite !accepts_digits in Hsplit by done. simpl in Hsplit.
  destruct Hsplit as (c2 & Hc2 & Heat). exists c2. split; [|exact Heat].
  apply (cok_elems _ _ Hc2).
Qed.
End Split.

(** C3, as amended: for every edge and every remainder whose number [k]
    of common characters with the edge's label is positive and smaller
    than both the length of the label and the length of the remainder,
    the rest of the label and the rest of the remainder being digits,
    [Edge::Eat] splits the edge.  The label becomes its first [k]
    characters, which are also the first [k] of the remainder; the edge
    now leads to a new node with exactly two edges, both new: one with
    the rest of the label leading to the node the edge led to, one with
    the rest of the remainder leading to a new node without edges.
    Nothing else in the store changes.  The call returns no next node,
    an empty remainder and [true], and the loop of [IsUnique] stops
    there with [true]. *)
Theorem C3_split :
  each_strategy (λ C _,
    ∀ (h : heap C) (p : ptr) (l : str) (nx : ptr) (r : str) (u : bool) (fuel : nat),
      edges h !! p = Some (mkEdge l nx) →
      let k := common_chars l r in
      0 < k → k < length l → k < length r →
      forallb isdigit (drop k l) = true → forallb isdigit (drop k r) = true →
      let nn := length (nodes h) in
      let ne := length (edges h) in
      ∃ (h' : heap C) (n1 n2 : Node C),
        Edge_Eat p k r u h = (Ok (None, [], true), h')
        ∧ IsUnique_loop fuel None [] true h' = (Ok true, h')
        ∧ take k l = take k r
        ∧ edges h' !! p = Some (mkEdge (take k l) (S nn))
        ∧ nodes h' !! S nn = Some n2
        ∧ GetContainer (m_Edges n2) ≡ₚ [ne; S ne]
        ∧ edges h' !! ne = Some (mkEdge (drop k l) nx)
        ∧ edges h' !! S ne = Some (mkEdge (drop k r) nn)
        ∧ nodes h' !! nn = Some n1
        ∧ GetContainer (m_Edges n1) = []
        ∧ length (nodes h') = nn + 2 ∧ length (edges h') = ne + 2
        ∧ (∀ a, a < nn → nodes h' !! a = nodes h !! a)
        ∧ (∀ q, q < ne → q ≠ p → edges h' !! q = edges h !! q)).
Proof.
  apply each_strategy_guarded.
  2:{ intros H h p l nx r u fuel He k Hpos Hl Hr Hdl Hdr nn ne.
      destruct (H h p l nx r u fuel He Hpos Hl Hr Hdl Hdr)
        as (h' & n1 & n2 & Heat & _ & Hrest).
      exists h', n1, n2. split; [exact Heat|]. split; [apply IsUnique_loop_nil|exact Hrest]. }
  intros C E HE h p l nx r u fuel He k Hpos Hl Hr Hdl Hdr nn ne.
  destruct (Edge_Eat_split_digits h p l nx r u He Hpos Hl Hr Hdl Hdr) as (c2 & Hc2 & Heat).
  assert (p < ne) as Hp by (by eapply lookup_lt_Some).
  eexists _, (mkNode Edges_new), (mkNode c2). split; [exact Heat|]. simpl.
  split_and!.
  - apply IsUnique_loop_nil.
  - unfold k. apply common_chars_take.
  - apply list_lookup_insert_eq. rewrite length_app. simpl. fold ne. lia.
  - rewrite lookup_app_r by (fold nn; lia).
    by replace (S nn - length (nodes h)) with 1 by (fold nn; lia).
  - done.
  - rewrite list_lookup_insert_ne by lia.
    by rewrite lookup_app_r, Nat.sub_diag by done.
  - rewrite list_lookup_insert_ne by lia.
    rewrite lookup_app_r by (fold ne; lia).
    by replace (S ne - length (edges h)) with 1 by (fold ne; lia).
  - by rewrite lookup_app_r, Nat.sub_diag by done.
  - apply GetContainer_new.
  - rewrite length_app. simpl. done.
  - rewrite length_insert, length_app. simpl. done.
  - intros a Ha. by rewrite lookup_app_l by done.
  - intros q Hq Hqp. rewrite list_lookup_insert_ne by done.
    by rewrite lookup_app_l by done.
Qed.

Lemma C3_split_witness :
  let h := store (run [CallIsUnique (of_string "12")]
                    (RadixTree.new (C := IndexedEdges.Container))) in
  let k := common_chars (of_string "12") (of_string "13") in
  edges h !! 0 = Some (mkEdge (of_string "12") 1)
  ∧ 0 < k ∧ k < length (of_string "12") ∧ k < length (of_string "13")
  ∧ forallb isdigit (drop k (of_string "12")) = true
  ∧ forallb isdigit (drop k (of_string "13")) = true
  ∧ ∃ h', Edge_Eat 0 k (of_string "13") false h = (Ok (None, [], true), h')
          ∧ edges h' = [mkEdge (of_string "1") 3; mkEdge (of_string "2") 1;
                        mkEdge (of_string "3") 2].
Proof.
  cbv zeta. split_and!; [reflexivity|vm_compute; lia|vm_compute; lia|vm_compute; lia
                        |reflexivity|reflexivity|].
  pose proof (proj2 (proj2 C3_split)) as H. cbv beta in H.
  destruct (H (store (run [CallIsUnique (of_string "12")]
                        (RadixTree.new (C := IndexedEdges.Container))))
              0 (of_string "12") 1 (of_string "13") false 0)
    as (h' & n1 & n2 & Heat & _);
    [reflexivity|vm_compute; lia|vm_compute; lia|vm_compute; lia|reflexivity|reflexivity|].
  exists h'. split; [exact Heat|].
  vm_compute in Heat. by injection Heat as <-.
Defined.

(** C3 as stated fails when the remainder ends where it parts from the
    label: with the digit-indexed collection of the program, on the
    edge ["12"] the remainder ["1"] has one common character, fewer than
    the label has, and [Edge::Eat] stops at the slot of the edge it
    makes for the empty rest instead of completing the split. *)
Lemma C3_counterexample :
  let h := store (run [CallIsUnique (of_string "12")]
                    (RadixTree.new (C := IndexedEdges.Container))) in
  let k := common_chars (of_string "12") (of_string "1") in
  edges h !! 0 = Some (mkEdge (of_string "12") 1)
  ∧ of_string "1" ≠ []
  ∧ 0 < k ∧ k < length (of_string "12")
  ∧ (Edge_Eat 0 k (of_string "1") false h).1 = Undefined
  ∧ nodes (Edge_Eat 0 k (of_string "1") false h).2 !! 1
    = Some (mkNode (C := IndexedEdges.Container)
              [None; None; None; None; None; None; None; None; None; None])
  ∧ edges (Edge_Eat 0 k (of_string "1") false h).2
    = [mkEdge (of_string "1") 1; mkEdge (of_string "2") 1; mkEdge [] 2].
Proof. cbv zeta. split_and!; try done; vm_compute; try lia; reflexivity. Qed.

(** ** The three collections side by side *)

(** The collection obtained by adding the edges [ps] one after the
    other. *)
Fixpoint add_all {C} `{!Edges C} (es : list Edge) (ps : list ptr) (c : C) : outcome C :=
  match ps with
  | [] => Ok c
  | p :: ps' => c' ← Add es p c; add_all es ps' c'
  end.

(** The edges [ps] with the labels they have in [es]. *)
Definition labels_of (es : list Edge) (ps : list ptr) : list (ptr * str) :=
  (λ p, (p, from_option m_Value [] (es !! p))) <$> ps.

(** [shows h t]: the store [h] has the nodes and edges of [t], in any
    order the collection of a node lists its edges. *)
Inductive shows {C} `{!Edges C} (h : heap C) : tree → Prop :=
| shows_node a ks n :
    nodes h !! a = Some n →
    GetContainer (m_Edges n) ≡ₚ ks.*1.*1 →
    Forall (λ k, edges h !! k.1.1 = Some (mkEdge k.1.2 (t_addr k.2)) ∧ shows h k.2) ks →
    shows h (TNode a ks).

Section Side_by_side.
Context {C : Type} `{!Edges C} `{!EdgesOk C}.

Lemma repr_shows (h : heap C) t : repr h t → shows h t.
Proof.
  induction t as [a ks IH] using tree_ind'. intros (n & Hn & Hc & Hall)%repr_inv.
  apply (shows_node h a ks n Hn); [by apply cok_elems|].
  rewrite Forall_forall in IH. rewrite Forall_forall in Hall.
  apply Forall_forall. intros k Hk. destruct (Hall k Hk). split; [done|]. by apply IH.
Qed.

Lemma labels_of_labelled es ps :
  Forall (λ p, is_Some (es !! p)) ps → labelled es (labels_of es ps).
Proof.
  rewrite Forall_forall. intros Hall p l (p' & [= -> ->] & Hin)%list_elem_of_fmap.
  destruct (Hall _ Hin) as [e He]. exists e. by rewrite He.
Qed.

Lemma add_all_cok es ps : ∀ les (c c' : C),
  cok les c → labelled es les → sib_ok (les ++ labels_of es ps) →
  Forall (λ p, is_Some (es !! p)) ps →
  add_all es ps c = Ok c' → cok (les ++ labels_of es ps) c'.
Proof.
  induction ps as [|p ps IH]; intros les c c' Hc Hlab Hsib Hall Hadd; simpl in *.
  { rewrite app_nil_r. congruence. }
  apply Forall_cons in Hall as [[e He] Hall].
  set (l := from_option m_Value [] (es !! p)) in *.
  assert (sib_ok (les ++ [(p, l)])) as Hsib1.
  { unfold sib_ok in *. rewrite cons_middle, (assoc_L (++)) in Hsib.
    rewrite !fmap_app in Hsib. rewrite !fmap_app. by apply NoDup_app in Hsib as [? _]. }
  assert (labelled es (les ++ [(p, l)])) as Hlab1.
  { apply labelled_app. split; [done|]. intros ?? [= -> ->]%list_elem_of_singleton.
    exists e. split; [done|]. unfold l. by rewrite He. }
  pose proof (Add_ok es les c p l Hc Hsib1 Hlab1) as Ha.
  destruct (accepts l).
  - destruct Ha as (c1 & Hc1 & Hcok). rewrite Hc1 in Hadd. simpl in Hadd.
    rewrite cons_middle, (assoc_L (++)).
    apply (IH _ c1); [done|done| |done|done].
    by rewrite <- (assoc_L (++)), <- cons_middle.
  - by rewrite Ha in Hadd.
Qed.

Lemma labels_of_shortened es es' ps :
  Forall (λ p, is_Some (es !! p)) ps → edges_le es es' →
  shortened (labels_of es ps) (labels_of es' ps)
  ∧ Forall (λ p, is_Some (es' !! p)) ps.
Proof.
  intros Hall Hle. induction Hall as [|p ps [e He] _ [IH1 IH2]]; simpl.
  { split; constructor. }
  destruct (Hle p e He) as (e' & He' & Hpre & Hhd).
  split; [|by constructor]. constructor; [|done]. simpl. by rewrite He, He'.
Qed.

(** A collection filled by [Add] finds the edge starting like the
    remainder, also after labels were cut. *)
Lemma add_all_Find es es' ps (c : C) r :
  Forall (λ p, is_Some (es !! p)) ps → sib_ok (labels_of es ps) →
  add_all es ps Edges_new = Ok c → edges_le es es' →
  r ≠ [] → forallb isdigit r = true →
  Find es' r c = Ok (find_edge (labels_of es' ps) r).
Proof.
  intros Hall Hsib Hadd Hle Hr Hd.
  pose proof (add_all_cok es ps [] Edges_new c cok_new) as Hc. simpl in Hc.
  destruct (labels_of_shortened es es' ps Hall Hle) as [Hs Hall'].
  rewrite (Find_ok es' (labels_of es' ps) c r); [by rewrite accepts_digits| | | |done].
  - apply (cok_shorten (labels_of es ps)); [|done].
    apply Hc; [by intros ?? ?%elem_of_nil|done..].
  - by apply (shortened_sib_ok (labels_of es ps)).
  - by apply labels_of_labelled.
Qed.

End Side_by_side.

Lemma Ordered_shows (h : heap OrderedEdges.Container) t :
  @shows _ OrderedEdges_guarded h t → shows h t.
Proof.
  induction t as [a ks IH] using tree_ind'. intros Hs.
  inversion Hs as [a' ks' n Hn Hp Hall]; subst.
  apply (@shows_node _ OrderedEdges_Edges h a ks n Hn Hp).
  rewrite Forall_forall in IH. rewrite Forall_forall in Hall.
  apply Forall_forall. intros k Hk. destruct (Hall k Hk). split; [done|]. by apply IH.
Qed.

Lemma Ordered_add_all es ps : ∀ c : OrderedEdges.Container,
  add_all es ps c = @add_all _ OrderedEdges_guarded es ps c.
Proof.
  induction ps as [|p ps IH]; intros c; [done|]. cbn [add_all].
  change (@Add _ OrderedEdges_guarded) with (@Add _ OrderedEdges_Edges).
  destruct (Add es p c); obind_simpl; [apply IH|done..].
Qed.




(** * Further properties of the code *)

(** ** What a call does to the engine *)

Lemma IsUnique_effect {C} `{!Edges C} (s s' : CompactRadixTreeAlgorithm C) (value : str) b :
  IsUnique value s = (Ok b, s') →
  if b then
    m_Root s' = m_Root s
    ∧ ((length (nodes (store s')) = length (nodes (store s)) + 1
        ∧ length (edges (store s')) = length (edges (store s)) + 1)
       ∨ (length (nodes (store s')) = length (nodes (store s)) + 2
          ∧ length (edges (store s')) = length (edges (store s)) + 2))
  else s' = s.
Proof.
  change (IsUnique value s) with (RadixTree.IsUnique value s). unfold RadixTree.IsUnique.
  destruct (IsUnique_loop _ _ _ _ _) as [o h'] eqn:Hloop. intros [= -> <-].
  apply IsUnique_loop_effect in Hloop as [[-> ->]|[-> Hg]].
  - by destruct s.
  - split; [done|]. exact Hg.
Qed.

(** X1: a call of [IsUnique] that returns [false] has changed nothing:
    the engine is in the state it was in, for every state, every value
    and every edge collection. *)
Theorem IsUnique_false_unchanged {C} `{!Edges C}
    (s s' : CompactRadixTreeAlgorithm C) (value : str) :
  IsUnique value s = (Ok false, s') → s' = s.
Proof. apply (IsUnique_effect s s' value false). Qed.

Lemma IsUnique_false_unchanged_witness :
  let s := (run_calls [of_string "12"; of_string "13"]
              (RadixTree.new (C := IndexedEdges.Container))).2 in
  IsUnique (of_string "13") s = (Ok false, s) ∧ s = s.
Proof.
  cbv zeta. split; [reflexivity|].
  refine (IsUnique_false_unchanged _ _ (of_string "13") _). reflexivity.
Defined.

(** X2: a call of [IsUnique] that returns [true] has created either one
    node and one edge (a new edge on a node) or two nodes and two edges
    (the split of an edge), and has left the root pointer alone. *)
Theorem IsUnique_true_grows {C} `{!Edges C}
    (s s' : CompactRadixTreeAlgorithm C) (value : str) :
  IsUnique value s = (Ok true, s') →
  m_Root s' = m_Root s
  ∧ ((length (nodes (store s')) = length (nodes (store s)) + 1
      ∧ length (edges (store s')) = length (edges (store s)) + 1)
     ∨ (length (nodes (store s')) = length (nodes (store s)) + 2
        ∧ length (edges (store s')) = length (edges (store s)) + 2)).
Proof. apply (IsUnique_effect s s' value true). Qed.

Lemma IsUnique_true_grows_witness :
  let s := (run_calls [of_string "12"] (RadixTree.new (C := IndexedEdges.Container))).2 in
  let s' := (run_calls [of_string "12"; of_string "13"]
               (RadixTree.new (C := IndexedEdges.Container))).2 in
  IsUnique (of_string "13") s = (Ok true, s')
  ∧ m_Root s' = m_Root s
  ∧ ((length (nodes (store s')) = length (nodes (store s)) + 1
      ∧ length (edges (store s')) = length (edges (store s)) + 1)
     ∨ (length (nodes (store s')) = length (nodes (store s)) + 2
        ∧ length (edges (store s')) = length (edges (store s)) + 2)).
Proof.
  cbv zeta. split; [reflexivity|].
  refine (IsUnique_true_grows _ _ (of_string "13") _). reflexivity.
Defined.

(** X3: the store is as small as the values found new are few.  Over
    calls that all return, the engine creates at least one and at most
    two nodes, and as many edges, for every [true] it returns, and
    nothing else: the size of the tree does not depend on the number of
    digits or of repeats. *)
Theorem store_bound {C} `{!Edges C} (values : list str) :
  ∀ s : CompactRadixTreeAlgorithm C,
    Forall (λ r, ∃ b, r = Ok b) (run_calls values s).1 →
    let s' := (run_calls values s).2 in
    let k := count_true (run_calls values s).1 in
    length (nodes (store s)) + k ≤ length (nodes (store s'))
    ∧ length (nodes (store s')) ≤ length (nodes (store s)) + 2 * k
    ∧ length (edges (store s)) + k ≤ length (edges (store s'))
    ∧ length (edges (store s')) ≤ length (edges (store s)) + 2 * k.
Proof.
  induction values as [|v vs IH]; intros s Hok; cbn [run_calls] in *.
  { cbv zeta. simpl. unfold count_true. simpl. lia. }
  destruct (IsUnique v s) as [r s1] eqn:Hcall.
  specialize (IH s1). destruct (run_calls vs s1) as [rs s2]. cbn [fst snd] in *.
  apply Forall_cons in Hok as [[b ->] Hok]. specialize (IH Hok). cbv zeta in *.
  rewrite count_true_cons. destruct b.
  - apply IsUnique_effect in Hcall as [_ Hg]. rewrite decide_True by done. lia.
  - apply IsUnique_effect in Hcall as ->. rewrite decide_False by done. lia.
Qed.

Lemma store_bound_witness :
  let values := of_string <$> ["123"; "456"; "123"; "457"] in
  let r := run_calls values (RadixTree.new (C := IndexedEdges.Container)) in
  Forall (λ r, ∃ b, r = Ok b) r.1
  ∧ count_true r.1 = 3
  ∧ length (nodes (store r.2)) ≤ 1 + 2 * 3
  ∧ length (edges (store r.2)) ≤ 0 + 2 * 3.
Proof.
  cbv zeta.
  assert (Forall (λ r, ∃ b, r = Ok b)
            (run_calls (of_string <$> ["123"; "456"; "123"; "457"])
               (RadixTree.new (C := IndexedEdges.Container))).1) as Hok.
  { vm_compute. repeat constructor; by eexists. }
  split; [exact Hok|]. split; [reflexivity|].
  destruct (store_bound (of_string <$> ["123"; "456"; "123"; "457"]) RadixTree.new Hok)
    as (_ & H1 & _ & H2).
  split; [exact H1|exact H2].
Defined.

(** ** The common prefix *)

Lemma common_chars_mismatch (l r : str) x y :
  l !! common_chars l r = Some x → r !! common_chars l r = Some y → x ≠ y.
Proof.
  revert r. induction l as [|a l IH]; intros [|b r]; simpl; try done.
  case_decide as Hab; simpl; [apply IH|]. congruence.
Qed.

Lemma common_chars_longest (l r : str) j :
  j ≤ length l → j ≤ length r → take j l = take j r → j ≤ common_chars l r.
Proof.
  revert r j. induction l as [|a l IH]; intros [|b r] [|j]; simpl; try lia.
  intros Hl Hr [= -> Ht]. rewrite decide_True by done.
  specialize (IH r j ltac:(lia) ltac:(lia) Ht). lia.
Qed.

(** X4: on a remainder that is not empty, [GetNumCommonChars] returns
    the length of the longest common prefix of the label and the
    remainder: the first [k] characters agree, [k] exceeds neither
    length, the characters at position [k], where both strings have
    one, differ, and no longer prefix is shared. *)
Theorem GetNumCommonChars_longest_prefix (e : Edge) (remainder : str) :
  remainder ≠ [] →
  ∃ k, GetNumCommonChars e remainder = Ok k
       ∧ k ≤ length (m_Value e) ∧ k ≤ length remainder
       ∧ take k (m_Value e) = take k remainder
       ∧ (∀ x y, m_Value e !! k = Some x → remainder !! k = Some y → x ≠ y)
       ∧ ∀ j, j ≤ length (m_Value e) → j ≤ length remainder →
              take j (m_Value e) = take j remainder → j ≤ k.
Proof.
  intros Hr. exists (common_chars (m_Value e) remainder). split_and!.
  - by destruct remainder.
  - apply common_chars_le_l.
  - apply common_chars_le_r.
  - apply common_chars_take.
  - apply common_chars_mismatch.
  - apply common_chars_longest.
Qed.

Lemma GetNumCommonChars_longest_prefix_witness :
  of_string "4571" ≠ []
  ∧ ∃ k, GetNumCommonChars (mkEdge (of_string "456") 1) (of_string "4571") = Ok k
         ∧ take k (of_string "456") = take k (of_string "4571").
Proof.
  assert (of_string "4571" ≠ []) as Hr by done.
  split; [exact Hr|].
  destruct (GetNumCommonChars_longest_prefix (mkEdge (of_string "456") 1) (of_string "4571") Hr)
    as (k & H1 & _ & _ & H2 & _).
  exists k. split; [exact H1|exact H2].
Defined.

(** ** Adding and finding *)

Lemma labels_of_fst es ps : (labels_of es ps).*1 = ps.
Proof. unfold labels_of. rewrite <- list_fmap_compose. simpl. apply list_fmap_id. Qed.

Lemma labels_of_elem es ps p l :
  (p, l) ∈ labels_of es ps ↔ p ∈ ps ∧ l = from_option m_Value [] (es !! p).
Proof.
  unfold labels_of. rewrite list_elem_of_fmap. split.
  - by intros (p' & [= -> ->] & ?).
  - intros [? ->]. by exists p.
Qed.

Section Add_Find.
Context {C : Type} `{!Edges C} `{!EdgesOk C}.
Context (es : list Edge) (ps : list ptr) (c : C).
Context (Hall : Forall (λ p, is_Some (es !! p)) ps) (Hsib : sib_ok (labels_of es ps)).
Context (Hadd : add_all es ps Edges_new = Ok c).

Lemma add_all_elems : GetContainer c ≡ₚ ps.
Proof.
  pose proof (add_all_cok es ps [] Edges_new c cok_new) as Hc. simpl in Hc.
  rewrite (cok_elems (labels_of es ps) c), labels_of_fst; [done|].
  apply Hc; [by intros ?? ?%elem_of_nil|done..].
Qed.

Lemma add_all_Find_hit (r : str) (p : ptr) (e : Edge) :
  r ≠ [] → forallb isdigit r = true →
  p ∈ ps → es !! p = Some e → head (m_Value e) = head r →
  Find es r c = Ok (common_chars (m_Value e) r, Some p)
  ∧ 0 < common_chars (m_Value e) r.
Proof.
  intros Hr Hd Hp He Hhd.
  assert (0 < common_chars (m_Value e) r) as Hpos.
  { apply common_chars_pos. split; [done|]. intros Hnil. rewrite Hnil in Hhd.
    by destruct r. }
  split; [|done].
  rewrite (add_all_Find es es ps c r Hall Hsib Hadd (edges_le_refl _) Hr Hd).
  f_equal. apply find_edge_hit; [done| |done].
  apply labels_of_elem. split; [done|]. by rewrite He.
Qed.

Lemma add_all_Find_miss (r : str) :
  r ≠ [] → forallb isdigit r = true →
  (∀ p e, p ∈ ps → es !! p = Some e → head (m_Value e) ≠ head r) →
  Find es r c = Ok (0, None).
Proof.
  intros Hr Hd Hmiss.
  rewrite (add_all_Find es es ps c r Hall Hsib Hadd (edges_le_refl _) Hr Hd).
  f_equal. apply find_edge_miss. intros p l [Hp ->]%labels_of_elem.
  rewrite Forall_forall in Hall. destruct (Hall p Hp) as [e He]. rewrite He. simpl.
  apply common_chars_zero. left. by apply (Hmiss p e).
Qed.
End Add_Find.

(** X5: what [Add] has put into a collection, [Find] gets out of it.
    When edges no two of whose labels start alike have been added to an
    empty collection, the collection holds exactly these edges; for a
    remainder of digits [Find] returns the edge whose label starts like
    the remainder, with the number of their common characters.  When no
    label starts like the remainder, [UnorderedEdges] and [IndexedEdges]
    return no edge and the number 0; so does [OrderedEdges] when a key
    of its map is not above the remainder, and when every key is above
    it, [upper_bound] is [begin()] and [Find], which decrements it, is
    undefined. *)
Theorem Add_then_Find :
  unordered_and_indexed (λ C _,
    ∀ (es : list Edge) (ps : list ptr) (c : C),
      Forall (λ p, is_Some (es !! p)) ps → sib_ok (labels_of es ps) →
      add_all es ps Edges_new = Ok c →
      GetContainer c ≡ₚ ps
      ∧ (∀ (r : str) (p : ptr) (e : Edge),
           r ≠ [] → forallb isdigit r = true →
           p ∈ ps → es !! p = Some e → head (m_Value e) = head r →
           Find es r c = Ok (common_chars (m_Value e) r, Some p)
           ∧ 0 < common_chars (m_Value e) r)
      ∧ (∀ r : str,
           r ≠ [] → forallb isdigit r = true →
           (∀ p e, p ∈ ps → es !! p = Some e → head (m_Value e) ≠ head r) →
           Find es r c = Ok (0, None)))
  ∧ ∀ (es : list Edge) (ps : list ptr) (c : OrderedEdges.Container),
      Forall (λ p, is_Some (es !! p)) ps → sib_ok (labels_of es ps) →
      add_all es ps Edges_new = Ok c →
      GetContainer c ≡ₚ ps
      ∧ (∀ (r : str) (p : ptr) (e : Edge),
           r ≠ [] → forallb isdigit r = true →
           p ∈ ps → es !! p = Some e → head (m_Value e) = head r →
           Find es r c = Ok (common_chars (m_Value e) r, Some p)
           ∧ 0 < common_chars (m_Value e) r)
      ∧ (∀ r : str,
           r ≠ [] → forallb isdigit r = true →
           (∀ p e, p ∈ ps → es !! p = Some e → head (m_Value e) ≠ head r) →
           Find es r c
           = if negb (bool_decide (c = [])) && (OrderedEdges.upper_bound r c =? 0)
             then Undefined else Ok (0, None)).
Proof.
  split.
  - apply unordered_and_indexed_intro. intros C E HE es ps c Hall Hsib Hadd.
    split_and!;
      [by eapply add_all_elems|by eapply add_all_Find_hit|by eapply add_all_Find_miss].
  - intros es ps c Hall Hsib Hadd. rewrite Ordered_add_all in Hadd. split_and!.
    + exact (@add_all_elems _ OrderedEdges_guarded OrderedEdges_guarded_Ok
               es ps c Hall Hsib Hadd).
    + intros r p e Hr Hd Hp He Hhd.
      destruct (@add_all_Find_hit _ OrderedEdges_guarded OrderedEdges_guarded_Ok
                  es ps c Hall Hsib Hadd r p e Hr Hd Hp He Hhd) as [HF Hpos].
      split; [|done]. change (Find es r c) with (OrderedEdges.Find es r c).
      rewrite (Ordered_Find_guarded es r c _ HF). cbn [fst].
      destruct (Nat.eqb_spec (common_chars (m_Value e) r) 0); [lia|].
      by rewrite andb_false_r.
    + intros r Hr Hd Hmiss.
      pose proof (@add_all_Find_miss _ OrderedEdges_guarded OrderedEdges_guarded_Ok
                    es ps c Hall Hsib Hadd r Hr Hd Hmiss) as HF.
      change (Find es r c) with (OrderedEdges.Find es r c).
      rewrite (Ordered_Find_guarded es r c _ HF). cbn [fst].
      by rewrite Nat.eqb_refl, andb_true_r.
Qed.

Lemma Add_then_Find_witness :
  let es := [mkEdge (of_string "12") 1; mkEdge (of_string "34") 2] in
  let c : IndexedEdges.Container :=
    [None; Some 0; None; Some 1; None; None; None; None; None; None] in
  Forall (λ p, is_Some (es !! p)) [0; 1] ∧ sib_ok (labels_of es [0; 1])
  ∧ add_all es [0; 1] Edges_new = Ok c
  ∧ (of_string "35" ≠ [] ∧ forallb isdigit (of_string "35") = true
     ∧ 1 ∈ [0; 1] ∧ es !! 1 = Some (mkEdge (of_string "34") 2)
     ∧ head (of_string "34") = head (of_string "35")
     ∧ Find es (of_string "35") c = Ok (common_chars (of_string "34") (of_string "35"), Some 1))
  ∧ (of_string "5" ≠ [] ∧ forallb isdigit (of_string "5") = true
     ∧ (∀ p e, p ∈ [0; 1] → es !! p = Some e → head (m_Value e) ≠ head (of_string "5"))
     ∧ Find es (of_string "5") c = Ok (0, None)).
Proof.
  cbv zeta.
  assert (Forall (λ p, is_Some ([mkEdge (of_string "12") 1; mkEdge (of_string "34") 2] !! p))
            [0; 1]) as Hall.
  { repeat constructor; by eexists. }
  assert (sib_ok (labels_of [mkEdge (of_string "12") 1; mkEdge (of_string "34") 2] [0; 1]))
    as Hsib.
  { unfold sib_ok. simpl. apply NoDup_cons. split; [|apply NoDup_singleton].
    intros [=]%list_elem_of_singleton. }
  assert (1 ∈ [0; 1]) as H1 by (right; left).
  assert (∀ p e, p ∈ [0; 1] →
            [mkEdge (of_string "12") 1; mkEdge (of_string "34") 2] !! p = Some e →
            head (m_Value e) ≠ head (of_string "5")) as Hmiss.
  { intros [|[|p]] e _ [=]; by subst e. }
  destruct (proj2 (proj1 Add_then_Find)
              [mkEdge (of_string "12") 1; mkEdge (of_string "34") 2] [0; 1]
              [None; Some 0; None; Some 1; None; None; None; None; None; None]
              Hall Hsib eq_refl) as (_ & Hhit & Hno).
  split; [exact Hall|]. split; [exact Hsib|]. split; [reflexivity|]. split.
  - split; [done|]. split; [reflexivity|]. split; [exact H1|]. split; [reflexivity|].
    split; [reflexivity|].
    exact (proj1 (Hhit (of_string "35") 1 (mkEdge (of_string "34") 2)
                    ltac:(done) eq_refl H1 eq_refl eq_refl)).
  - split; [done|]. split; [reflexivity|]. split; [exact Hmiss|].
    exact (Hno (of_string "5") ltac:(done) eq_refl Hmiss).
Defined.

(** ** The bounds of the digit-indexed collection *)

(** X6: the engine as the program configures it, with [IndexedEdges],
    has no defined behaviour on a value whose first character is not a
    digit: in every state reached by calls, [IsUnique] indexes the
    vector of the root outside its ten slots, before anything is
    changed. *)
Theorem IsUnique_not_a_digit (calls : list call) (ch : ascii) (value : str) :
  isdigit ch = false →
  let s := run calls (RadixTree.new (C := IndexedEdges.Container)) in
  IsUnique (ch :: value) s = (Undefined, s).
Proof.
  intros Hch s.
  assert (heap_ok (store s)) as Hok by apply run_safe, heap_ok_new.
  change (IsUnique (ch :: value) s) with (RadixTree.IsUnique (ch :: value) s).
  unfold RadixTree.IsUnique. cbn [length IsUnique_loop]. munfold.
  assert (Node_Eat (m_Root s) (ch :: value) false (store s) = (Undefined, store s)) as ->;
    [|by destruct s].
  destruct (nodes (store s) !! m_Root s) as [n|] eqn:Hn.
  - destruct (Hok _ n Hn) as (les & Hc & Hsib & Hlab).
    apply (Node_Eat_reject (store s) (m_Root s) n les Hn Hc Hsib Hlab); [done|].
    change (starts_with_digit (ch :: value) = false). by rewrite starts_with_digit_isdigit.
  - unfold Node_Eat. munfold. by rewrite Hn.
Qed.

Lemma IsUnique_not_a_digit_witness :
  let s := run [CallIsUnique (of_string "12")]
             (RadixTree.new (C := IndexedEdges.Container)) in
  isdigit "a"%char = false ∧ IsUnique (of_string "a2") s = (Undefined, s).
Proof.
  cbv zeta. split; [reflexivity|].
  exact (IsUnique_not_a_digit [CallIsUnique (of_string "12")] "a"%char (of_string "2")
           eq_refl).
Defined.

(** X7: [IndexedEdges::Add] and [IndexedEdges::Find] stay inside the
    vector exactly for a string that starts with a digit.  [Add] then
    stores the edge in the slot of that digit; for an empty label or
    one that starts with another character it has no defined
    behaviour, and so has [Find] for such a remainder. *)
Theorem IndexedEdges_bounds (es : list Edge) (edge : ptr) (e : Edge)
    (c : IndexedEdges.Container) (remainder : str) :
  es !! edge = Some e → length c = 10 →
  (IndexedEdges.Add es edge c
   = match m_Value e with
     | ch :: _ =>
         if isdigit ch then Ok (<[Z.to_nat (code ch - 48) := Some edge]> c) else Undefined
     | [] => Undefined
     end)
  ∧ (match m_Value e with
     | ch :: _ => isdigit ch = true → Z.to_nat (code ch - 48) < 10
     | [] => True
     end)
  ∧ (IndexedEdges.Find es remainder c = Undefined
     ∨ ∃ ch rest, remainder = ch :: rest ∧ isdigit ch = true).
Proof.
  intros He Hlen. unfold IndexedEdges.Add, IndexedEdges.Find, deref_edge. rewrite He.
  obind_simpl. unfold IndexedEdges.in_range. rewrite Hlen.
  assert (∀ s, (0 <=? IndexedEdges.slot_of s)%Z && (IndexedEdges.slot_of s <? Z.of_nat 10)%Z
               = starts_with_digit s) as Hs by done.
  rewrite !Hs. split_and!.
  - destruct (m_Value e) as [|ch l]; [done|]. rewrite starts_with_digit_isdigit. done.
  - destruct (m_Value e) as [|ch l]; [done|]. unfold isdigit.
    intros [?%Z.leb_le ?%Z.leb_le]%andb_prop. lia.
  - destruct remainder as [|ch rest]; [by left|]. rewrite starts_with_digit_isdigit.
    destruct (isdigit ch) eqn:Hd; [right; by exists ch, rest|by left].
Qed.

Lemma IndexedEdges_bounds_witness :
  let es := [mkEdge (of_string "x1") 1] in
  es !! 0 = Some (mkEdge (of_string "x1") 1)
  ∧ length (Edges_new (C := IndexedEdges.Container)) = 10
  ∧ IndexedEdges.Add es 0 Edges_new = Undefined.
Proof.
  cbv zeta. split; [reflexivity|]. split; [reflexivity|].
  exact (proj1 (IndexedEdges_bounds [mkEdge (of_string "x1") 1] 0
                  (mkEdge (of_string "x1") 1) Edges_new [] eq_refl eq_refl)).
Defined.

(** ** Two edges with one label *)

Lemma map_insert_again key edge edge' (c : OrderedEdges.Container) :
  OrderedEdges.map_insert key edge' (OrderedEdges.map_insert key edge c)
  = OrderedEdges.map_insert key edge c.
Proof.
  induction c as [|[k e] c IH]; simpl.
  { by rewrite str_lt_irrefl. }
  destruct (str_lt key k) eqn:H1; simpl.
  { by rewrite str_lt_irrefl. }
  destruct (str_lt k key) eqn:H2; simpl; rewrite H1, H2; [by rewrite IH|done].
Qed.

(** X8: outside the rule that no two edges of a node start alike the
    three collections are not interchangeable.  When two edges with the
    same label, starting with a digit, are added one after the other,
    [UnorderedEdges] holds both, [OrderedEdges] is as if only the first
    had been added ([std::map::insert] keeps the entry it has), and
    [IndexedEdges] is as if only the second had been added (the slot is
    overwritten). *)
Theorem Add_same_label (es : list Edge) (first second : ptr) (e1 e2 : Edge)
    (cU : UnorderedEdges.Container) (cO : OrderedEdges.Container)
    (cI : IndexedEdges.Container) :
  es !! first = Some e1 → es !! second = Some e2 → m_Value e1 = m_Value e2 →
  starts_with_digit (m_Value e1) = true → length cI = 10 →
  (c ← Add es first cU; Add es second c) = Ok (cU ++ [first; second])
  ∧ (c ← Add es first cO; Add es second c) = Add es first cO
  ∧ (c ← Add es first cI; Add es second c) = Add es second cI
  ∧ (∃ c, Add es first cO = Ok c) ∧ (∃ c, Add es second cI = Ok c).
Proof.
  intros H1 H2 Hl Hd Hlen. split_and!.
  - simpl. unfold UnorderedEdges.Add. obind_simpl. by rewrite <- (assoc_L (++)).
  - simpl. unfold OrderedEdges.Add, deref_edge. rewrite H1. obind_simpl. rewrite H2.
    obind_simpl. by rewrite <- Hl, map_insert_again.
  - simpl. unfold IndexedEdges.Add, deref_edge. rewrite H1. obind_simpl.
    unfold IndexedEdges.in_range. rewrite Hlen.
    change ((0 <=? IndexedEdges.slot_of (m_Value e1))%Z
            && (IndexedEdges.slot_of (m_Value e1) <? Z.of_nat 10)%Z)
      with (starts_with_digit (m_Value e1)).
    rewrite Hd. obind_simpl. rewrite H2. obind_simpl. rewrite length_insert, Hlen, <- Hl.
    change ((0 <=? IndexedEdges.slot_of (m_Value e1))%Z
            && (IndexedEdges.slot_of (m_Value e1) <? Z.of_nat 10)%Z)
      with (starts_with_digit (m_Value e1)).
    rewrite Hd. by rewrite list_insert_insert_eq.
  - simpl. unfold OrderedEdges.Add, deref_edge. rewrite H1. by eexists.
  - simpl. unfold IndexedEdges.Add, deref_edge. rewrite H2. obind_simpl.
    unfold IndexedEdges.in_range. rewrite Hlen, <- Hl.
    change ((0 <=? IndexedEdges.slot_of (m_Value e1))%Z
            && (IndexedEdges.slot_of (m_Value e1) <? Z.of_nat 10)%Z)
      with (starts_with_digit (m_Value e1)).
    rewrite Hd. by eexists.
Qed.

Lemma Add_same_label_witness :
  let es := [mkEdge (of_string "12") 1; mkEdge (of_string "12") 2] in
  es !! 0 = Some (mkEdge (of_string "12") 1)
  ∧ es !! 1 = Some (mkEdge (of_string "12") 2)
  ∧ starts_with_digit (of_string "12") = true
  ∧ (c ← Add es 0 (Edges_new (C := OrderedEdges.Container)); Add es 1 c)
    = Add es 0 (Edges_new (C := OrderedEdges.Container))
  ∧ (c ← Add es 0 (Edges_new (C := IndexedEdges.Container)); Add es 1 c)
    = Add es 1 (Edges_new (C := IndexedEdges.Container)).
Proof.
  cbv zeta. split; [reflexivity|]. split; [reflexivity|]. split; [reflexivity|].
  destruct (Add_same_label [mkEdge (of_string "12") 1; mkEdge (of_string "12") 2] 0 1
              (mkEdge (of_string "12") 1) (mkEdge (of_string "12") 2)
              (@Edges_new _ UnorderedEdges_Edges) (@Edges_new _ OrderedEdges_Edges)
              (@Edges_new _ IndexedEdges_Edges)
              eq_refl eq_refl eq_refl eq_refl eq_refl)
    as (_ & HO & HI & _).
  split; [exact HO|exact HI].
Defined.

(** ** [Print]

    [Print] walks the tree and writes one line per edge to [cout]; the
    model keeps the lines written.  The walk iterates over
    [GetContainer()] and reads each position with [GetEdge]. *)

(** The pointers an iteration over [GetContainer()] meets, in order;
    [None] is a null [shared_ptr]. *)
Class EdgesIter (C : Type) : Type := {
  Container_iter : C → list (option ptr)
}.

(** [std::list]: the edges in insertion order. *)
Global Instance UnorderedEdges_Iter : EdgesIter UnorderedEdges.Container := {|
  Container_iter c := Some <$> c
|}.

(** [std::map]: the entries in key order; [GetEdge] reads [second]. *)
Global Instance OrderedEdges_Iter : EdgesIter OrderedEdges.Container := {|
  Container_iter c := Some <$> c.*2
|}.

(** [std::vector]: all ten slots, the empty ones included. *)
Global Instance IndexedEdges_Iter : EdgesIter IndexedEdges.Container := {|
  Container_iter c := c
|}.

(** [cout << ... << endl] *)
Definition cout_line (line : str) : M (list str) unit :=
  λ out, (Ok (), out ++ [line]).

Section Print.
Context {C : Type} `{!Edges C} `{!EdgesIter C}.

(** [std::string::max_size()], which the implementation defines. *)
Variable max_size : N.

(** [string indent(count, ' ')]; the constructor throws
    [std::length_error] above [max_size()]. *)
Definition indent_string (count : N) : M (list str) str :=
  if (max_size <? count)%N then RaiseError "basic_string::_S_create"
  else mret (replicate (N.to_nat count) " "%char).

(** [Node::Print]; [depth] is a [size_t].  The recursion follows the
    edges of the store, hence the fuel. *)
Fixpoint Node_Print (fuel : nat) (h : heap C) (this : ptr) (depth : N)
    : M (list str) unit :=
  match fuel with
  | 0 => lift OutOfFuel
  | S fuel' =>
      match nodes h !! this with
      | None => undefined
      | Some n =>
          indent ← indent_string (size_t_wrap (2 * depth));
          (fix loop (iters : list (option ptr)) : M (list str) unit :=
             match iters with
             | [] => mret ()
             | iter :: iters' =>
                 match iter with
                 | None => undefined
                 | Some p =>
                     match edges h !! p with
                     | None => undefined
                     | Some edge =>
                         cout_line (indent ++ of_string "edge=" ++ m_Value edge);;
                         Node_Print fuel' h (m_Next edge) (size_t_wrap (depth + 1));;
                         loop iters'
                     end
                 end
             end) (Container_iter (m_Edges n))
      end
  end.

(** [CompactRadixTreeAlgorithm::Print]; [m_Root] is never null. *)
Definition Print (fuel : nat) (t : CompactRadixTreeAlgorithm C) : M (list str) unit :=
  cout_line (of_string "PRINTING");;
  Node_Print fuel (store t) (m_Root t) 0;;
  cout_line (of_string "DONE").
End Print.

(** The lines of a tree: every edge on a line of its own, after twice
    as many blanks as it is deep, followed by the lines of the subtree
    it leads to. *)
Fixpoint t_lines (depth : N) (t : tree) : list str :=
  match t with
  | TNode _ ks =>
      flat_map (λ k, (replicate (N.to_nat (2 * depth)) " "%char
                        ++ of_string "edge=" ++ k.1.2)
                     :: t_lines (depth + 1) k.2) ks
  end.

(** The number of edges on the longest way down. *)
Fixpoint t_height (t : tree) : nat :=
  match t with
  | TNode _ ks => foldr (λ k m, S (t_height k.2) `max` m) 0 ks
  end.

Lemma t_height_kid a ks k : k ∈ ks → t_height k.2 < t_height (TNode a ks).
Proof.
  simpl. induction ks as [|k' ks IH]; intros Hin; [by apply elem_of_nil in Hin|].
  apply elem_of_cons in Hin as [->|Hin]; simpl; [lia|]. specialize (IH Hin). lia.
Qed.

Lemma t_full_height t : ∀ n, t_full n t → t_height t ≤ n.
Proof.
  induction t as [a ks IH] using tree_ind'. intros n Hfull.
  apply t_full_inv in Hfull as [[_ ->]|(_ & _ & _ & Hall)]; [simpl; lia|].
  rewrite Forall_forall in IH. rewrite Forall_forall in Hall.
  assert (∀ k, k ∈ ks → S (t_height k.2) ≤ n) as Hk.
  { intros k Hk. destruct (Hall k Hk) as (Hne & Hlen & Hf).
    specialize (IH k Hk _ Hf). destruct (k.1.2); [done|]. simpl in *. lia. }
  clear IH Hall. simpl. induction ks as [|k ks IHks]; simpl; [lia|].
  pose proof (Hk k ltac:(left)). 
  assert (foldr (λ k m, S (t_height k.2) `max` m) 0 ks ≤ n); [|lia].
  apply IHks. intros k' Hk'. apply Hk. by right.
Qed.

Section Print_all.
Context {C : Type} `{!Edges C} `{!EdgesIter C}.
Variable max_size : N.
Hypothesis max_size_size_t : (max_size < 2 ^ 64)%N.

(** A list and a map have no null entries. *)
Hypothesis iter_full : ∀ c : C, Container_iter c = Some <$> GetContainer c.

Lemma indent_string_ok (depth : N) (out : list str) :
  (2 * depth ≤ max_size)%N →
  indent_string max_size (size_t_wrap (2 * depth)) out
  = (Ok (replicate (N.to_nat (2 * depth)) " "%char), out).
Proof using max_size_size_t.
  intros Hd. unfold indent_string, size_t_wrap.
  rewrite N.mod_small by lia.
  by destruct (N.ltb_spec max_size (2 * depth)); [lia|].
Qed.

Lemma Node_Print_lines (h : heap C) t :
  shows h t →
  ∀ fuel depth, t_height t < fuel →
    (2 * (depth + N.of_nat (t_height t)) ≤ max_size)%N →
    ∃ ls, ls ≡ₚ t_lines depth t
          ∧ ∀ out, Node_Print max_size fuel h (t_addr t) depth out = (Ok (), out ++ ls).
Proof using max_size_size_t iter_full.
  induction t as [a ks IH] using tree_ind'.
  intros Hshow fuel depth Hfuel Hmax.
  inversion Hshow as [?? n Hn Hperm Hall]; subst.
  destruct fuel as [|fuel]; [lia|].
  rewrite <- list_fmap_compose in Hperm.
  change (GetContainer (m_Edges n) ≡ₚ map (λ k : ptr * str * tree, k.1.1) ks) in Hperm.
  apply Permutation_map_inv in Hperm as (ks' & Hks' & Hp).
  change (GetContainer (m_Edges n) = (λ k : ptr * str * tree, k.1.1) <$> ks') in Hks'.
  assert (∀ k, k ∈ ks' →
            ∃ ls, ls ≡ₚ t_lines (depth + 1) k.2
                  ∧ edges h !! k.1.1 = Some (mkEdge k.1.2 (t_addr k.2))
                  ∧ ∀ out, Node_Print max_size fuel h (t_addr k.2)
                             (size_t_wrap (depth + 1)) out = (Ok (), out ++ ls)) as Hkids.
  { intros k Hk. rewrite <- Hp in Hk.
    rewrite Forall_forall in IH. rewrite Forall_forall in Hall.
    destruct (Hall k Hk) as [He Hs].
    pose proof (t_height_kid a ks k Hk) as Hh.
    destruct (IH k Hk Hs fuel (depth + 1)%N) as (ls & Hls & Hrun); [lia|lia|].
    exists ls. split_and!; [done..|]. intros out.
    unfold size_t_wrap. rewrite N.mod_small by lia. apply Hrun. }
  cbn [Node_Print t_addr]. rewrite Hn, iter_full, Hks'.
  assert (∃ ls, ls ≡ₚ t_lines depth (TNode a ks')
            ∧ ∀ out,
                (fix loop (iters : list (option ptr)) : M (list str) unit :=
                   match iters with
                   | [] => mret ()
                   | iter :: iters' =>
                       match iter with
                       | None => undefined
                       | Some p =>
                           match edges h !! p with
                           | None => undefined
                           | Some edge =>
                               cout_line (replicate (N.to_nat (2 * depth)) " "%char
                                          ++ of_string "edge=" ++ m_Value edge);;
                               Node_Print max_size fuel h (m_Next edge)
                                 (size_t_wrap (depth + 1));;
                               loop iters'
                           end
                       end
                   end) (Some <$> ((λ k, k.1.1) <$> ks')) out = (Ok (), out ++ ls))
    as (ls & Hls & Hloop).
  { clear Hp Hks'. induction ks' as [|k ks' IHks']; simpl.
    { exists []. split; [done|]. intros out. by rewrite app_nil_r. }
    destruct (Hkids k ltac:(left)) as (ls1 & Hls1 & He & Hrun).
    destruct IHks' as (ls2 & Hls2 & Hrest).
    { intros k' Hk'. apply Hkids. by right. }
    eexists (_ :: ls1 ++ ls2). split.
    - apply Permutation_skip. by rewrite Hls1, Hls2.
    - intros out. rewrite He. unfold mbind, M_bind, cout_line. simpl.
      rewrite Hrun, Hrest. by rewrite <- !(assoc_L (++)). }
  exists ls. split.
  - rewrite Hls. simpl. apply Permutation_flat_map. by symmetry.
  - intros out. unfold mbind at 1. unfold M_bind at 1.
    rewrite indent_string_ok by lia. apply Hloop.
Qed.
End Print_all.

Lemma holds_height {C} `{!Edges C} `{!EdgesOk C} n (s : CompactRadixTreeAlgorithm C) t m :
  holds n s t m → t_height t ≤ n.
Proof.
  intros (_ & _ & _ & _ & [Hk|Hf] & _); [|by apply t_full_height].
  destruct t as [a ks]. simpl in Hk. subst ks. simpl. lia.
Qed.

Section Print_engine.
Context {C : Type} `{!Edges C} `{!EdgesOk C} `{!EdgesIter C}.
Variable max_size : N.
Hypothesis max_size_size_t : (max_size < 2 ^ 64)%N.
Hypothesis iter_full : ∀ c : C, Container_iter c = Some <$> GetContainer c.

Lemma Print_holds n (s : CompactRadixTreeAlgorithm C) t m fuel out :
  holds n s t m → n < fuel → (2 * N.of_nat n ≤ max_size)%N →
  ∃ ls, ls ≡ₚ t_lines 0 t
        ∧ Print max_size fuel s out
          = (Ok (), out ++ of_string "PRINTING" :: ls ++ [of_string "DONE"]).
Proof using max_size_size_t iter_full.
  intros Hh Hfuel Hmax. pose proof (holds_height _ _ _ _ Hh) as Hht.
  destruct Hh as (Hr & Ha & _).
  destruct (Node_Print_lines max_size max_size_size_t iter_full (store s) t
              (repr_shows _ _ Hr) fuel 0%N) as (ls & Hls & Hrun); [lia|lia|].
  exists ls. split; [done|].
  unfold Print, mbind, M_bind, cout_line. rewrite <- Ha, Hrun.
  by rewrite <- !(assoc_L (++)).
Qed.
End Print_engine.

Lemma Unordered_iter_full (c : UnorderedEdges.Container) :
  Container_iter c = Some <$> GetContainer c.
Proof. done. Qed.

Lemma Ordered_iter_full (c : OrderedEdges.Container) :
  Container_iter c = Some <$> GetContainer c.
Proof. done. Qed.

(** X9: with [UnorderedEdges] and with [OrderedEdges], [Print] on an
    engine holding values of [n] digits writes the line [PRINTING],
    then one line for every edge of the tree, which is the label after
    [edge=] behind two blanks for every level of depth, and then the
    line [DONE].  (The walk needs no string longer than [2 * n], so
    that [max_size()] does not matter; the lines of a node come in the
    order of its collection.) *)
Theorem Print_all_edges (max_size : N) (n fuel : nat) (vs : list str) (out : list str) :
  (max_size < 2 ^ 64)%N → (2 * N.of_nat n ≤ max_size)%N →
  0 < n → forallb (digit_value n) vs = true → n < fuel →
  (let s := (run_calls vs (RadixTree.new (C := UnorderedEdges.Container))).2 in
   ∃ t ls, shows (store s) t ∧ t_addr t = m_Root s ∧ ls ≡ₚ t_lines 0 t
           ∧ Print max_size fuel s out
             = (Ok (), out ++ of_string "PRINTING" :: ls ++ [of_string "DONE"]))
  ∧ (let s := (run_calls vs (RadixTree.new (C := OrderedEdges.Container))).2 in
     ∃ t ls, shows (store s) t ∧ t_addr t = m_Root s ∧ ls ≡ₚ t_lines 0 t
             ∧ Print max_size fuel s out
               = (Ok (), out ++ of_string "PRINTING" :: ls ++ [of_string "DONE"])).
Proof.
  intros Hms Hmax Hn Hvs Hfuel. split; cbv zeta.
  - destruct (run_calls_holds n vs (RadixTree.new (C := UnorderedEdges.Container))
                _ ∅ Hn (holds_new n Hn) Hvs) as [_ Hh].
    destruct (Print_holds max_size Hms Unordered_iter_full
                n _ _ _ fuel out Hh Hfuel Hmax)
      as (ls & Hls & Hp).
    destruct Hh as (Hr & Ha & _). eexists _, ls. split_and!; [|done..].
    by apply repr_shows.
  - destruct (Ordered_run_calls_holds_some n vs RadixTree.new _ Hn
                (@holds_new _ OrderedEdges_guarded OrderedEdges_guarded_Ok n Hn) Hvs)
      as (t & m & Hh).
    destruct (@Print_holds _ OrderedEdges_guarded OrderedEdges_guarded_Ok _
                max_size Hms Ordered_iter_full n _ _ _ fuel out Hh Hfuel Hmax)
      as (ls & Hls & Hp).
    destruct Hh as (Hr & Ha & _). exists t, ls. split_and!; [|done..].
    by apply Ordered_shows, (@repr_shows _ OrderedEdges_guarded OrderedEdges_guarded_Ok).
Qed.

Lemma Print_all_edges_witness :
  let vs := [of_string "12"; of_string "13"] in
  let s := (run_calls vs (RadixTree.new (C := UnorderedEdges.Container))).2 in
  ((1000 < 2 ^ 64)%N ∧ (2 * N.of_nat 2 ≤ 1000)%N ∧ 0 < 2
   ∧ forallb (digit_value 2) vs = true ∧ 2 < 3)
  ∧ ∃ ls, Print 1000 3 s [] = (Ok (), [] ++ of_string "PRINTING" :: ls ++ [of_string "DONE"]).
Proof.
  cbv zeta. split; [split_and!; [reflexivity|by vm_compute|lia|reflexivity|lia]|].
  destruct (proj1 (Print_all_edges 1000 2 3 [of_string "12"; of_string "13"] []
                     eq_refl ltac:(by vm_compute) ltac:(lia) eq_refl ltac:(lia)))
    as (t & ls & _ & _ & _ & Hp).
  exists ls. exact Hp.
Defined.

Section Print_indexed.
Variable max_size : N.
Hypothesis max_size_size_t : (max_size < 2 ^ 64)%N.

(** The first slot of a node decides: it is empty, or it leads to a
    node whose first slot decides. *)
Lemma Node_Print_indexed (h : heap IndexedEdges.Container) t :
  repr h t →
  ∀ fuel depth out, t_height t < fuel →
    (2 * (depth + N.of_nat (t_height t)) ≤ max_size)%N →
    (Node_Print max_size fuel h (t_addr t) depth out).1 = Undefined.
Proof using max_size_size_t.
  induction t as [a ks IH] using tree_ind'.
  intros (n & Hn & Hc & Hall)%repr_inv fuel depth out Hfuel Hmax.
  destruct fuel as [|fuel]; [lia|].
  cbn [Node_Print t_addr]. rewrite Hn. unfold mbind at 1. unfold M_bind at 1.
  unfold indent_string, size_t_wrap. rewrite N.mod_small by lia.
  destruct (N.ltb_spec max_size (2 * depth)); [lia|]. unfold mret, M_ret.
  destruct Hc as (Hlen & _ & _ & Hslots).
  change (Container_iter (m_Edges n)) with (m_Edges n).
  destruct (m_Edges n) as [|[p|] c] eqn:Hcn; [done| |done].
  destruct (proj1 (Hslots 0 p) eq_refl) as (l & Hin & _).
  apply list_elem_of_fmap in Hin as ([[p' l'] k] & [= <- <-] & Hin).
  rewrite Forall_forall in IH. rewrite Forall_forall in Hall.
  destruct (Hall _ Hin) as [He Hr]. simpl in He, Hr. rewrite He.
  pose proof (t_height_kid a ks _ Hin) as Hh. cbn [snd] in Hh.
  unfold mbind, M_bind, cout_line. cbn [m_Next].
  specialize (IH _ Hin Hr fuel (depth + 1)%N
                (out ++ [replicate (N.to_nat (2 * depth)) " "%char
                         ++ of_string "edge=" ++ m_Value (mkEdge l (t_addr k))])).
  cbn [snd] in IH. unfold size_t_wrap. rewrite (N.mod_small (depth + 1)) by lia.
  destruct (Node_Print max_size fuel h (t_addr k) (depth + 1) _) as [o out'].
  cbn [fst] in IH. rewrite IH by lia. done.
Qed.
End Print_indexed.

(** X10: with [IndexedEdges], the collection the program is built
    with, [Print] has no defined behaviour on any engine holding values
    of [n] digits, the empty engine included: the walk reads every slot
    of the vector of a node as an edge, and the first slot of a node is
    null or leads to such a node. *)
Theorem Print_indexed_undefined (max_size : N) (n fuel : nat) (vs : list str)
    (s0 init : CompactRadixTreeAlgorithm IndexedEdges.Container) (out : list str) :
  (max_size < 2 ^ 64)%N → (2 * N.of_nat n ≤ max_size)%N →
  0 < n → forallb (digit_value n) vs = true → n < fuel →
  init = RadixTree.new ∨ init = (Reset s0).2 →
  (Print max_size fuel (run_calls vs init).2 out).1 = Undefined.
Proof.
  intros Hms Hmax Hn Hvs Hfuel Hinit.
  assert (∃ t, holds n init t ∅) as [t Hh].
  { destruct Hinit as [->| ->]; eexists; [by apply holds_new|by apply (holds_Reset n s0)]. }
  destruct (run_calls_holds n vs init t ∅ Hn Hh Hvs) as [_ Hh'].
  pose proof (holds_height _ _ _ _ Hh') as Hht.
  destruct Hh' as (Hr & Ha & _).
  unfold Print, mbind, M_bind, cout_line. rewrite <- Ha.
  pose proof (Node_Print_indexed max_size Hms _ _ Hr fuel 0%N (out ++ [of_string "PRINTING"]))
    as Hp.
  destruct (Node_Print max_size fuel _ _ 0 _) as [o out'].
  simpl in Hp. rewrite Hp; [done|lia|lia].
Qed.

Lemma Print_indexed_undefined_witness :
  ((1000 < 2 ^ 64)%N ∧ (2 * N.of_nat 2 ≤ 1000)%N ∧ 0 < 2
   ∧ forallb (digit_value 2) [of_string "02"; of_string "13"] = true ∧ 2 < 3)
  ∧ (Print 1000 3
       (run_calls [of_string "02"; of_string "13"]
          (RadixTree.new (C := IndexedEdges.Container))).2 []).1 = Undefined.
Proof.
  split; [split_and!; [reflexivity|by vm_compute|lia|reflexivity|lia]|].
  exact (Print_indexed_undefined 1000 2 3 [of_string "02"; of_string "13"]
           RadixTree.new RadixTree.new []
           eq_refl ltac:(by vm_compute) ltac:(lia) eq_refl ltac:(lia) (or_introl eq_refl)).
Defined.

(** ** [CreateInstance] and the detectors behind the interface *)

(** [enum AlgorithmType], by the value of its enumerators; the [default]
    label of the [switch] in [CreateInstance] takes every other value. *)
Definition AlgorithmType : Type := Z.
Definition CompactRadixTree : AlgorithmType := 0%Z.
Definition Set_ : AlgorithmType := 1%Z.

(** An object behind a [shared_ptr<IUniqueNumberAlgorithm>]: one of the
    two classes of the program, the tree with the collection the
    program names in [typedef IndexedEdges Edges]. *)
Inductive Algorithm : Type :=
| TreeInstance (tree : CompactRadixTreeAlgorithm IndexedEdges.Container)
| SetInstance (set : SetAlgorithm.Numbers).

(** The virtual calls. *)
Global Instance Algorithm_virtual : IUniqueNumberAlgorithm Algorithm := {|
  Reset a :=
    match a with
    | TreeInstance t => let '(r, t') := Reset t in (r, TreeInstance t')
    | SetInstance s => let '(r, s') := Reset s in (r, SetInstance s')
    end;
  IsUnique number a :=
    match a with
    | TreeInstance t => let '(r, t') := IsUnique number t in (r, TreeInstance t')
    | SetInstance s => let '(r, s') := IsUnique number s in (r, SetInstance s')
    end
|}.

Definition CreateInstance (algorithmType : AlgorithmType) : outcome Algorithm :=
  if (algorithmType =? CompactRadixTree)%Z then Ok (TreeInstance RadixTree.new)
  else if (algorithmType =? Set_)%Z then Ok (SetInstance SetAlgorithm.new)
  else Raise "Invalid algorithmType".

Global Program Instance Algorithm_DetectorOk : DetectorOk Algorithm := {|
  det_inv n a m :=
    match a with
    | TreeInstance t => det_inv n t m
    | SetInstance s => det_inv n s m
    end
|}.
Next Obligation.
intros n [t|s] Hn.
- destruct (det_Reset n t Hn) as [Hr Hinv]. split; [done|exact Hinv].
- done.
Qed.
Next Obligation.
intros n [t|s] m v Hn Hinv Hv.
- destruct (det_IsUnique n t m v Hn Hinv Hv) as [Hr Hinv'].
  cbn [IsUnique Algorithm_virtual]. destruct (IsUnique v t) as [r t']. by split.
- by destruct (det_IsUnique n s m v Hn Hinv Hv).
Qed.

(** ** [ProcessDataset] *)

(** The message [m_CheckNumber] throws on a value it rejects. *)
Definition check_message (n : nat) (number : str) : string :=
  if length number =? n then "Not a number" else "Invalid number of digits".

Section Dataset.
Context {D : Type} `{!IUniqueNumberAlgorithm D} `{!DetectorOk D}.

Lemma process_all_spec values : ∀ (this : UniqueNumberCounter D) m,
  counter_inv this m →
  match find (λ v, negb (digit_value (m_NumExpectedDigits this) v)) values with
  | Some v =>
      (Counter.process_all values this).1
      = Raise (check_message (m_NumExpectedDigits this) v)
  | None =>
      ∃ this', Counter.process_all values this = (Ok (), this')
               ∧ counter_inv this' (list_to_set values ∪ m)
  end.
Proof.
  induction values as [|v values IH]; intros this m Hinv; simpl.
  { exists this. split; [done|]. by rewrite union_empty_l_L. }
  destruct (digit_value (m_NumExpectedDigits this) v) eqn:Hv; simpl.
  - destruct (ProcessNumber_ok this m v Hinv Hv) as (this' & Hp & _ & Hn & _ & Hinv').
    unfold mbind, M_bind. rewrite Hp. specialize (IH this' _ Hinv'). rewrite Hn in IH.
    destruct (find _ values) as [bad|].
    + by destruct (Counter.process_all values this').
    + destruct IH as (this'' & -> & Hinv''). exists this''. split; [done|].
      by replace ({[v]} ∪ list_to_set values ∪ m)
        with (list_to_set values ∪ ({[v]} ∪ m)) by set_solver.
  - unfold mbind, M_bind, Counter.ProcessNumber. rewrite m_CheckNumber_spec, Hv. done.
Qed.

Lemma ProcessDataset_spec_gen (d : D) (n : nat) (dataset : list str) :
  Counter.ProcessDataset n dataset (Some d)
  = if n =? 0 then Raise "numExpectedDigits cannot be zero"
    else match find (λ v, negb (digit_value n v)) dataset with
         | Some v => Raise (check_message n v)
         | None => Ok (size_t_wrap (N.of_nat (length (remove_dups dataset))))
         end.
Proof.
  destruct n as [|n]; [done|]. change (S n =? 0) with false. cbv iota.
  unfold Counter.ProcessDataset.
  destruct (Counter_new_ok d (S n) ltac:(lia)) as (this & -> & Hnn & Hinv). simpl.
  pose proof (process_all_spec dataset this ∅ Hinv) as Hspec. rewrite Hnn in Hspec.
  destruct (find _ dataset) as [bad|].
  - destruct (Counter.process_all dataset this) as [r this']. simpl in Hspec. by subst r.
  - destruct Hspec as (this' & -> & (_ & _ & Hc)). simpl. unfold Counter.GetCount.
    by rewrite Hc, union_empty_r_L, size_list_to_set_remove_dups.
Qed.
End Dataset.

(** X11: what [ProcessDataset] returns, for either detector in any
    state it may have been left in.  With zero digits the counter
    cannot be built.  Otherwise the first entry that has not exactly
    [numDigits] characters, all digits, ends the run with the error of
    [m_CheckNumber], the one on the length if the length is wrong; and
    when there is no such entry the result is the number of distinct
    entries, as a [size_t]. *)
Theorem ProcessDataset_spec (algorithm : Algorithm) (numDigits : nat) (dataset : list str) :
  Counter.ProcessDataset numDigits dataset (Some algorithm)
  = if numDigits =? 0 then Raise "numExpectedDigits cannot be zero"
    else match find (λ v, negb (digit_value numDigits v)) dataset with
         | Some v =>
             Raise (if length v =? numDigits then "Not a number"
                    else "Invalid number of digits")
         | None => Ok (size_t_wrap (N.of_nat (length (remove_dups dataset))))
         end.
Proof. apply ProcessDataset_spec_gen. Qed.

(** X12: [CreateInstance] returns a new detector of the class asked
    for, never a null pointer, and throws for a value that is none of
    the two enumerators.  The two detectors cannot be told apart by
    [ProcessDataset]: on every data set and for every number of digits
    they give the same count or the same error. *)
Theorem CreateInstance_interchangeable :
  CreateInstance CompactRadixTree = Ok (TreeInstance RadixTree.new)
  ∧ CreateInstance Set_ = Ok (SetInstance SetAlgorithm.new)
  ∧ (∀ algorithmType : AlgorithmType,
       algorithmType ≠ CompactRadixTree → algorithmType ≠ Set_ →
       CreateInstance algorithmType = Raise "Invalid algorithmType")
  ∧ ∀ (numDigits : nat) (dataset : list str),
      (algorithm ← CreateInstance CompactRadixTree;
       Counter.ProcessDataset numDigits dataset (Some algorithm))
      = (algorithm ← CreateInstance Set_;
         Counter.ProcessDataset numDigits dataset (Some algorithm)).
Proof.
  split_and!; [done|done| |].
  - intros t H0 H1. unfold CreateInstance.
    destruct (Z.eqb_spec t CompactRadixTree); [done|].
    by destruct (Z.eqb_spec t Set_).
  - intros n dataset. simpl. unfold mbind, outcome_bind.
    by rewrite !ProcessDataset_spec_gen.
Qed.

Lemma CreateInstance_interchangeable_witness :
  (2%Z ≠ CompactRadixTree ∧ 2%Z ≠ Set_)
  ∧ CreateInstance 2%Z = Raise "Invalid algorithmType".
Proof.
  assert (2%Z ≠ CompactRadixTree) as H0 by done.
  assert (2%Z ≠ Set_) as H1 by done.
  split; [by split|].
  exact (proj1 (proj2 (proj2 CreateInstance_interchangeable)) 2%Z H0 H1).
Defined.

(** X13: the set based detector is exact on all strings, of any length
    and any characters, the empty string included: [IsUnique] returns
    [true] exactly for a string not passed since the last [Reset]. *)
Theorem SetAlgorithm_exact (m : SetAlgorithm.Numbers) (values : list str) (number : str) :
  (IsUnique number (run_calls values (Reset m).2).2).1 = Ok (bool_decide (number ∉ values))
  ∧ (IsUnique number (run_calls values SetAlgorithm.new).2).1
    = Ok (bool_decide (number ∉ values)).
Proof.
  change (Reset m).2 with (∅ : gset str). unfold SetAlgorithm.new.
  change (IsUnique number ?d) with (SetAlgorithm.IsUnique number d).
  unfold SetAlgorithm.IsUnique. simpl.
  destruct (Set_run_calls values ∅) as (-> & _).
  split; f_equal; apply bool_decide_ext; set_solver.
Qed.

(** ** Values of any length: what the tree remembers *)

Section Paths.
Context {C : Type} `{!Edges C} `{!EdgesOk C}.

(** Every edge leads to a node of the store. *)
Definition heap_closed (h : heap C) : Prop :=
  ∀ p e, edges h !! p = Some e → m_Next e < length (nodes h).

(** [path h a w b]: from the node [a], the edges whose labels, none
    empty, make up [w] lead to the node [b]. *)
Inductive path (h : heap C) : ptr → str → ptr → Prop :=
| path_here a : a < length (nodes h) → path h a [] a
| path_edge a n p l nx w b :
    nodes h !! a = Some n → p ∈ GetContainer (m_Edges n) →
    edges h !! p = Some (mkEdge l nx) → l ≠ [] →
    path h nx w b → path h a (l ++ w) b.

Lemma path_eq h a w w' b : w = w' → path h a w b → path h a w' b.
Proof. by intros ->. Qed.

Lemma path_end h a w b : path h a w b → b < length (nodes h).
Proof. by induction 1. Qed.

Lemma path_app h a c b w b' :
  path h a c b → path h b w b' → path h a (c ++ w) b'.
Proof.
  induction 1 as [|a n p l nx c b Hn Hp He Hl _ IH]; intros Hw; [done|].
  rewrite <- (assoc_L (++)). eapply path_edge; eauto.
Qed.

(** A new edge on a node keeps the paths there are. *)
Lemma path_new_edge (h : heap C) np c' r a w b :
  (∀ n, nodes h !! np = Some n →
        ∀ p, p ∈ GetContainer (m_Edges n) → p ∈ GetContainer c') →
  path h a w b →
  path (mkHeap (<[np := mkNode c']> (nodes h ++ [mkNode Edges_new]))
          (edges h ++ [mkEdge r (length (nodes h))])) a w b.
Proof.
  intros Hsub. induction 1 as [a Ha|a n p l nx w b Hn Hp He Hl _ IH].
  - apply path_here. simpl. rewrite length_insert, length_app. lia.
  - destruct (decide (a = np)) as [->|Hne].
    + apply (path_edge _ np (mkNode c') p l nx); [|by eapply Hsub| |done|done].
      * simpl. apply list_lookup_insert_eq. rewrite length_app.
        apply lookup_lt_Some in Hn. lia.
      * simpl. by apply lookup_app_l_Some.
    + apply (path_edge _ a n p l nx); [|done| |done|done].
      * simpl. rewrite list_lookup_insert_ne by done. by apply lookup_app_l_Some.
      * simpl. by apply lookup_app_l_Some.
Qed.

(** The split of an edge keeps the paths there are: they pass through
    the node put on the edge. *)
Lemma path_split (h : heap C) p l r k nx c2 a w b :
  edges h !! p = Some (mkEdge l nx) → 0 < k → k < length l →
  GetContainer c2 ≡ₚ [length (edges h); S (length (edges h))] →
  path h a w b →
  path (mkHeap (nodes h ++ [mkNode Edges_new; mkNode c2])
          (split_edges h p l r k nx (S (length (nodes h))))) a w b.
Proof.
  intros Hp Hk Hkl Hc2.
  assert (p < length (edges h)) as Hplt by (by eapply lookup_lt_Some).
  induction 1 as [a Ha|a n q l' nx' w b Hn Hq He Hl _ IH].
  - apply path_here. simpl. rewrite length_app. lia.
  - assert (q < length (edges h)) as Hqlt by (by eapply lookup_lt_Some).
    destruct (decide (q = p)) as [->|Hne].
    + assert (l' = l ∧ nx' = nx) as [-> ->] by (split; congruence).
      replace (l ++ w) with (take k l ++ (drop k l ++ w))
        by (by rewrite (assoc_L (++)), take_drop).
      apply (path_edge _ a n p (take k l) (S (length (nodes h)))).
      * simpl. by apply lookup_app_l_Some.
      * done.
      * simpl. by apply split_edges_this.
      * intros Hnil%(f_equal length). rewrite length_take in Hnil. simpl in Hnil. lia.
      * apply (path_edge _ _ (mkNode c2) (length (edges h)) (drop k l) nx).
        -- simpl. rewrite lookup_app_r by lia.
           by replace (S (length (nodes h)) - length (nodes h)) with 1 by lia.
        -- simpl. rewrite Hc2. left.
        -- simpl. by apply split_edges_first.
        -- intros Hnil%(f_equal length). rewrite length_drop in Hnil. simpl in Hnil. lia.
        -- done.
    + apply (path_edge _ a n q l' nx'); [|done| |done|done].
      * simpl. by apply lookup_app_l_Some.
      * simpl. rewrite split_edges_old by done. done.
Qed.

(** The engine is in order: the collections are, every edge leads to a
    node, and so does the root pointer. *)
Definition engine_ok (s : CompactRadixTreeAlgorithm C) : Prop :=
  heap_ok (store s) ∧ heap_closed (store s) ∧ m_Root s < length (nodes (store s)).

(** One step of the walk, when it returns: either an edge has been
    followed, in the store as it was, or the rest of the value has been
    put into the tree, whose paths are all still there. *)
Lemma Node_Eat_path (h : heap C) a r u next r' u' h' :
  heap_ok h → heap_closed h → r ≠ [] →
  Node_Eat a r u h = (Ok (next, r', u'), h') →
  heap_closed h'
  ∧ (∀ a0 w b0, path h a0 w b0 → path h' a0 w b0)
  ∧ ((∃ c b, r = c ++ r' ∧ next = Some b ∧ path h a c b ∧ u' = u ∧ h' = h)
     ∨ (r' = [] ∧ u' = true ∧ ∃ b, path h' a r b)).
Proof.
  intros Hok Hcl Hr. destruct (nodes h !! a) as [n|] eqn:Hn.
  2:{ unfold Node_Eat. destruct r; [done|]. munfold. by rewrite Hn. }
  destruct (Hok a n Hn) as (les & Hc & Hsib & Hlab).
  destruct (accepts r) eqn:Ha.
  2:{ by rewrite (Node_Eat_reject h a n les) by done. }
  assert (a < length (nodes h)) as Halt by (by eapply lookup_lt_Some).
  destruct (find_edge les r) as [k [p|]] eqn:Hf.
  - pose proof Hf as (l & Hin & Hk & Hpos)%find_edge_Some.
    destruct (labelled_lookup _ _ _ _ Hlab Hin) as [nx He].
    pose proof (common_chars_le_l l r). pose proof (common_chars_le_r l r).
    assert (p ∈ GetContainer (m_Edges n)) as Hp.
    { rewrite (cok_elems _ _ Hc). apply list_elem_of_fmap. by exists (p, l). }
    assert (l ≠ []) as Hl by (intros ->; simpl in *; lia).
    pose proof (Hcl _ _ He) as Hnx. simpl in Hnx.
    destruct (decide (k = length l)) as [Hfull|Hpart].
    + rewrite (Node_Eat_follow h a n les Hn Hc Hsib Hlab r u k p l nx) by done.
      intros [= <- <- <- <-]. split_and!; [done|done|]. left.
      exists l, nx. split_and!; [|done| |done|done].
      * rewrite Hfull. apply common_chars_full. congruence.
      * assert (path h a (l ++ []) nx) as Hpath
          by (eapply path_edge; [done..|]; by apply path_here).
        by rewrite app_nil_r in Hpath.
    + pose proof (Node_Eat_split h a n les Hn Hc Hsib Hlab r u k p l nx Hr Ha Hf He) as Hs.
      destruct (accepts (drop k l) && accepts (drop k r)); [|by rewrite Hs by lia].
      destruct Hs as (c2 & Hc2 & ->); [lia|]. intros [= <- <- <- <-].
      pose proof (cok_elems _ _ Hc2) as Hel. simpl in Hel.
      assert (p < length (edges h)) as Hplt by (by eapply lookup_lt_Some).
      assert (∀ a0 w b0, path h a0 w b0 →
                path (mkHeap (nodes h ++ [mkNode Edges_new; mkNode c2])
                        (split_edges h p l r k nx (S (length (nodes h))))) a0 w b0) as Hkeep.
      { intros a0 w b0. apply path_split; [done|lia|lia|done]. }
      split_and!; [|done|].
      * intros q e. simpl. rewrite length_app. simpl.
        destruct (decide (q = p)) as [->|Hqp].
        { rewrite split_edges_this by done. intros [= <-]. simpl. lia. }
        intros Hq. pose proof (lookup_lt_Some _ _ _ Hq) as Hqlt.
        rewrite split_edges_length in Hqlt.
        destruct (decide (q < length (edges h))) as [Hold|Hnew].
        { rewrite split_edges_old in Hq by done. apply Hcl in Hq. lia. }
        destruct (decide (q = length (edges h))) as [->|Hq2].
        { rewrite split_edges_first in Hq by done. injection Hq as <-. simpl. lia. }
        assert (q = S (length (edges h))) as -> by lia.
        rewrite split_edges_second in Hq by done. injection Hq as <-. simpl. lia.
      * right. split_and!; [done..|].
        assert (take k l ≠ []) as Htk.
        { intros Hnil%(f_equal length). rewrite length_take in Hnil. simpl in Hnil. lia. }
        assert (take k l = take k r) as Htake by (rewrite Hk; apply common_chars_take).
        destruct (decide (drop k r = [])) as [Hdr|Hdr].
        -- exists (S (length (nodes h))).
           apply (path_eq _ _ (take k l ++ []));
             [by rewrite Htake, <- Hdr, take_drop|].
           eapply path_edge.
           ++ simpl. by apply lookup_app_l_Some.
           ++ done.
           ++ simpl. by apply split_edges_this.
           ++ done.
           ++ apply path_here. simpl. rewrite length_app. simpl. lia.
        -- exists (length (nodes h)).
           apply (path_eq _ _ (take k l ++ (drop k r ++ [])));
             [by rewrite app_nil_r, Htake, take_drop|].
           eapply path_edge.
           ++ simpl. by apply lookup_app_l_Some.
           ++ done.
           ++ simpl. by apply split_edges_this.
           ++ done.
           ++ apply (path_edge _ _ (mkNode c2) (S (length (edges h))) (drop k r)
                       (length (nodes h))).
              ** simpl. rewrite lookup_app_r by lia.
                 by replace (S (length (nodes h)) - length (nodes h)) with 1 by lia.
              ** simpl. rewrite Hel. right. left.
              ** simpl. by apply split_edges_second.
              ** done.
              ** apply path_here. simpl. rewrite length_app. simpl. lia.
  - pose proof Hf as [-> _]%find_edge_None.
    destruct (Node_Eat_new h a n les Hn Hc Hsib Hlab r u Hr Ha Hf) as (c' & Hc' & Hsib' & ->).
    intros [= <- <- <- <-].
    pose proof (cok_elems _ _ Hc') as Hel. rewrite fmap_app in Hel. simpl in Hel.
    assert (∀ a0 w b0, path h a0 w b0 →
              path (mkHeap (<[a := mkNode c']> (nodes h ++ [mkNode Edges_new]))
                      (edges h ++ [mkEdge r (length (nodes h))])) a0 w b0) as Hkeep.
    { intros a0 w b0. apply path_new_edge. intros n0 Hn0 q Hq.
      assert (n0 = n) as -> by congruence.
      rewrite Hel. apply elem_of_app. left. by rewrite <- (cok_elems _ _ Hc). }
    split_and!; [|done|].
    + intros q e. simpl. rewrite length_insert, length_app. simpl.
      intros [Hq|[_ Hq]]%lookup_app_Some.
      * apply Hcl in Hq. lia.
      * apply list_lookup_singleton_Some in Hq as [_ <-]. simpl. lia.
    + right. split_and!; [done..|]. exists (length (nodes h)).
      apply (path_eq _ _ (r ++ [])); [by rewrite app_nil_r|].
      apply (path_edge _ a (mkNode c') (length (edges h)) r (length (nodes h))).
      * simpl. apply list_lookup_insert_eq. rewrite length_app. lia.
      * simpl. rewrite Hel. apply elem_of_app. right. left.
      * simpl. by rewrite lookup_app_r, Nat.sub_diag by done.
      * done.
      * apply path_here. simpl. rewrite length_insert, length_app. simpl. lia.
Qed.
End Paths.

Section Walks.
Context {C : Type} `{!Edges C} `{!EdgesOk C}.

(** A walk that returns has kept the store in order and the paths
    there were, and has left a path for its value. *)
Lemma IsUnique_loop_path fuel : ∀ a r u (h : heap C) b h',
  heap_ok h → heap_closed h → a < length (nodes h) → length r ≤ fuel →
  IsUnique_loop fuel (Some a) r u h = (Ok b, h') →
  heap_ok h' ∧ heap_closed h' ∧ length (nodes h) ≤ length (nodes h')
  ∧ (∀ a0 w b0, path h a0 w b0 → path h' a0 w b0)
  ∧ ∃ b', path h' a r b'.
Proof.
  induction fuel as [|fuel IH]; intros a r u h b h' Hok Hcl Ha Hlen.
  { destruct r; [|simpl in Hlen; lia]. intros [= <- <-].
    split_and!; [done..|]. exists a. by apply path_here. }
  destruct r as [|x r].
  { intros [= <- <-]. split_and!; [done..|]. exists a. by apply path_here. }
  cbn [IsUnique_loop]. munfold.
  destruct (Node_Eat a (x :: r) u h) as [o1 h1] eqn:Hstep.
  destruct (Node_Eat_safe h a (x :: r) u o1 h1 Hok ltac:(done) Hstep)
    as (Hok1 & [_ Hle1] & Ho1).
  destruct o1 as [[[next r'] u']| | |]; try done.
  destruct Ho1 as [Hshort Hnext].
  destruct (Node_Eat_path h a (x :: r) u next r' u' h1 Hok Hcl ltac:(done) Hstep)
    as (Hcl1 & Hkeep1 & [(c & b1 & Hr & -> & Hpath & -> & ->)|(-> & -> & b1 & Hpath)]).
  - intros Hrest. pose proof (path_end _ _ _ _ Hpath) as Hb1.
    destruct (IH b1 r' u h b h' Hok Hcl Hb1 ltac:(simpl in *; lia) Hrest)
      as (Hok' & Hcl' & Hle' & Hkeep' & b' & Hpath').
    split_and!; [done..|]. exists b'. rewrite Hr. eapply path_app; [|done]. by apply Hkeep'.
  - rewrite IsUnique_loop_nil. intros [= <- <-]. split_and!; [done..|]. by exists b1.
Qed.

(** A value with a path is walked to its end, and found. *)
Lemma IsUnique_loop_found (h : heap C) a w b :
  path h a w b → heap_ok h →
  ∀ fuel u, length w ≤ fuel →
    (∀ r, r ≠ [] → r `suffix_of` w → accepts r = true) →
    IsUnique_loop fuel (Some a) w u h = (Ok u, h).
Proof.
  intros Hpath Hok. induction Hpath as [a Ha|a n p l nx w b Hn Hp He Hl _ IH];
    intros fuel u Hlen Hacc.
  { apply IsUnique_loop_nil. }
  destruct (Hok a n Hn) as (les & Hc & Hsib & Hlab).
  assert ((p, l) ∈ les) as Hin.
  { rewrite (cok_elems _ _ Hc) in Hp.
    apply list_elem_of_fmap in Hp as ([p' l'] & -> & Hin). simpl in *.
    destruct (Hlab _ _ Hin) as (e & He' & <-). by assert (e = mkEdge l nx) as -> by congruence. }
  assert (l ++ w ≠ []) as Hne by (by destruct l).
  destruct fuel as [|fuel].
  { destruct l; [done|]. simpl in Hlen. lia. }
  assert (find_edge les (l ++ w) = (length l, Some p)) as Hf.
  { pose proof (find_edge_hit les p l (l ++ w) Hsib Hin) as Hhit.
    rewrite common_chars_app in Hhit. apply Hhit. destruct l; [done|]. simpl. lia. }
  rewrite (IsUnique_loop_step fuel a (l ++ w) u h (Some nx) (drop (length l) (l ++ w)) u h
             Hne).
  - rewrite drop_app_length. apply IH.
    + rewrite length_app in Hlen. destruct l; [done|]. simpl in Hlen. lia.
    + intros r Hr Hsuf. apply Hacc; [done|]. by apply suffix_app_r.
  - apply (Node_Eat_follow h a n les Hn Hc Hsib Hlab (l ++ w) u (length l) p l nx);
      [done| |done|done|done].
    by apply Hacc.
Qed.

Lemma engine_ok_new : engine_ok (RadixTree.new (C := C)).
Proof. split_and!; [apply heap_ok_new|by intros ?? ?|simpl; lia]. Qed.

Lemma engine_ok_Reset (s : CompactRadixTreeAlgorithm C) :
  engine_ok s → engine_ok (Reset s).2.
Proof.
  intros (Hok & Hcl & Hroot). split_and!.
  - by destruct (run_call_safe s CallReset Hok).
  - intros p e He. simpl in *. rewrite length_app. apply Hcl in He. lia.
  - simpl. rewrite length_app. simpl. lia.
Qed.

(** The values [m] all have a path from the root. *)
Definition remembers (s : CompactRadixTreeAlgorithm C) (m : list str) : Prop :=
  ∀ w, w ∈ m → ∃ b, path (store s) (m_Root s) w b.

Lemma IsUnique_remembers (s s' : CompactRadixTreeAlgorithm C) m v b :
  engine_ok s → remembers s m → IsUnique v s = (Ok b, s') →
  engine_ok s' ∧ remembers s' (m ++ [v]).
Proof.
  intros (Hok & Hcl & Hroot) Hm.
  change (IsUnique v s) with (RadixTree.IsUnique v s). unfold RadixTree.IsUnique.
  destruct (IsUnique_loop _ _ _ _ _) as [o h'] eqn:Hloop. intros [= -> <-].
  destruct (IsUnique_loop_path _ _ _ _ _ _ _ Hok Hcl Hroot (le_n _) Hloop)
    as (Hok' & Hcl' & Hle' & Hkeep & b' & Hpath).
  split; [split_and!; [done|done|simpl; lia]|].
  intros w [Hw| ->%list_elem_of_singleton]%elem_of_app; simpl.
  - destruct (Hm w Hw) as [b0 Hb0]. exists b0. by apply Hkeep.
  - by exists b'.
Qed.

Lemma run_calls_remembers vs : ∀ (s : CompactRadixTreeAlgorithm C) m,
  engine_ok s → remembers s m →
  Forall (λ r, ∃ b, r = Ok b) (run_calls vs s).1 →
  engine_ok (run_calls vs s).2 ∧ remembers (run_calls vs s).2 (m ++ vs).
Proof.
  induction vs as [|v vs IH]; intros s m Hs Hm Hall; cbn [run_calls] in *.
  { by rewrite app_nil_r. }
  destruct (IsUnique v s) as [r s1] eqn:Hcall.
  specialize (IH s1 (m ++ [v])). destruct (run_calls vs s1) as [rs s2]. cbn [fst snd] in *.
  apply Forall_cons in Hall as [[b ->] Hall].
  destruct (IsUnique_remembers s s1 m v b Hs Hm Hcall) as [Hs1 Hm1].
  rewrite <- (assoc_L (++)) in IH. by apply IH.
Qed.

(** A value that is remembered is reported as seen, and nothing
    changes. *)
Lemma IsUnique_known (s : CompactRadixTreeAlgorithm C) m v :
  engine_ok s → remembers s m → v ∈ m → forallb isdigit v = true →
  IsUnique v s = (Ok false, s).
Proof.
  intros (Hok & _ & _) Hm Hv Hd. destruct (Hm v Hv) as [b Hpath].
  change (IsUnique v s) with (RadixTree.IsUnique v s). unfold RadixTree.IsUnique.
  rewrite (IsUnique_loop_found _ _ _ _ Hpath Hok); [by destruct s|done|].
  intros r Hr [c ->]. apply accepts_digits; [done|].
  rewrite forallb_app in Hd. by apply andb_prop in Hd as [_ ?].
Qed.
End Walks.

Lemma count_true_snoc rs r :
  count_true (rs ++ [r]) = count_true rs + (if decide (r = Ok true) then 1 else 0).
Proof.
  unfold count_true. rewrite filter_app, length_app. f_equal.
  rewrite filter_cons. by destruct (decide _).
Qed.

Lemma size_list_to_set_snoc (vs : list str) v :
  size (list_to_set (vs ++ [v]) : gset str)
  = size (list_to_set vs : gset str) + (if decide (v ∈ vs) then 0 else 1).
Proof.
  rewrite list_to_set_app_L. simpl. rewrite union_empty_r_L. destruct (decide (v ∈ vs)).
  - replace (list_to_set vs ∪ {[v]}) with (list_to_set vs : gset str) by set_solver. lia.
  - rewrite size_union by set_solver. by rewrite size_singleton.
Qed.

(** X14: the tree forgets nothing, whatever the lengths of the values.
    After calls with digit strings of any lengths that all returned, a
    value that was among them is reported as seen, [IsUnique] returns
    [false], and the engine stays as it is. *)
Theorem IsUnique_seen_again :
  each_strategy (λ C _,
    ∀ (values : list str) (v : str),
      Forall (λ r, ∃ b, r = Ok b) (run_calls values (RadixTree.new (C := C))).1 →
      v ∈ values → forallb isdigit v = true →
      IsUnique v (run_calls values (RadixTree.new (C := C))).2
      = (Ok false, (run_calls values (RadixTree.new (C := C))).2)).
Proof.
  apply each_strategy_guarded.
  - intros C E HE vs v Hall Hv Hd.
    destruct (run_calls_remembers vs RadixTree.new [] engine_ok_new) as [Hs Hm];
      [by intros ? ?%elem_of_nil|done|].
    by apply (IsUnique_known _ ([] ++ vs)).
  - intros H vs v Hall Hv Hd. rewrite (Ordered_run_calls vs _ Hall) in Hall |- *.
    specialize (H vs v Hall Hv Hd).
    by destruct (Ordered_IsUnique_cases _ _ _ _ H) as [?|[[=] _]].
Qed.

Lemma IsUnique_seen_again_witness :
  let values := [of_string "123"; of_string "12"; of_string "5"] in
  let s := (run_calls values (RadixTree.new (C := UnorderedEdges.Container))).2 in
  Forall (λ r, ∃ b, r = Ok b)
    (run_calls values (RadixTree.new (C := UnorderedEdges.Container))).1
  ∧ of_string "12" ∈ values ∧ forallb isdigit (of_string "12") = true
  ∧ IsUnique (of_string "12") s = (Ok false, s).
Proof.
  cbv zeta.
  assert (Forall (λ r, ∃ b, r = Ok b)
            (run_calls [of_string "123"; of_string "12"; of_string "5"]
               (RadixTree.new (C := UnorderedEdges.Container))).1) as Hall.
  { vm_compute. repeat constructor; by eexists. }
  assert (of_string "12" ∈ [of_string "123"; of_string "12"; of_string "5"]) as Hin
    by (right; left).
  split; [exact Hall|]. split; [exact Hin|]. split; [reflexivity|].
  exact (proj1 IsUnique_seen_again
           [of_string "123"; of_string "12"; of_string "5"] (of_string "12")
           Hall Hin eq_refl).
Defined.

(** X15: the count can fall short but never exceed.  For digit strings
    of any lengths, over calls that all return, the number of [true]
    results is at most the number of distinct values. *)
Theorem count_never_exceeds :
  each_strategy (λ C _,
    ∀ values : list str,
      forallb (forallb isdigit) values = true →
      Forall (λ r, ∃ b, r = Ok b) (run_calls values (RadixTree.new (C := C))).1 →
      count_true (run_calls values (RadixTree.new (C := C))).1
      ≤ length (remove_dups values)).
Proof.
  apply each_strategy_guarded.
  2:{ intros H vs Hd Hall. rewrite (Ordered_run_calls vs _ Hall) in Hall |- *.
      by apply H. }
  intros C E HE vs.
  rewrite <- size_list_to_set_remove_dups.
  induction vs as [|v vs IH] using rev_ind; intros Hd Hall; [done|].
  rewrite run_calls_app in *. cbn [fst snd] in *.
  rewrite forallb_app in Hd. apply andb_prop in Hd as [Hd Hv]. simpl in Hv.
  apply andb_prop in Hv as [Hv _].
  apply Forall_app in Hall as [Hall Hlast]. specialize (IH Hd Hall).
  cbn [run_calls] in *.
  destruct (IsUnique v (run_calls vs RadixTree.new).2) as [r s'] eqn:Hcall.
  cbn [fst] in *. rewrite count_true_snoc, size_list_to_set_snoc.
  destruct (decide (v ∈ vs)) as [Hin|Hnin].
  - destruct (run_calls_remembers vs RadixTree.new [] engine_ok_new) as [Hs Hm];
      [by intros ? ?%elem_of_nil|done|].
    rewrite (IsUnique_known _ ([] ++ vs) v Hs Hm Hin Hv) in Hcall.
    injection Hcall as <- _. rewrite decide_False by done. lia.
  - destruct (decide (r = Ok true)); lia.
Qed.

Lemma count_never_exceeds_witness :
  let values := [of_string "12"; of_string "13"; of_string "1"; of_string "12"] in
  forallb (forallb isdigit) values = true
  ∧ Forall (λ r, ∃ b, r = Ok b)
      (run_calls values (RadixTree.new (C := IndexedEdges.Container))).1
  ∧ count_true (run_calls values (RadixTree.new (C := IndexedEdges.Container))).1
    ≤ length (remove_dups values).
Proof.
  cbv zeta.
  assert (Forall (λ r, ∃ b, r = Ok b)
            (run_calls [of_string "12"; of_string "13"; of_string "1"; of_string "12"]
               (RadixTree.new (C := IndexedEdges.Container))).1) as Hall.
  { vm_compute. repeat constructor; by eexists. }
  split; [reflexivity|]. split; [exact Hall|].
  exact (proj2 (proj2 count_never_exceeds)
           [of_string "12"; of_string "13"; of_string "1"; of_string "12"] eq_refl Hall).
Defined.

(** ** The collections without bounds *)

Section Total.
Context {C : Type} `{!Edges C} `{!EdgesOk C}.
Hypothesis accepts_all : ∀ s : str, accepts s = true.

Lemma Node_Eat_total (h : heap C) a r u :
  heap_ok h → a < length (nodes h) → r ≠ [] →
  ∃ res h', Node_Eat a r u h = (Ok res, h').
Proof using accepts_all.
  intros Hok Ha Hr. destruct (lookup_lt_is_Some_2 _ _ Ha) as [n Hn].
  destruct (Hok a n Hn) as (les & Hc & Hsib & Hlab).
  destruct (find_edge les r) as [k [p|]] eqn:Hf.
  - pose proof Hf as (l & Hin & Hk & Hpos)%find_edge_Some.
    destruct (labelled_lookup _ _ _ _ Hlab Hin) as [nx He].
    pose proof (common_chars_le_l l r).
    destruct (decide (k = length l)) as [Hfull|Hpart].
    + rewrite (Node_Eat_follow h a n les Hn Hc Hsib Hlab r u k p l nx) by done.
      by eexists _, _.
    + pose proof (Node_Eat_split h a n les Hn Hc Hsib Hlab r u k p l nx Hr
                    (accepts_all _) Hf He) as Hs.
      rewrite !accepts_all in Hs. simpl in Hs.
      destruct Hs as (c2 & _ & ->); [lia|]. by eexists _, _.
  - pose proof Hf as [-> _]%find_edge_None.
    destruct (Node_Eat_new h a n les Hn Hc Hsib Hlab r u Hr (accepts_all _) Hf)
      as (c' & _ & _ & ->).
    by eexists _, _.
Qed.

Lemma IsUnique_loop_total fuel : ∀ a r u (h : heap C),
  heap_ok h → heap_closed h → a < length (nodes h) → length r ≤ fuel →
  ∃ b h', IsUnique_loop fuel (Some a) r u h = (Ok b, h').
Proof using accepts_all.
  induction fuel as [|fuel IH]; intros a r u h Hok Hcl Ha Hlen.
  { destruct r; [|simpl in Hlen; lia]. by eexists _, _. }
  destruct r as [|x r]; [by eexists _, _|].
  destruct (Node_Eat_total h a (x :: r) u Hok Ha ltac:(done)) as ([[next r'] u'] & h1 & Hstep).
  rewrite (IsUnique_loop_step fuel a (x :: r) u h next r' u' h1 ltac:(done) Hstep).
  destruct (Node_Eat_safe h a (x :: r) u _ h1 Hok ltac:(done) Hstep)
    as (Hok1 & _ & Hshort & _).
  destruct (Node_Eat_path h a (x :: r) u next r' u' h1 Hok Hcl ltac:(done) Hstep)
    as (Hcl1 & _ & [(c & b1 & Hr & -> & Hpath & -> & ->)|(-> & -> & _)]).
  - apply IH; [done|done|by eapply path_end|simpl in *; lia].
  - rewrite IsUnique_loop_nil. by eexists _, _.
Qed.

Lemma IsUnique_total (s : CompactRadixTreeAlgorithm C) v :
  engine_ok s → ∃ b s', IsUnique v s = (Ok b, s') ∧ engine_ok s'.
Proof using accepts_all.
  intros Hs. pose proof Hs as (Hok & Hcl & Hroot).
  destruct (IsUnique_loop_total (length v) (m_Root s) v false (store s) Hok Hcl Hroot (le_n _))
    as (b & h' & Hloop).
  assert (IsUnique v s = (Ok b, mkTree (m_Root s) h')) as Hcall.
  { change (IsUnique v s) with (RadixTree.IsUnique v s). unfold RadixTree.IsUnique.
    by rewrite Hloop. }
  eexists _, _. split; [done|].
  by destruct (IsUnique_remembers s _ [] v b Hs ltac:(by intros ? ?%elem_of_nil) Hcall).
Qed.

Lemma run_engine_ok calls : ∀ s : CompactRadixTreeAlgorithm C,
  engine_ok s → engine_ok (run calls s).
Proof using accepts_all.
  induction calls as [|c calls IH]; intros s Hs; simpl; [done|].
  apply IH. destruct c as [|v]; simpl.
  - by apply engine_ok_Reset.
  - destruct (IsUnique_total s v Hs) as (b & s' & Hcall & Hs').
    change (RadixTree.IsUnique v s) with (IsUnique v s). by rewrite Hcall.
Qed.
End Total.

Lemma Unordered_accepts_all (s : str) : accepts (C := UnorderedEdges.Container) s = true.
Proof. done. Qed.

Lemma Ordered_accepts_all (s : str) :
  @accepts _ OrderedEdges_guarded OrderedEdges_guarded_Ok s = true.
Proof. done. Qed.

Abbreviation engine_ok_guarded :=
  (@engine_ok _ OrderedEdges_guarded OrderedEdges_guarded_Ok).

Lemma Ordered_run_engine_ok calls :
  engine_ok_guarded (run calls (RadixTree.new (C := OrderedEdges.Container))).
Proof.
  apply (Ordered_run_inv engine_ok_guarded).
  - intros s v Hs.
    destruct (@IsUnique_total _ OrderedEdges_guarded OrderedEdges_guarded_Ok
                Ordered_accepts_all s v Hs) as (b & s' & Hcall & Hs').
    change (IsUnique_guarded v s)
      with (@IsUnique _ (@CompactRadixTree_Algorithm _ OrderedEdges_guarded) v s).
    by rewrite Hcall.
  - apply (@engine_ok_Reset _ OrderedEdges_guarded OrderedEdges_guarded_Ok).
  - apply (@engine_ok_new _ OrderedEdges_guarded OrderedEdges_guarded_Ok).
Qed.

(** X16: with [UnorderedEdges] every call returns: after any sequence
    of [Reset] and [IsUnique] calls, [IsUnique] returns [true] or
    [false] for every string, digits or not, of any length.  With
    [OrderedEdges] a call returns [true] or [false] as well, unless
    [Find] steps below [begin()]: then the call is undefined and the
    engine is as it was. *)
Theorem IsUnique_returns (calls : list call) (value : str) :
  (∃ b, (IsUnique value (run calls (RadixTree.new (C := UnorderedEdges.Container)))).1 = Ok b)
  ∧ (let s := run calls (RadixTree.new (C := OrderedEdges.Container)) in
     (∃ b, (IsUnique value s).1 = Ok b) ∨ IsUnique value s = (Undefined, s)).
Proof.
  split.
  - destruct (IsUnique_total Unordered_accepts_all
                (run calls RadixTree.new) value) as (b & s' & Hcall & _).
    { apply run_engine_ok; [apply Unordered_accepts_all|apply engine_ok_new]. }
    exists b. by rewrite Hcall.
  - cbv zeta.
    destruct (@IsUnique_total _ OrderedEdges_guarded OrderedEdges_guarded_Ok
                Ordered_accepts_all (run calls RadixTree.new) value
                (Ordered_run_engine_ok calls)) as (b & s' & Hcall & _).
    destruct (Ordered_IsUnique_cases _ _ _ _ Hcall) as [->|[_ ->]]; [left|by right].
    by exists b.
Qed.

(** After ["34"], the value ["15"] with [OrderedEdges]: the only key is
    above it. *)
Lemma IsUnique_returns_witness :
  let s := run [CallIsUnique (of_string "34")]
             (RadixTree.new (C := OrderedEdges.Container)) in
  IsUnique (of_string "15") s = (Undefined, s).
Proof.
  cbv zeta.
  destruct (proj2 (IsUnique_returns [CallIsUnique (of_string "34")] (of_string "15")))
    as [[b Hb]|Hu]; [|exact Hu].
  vm_compute in Hb. discriminate Hb.
Defined.

(** ** The empty tree *)

Section Empty_tree.
Context {C : Type} `{!Edges C} `{!EdgesOk C}.

Lemma IsUnique_loop_empty (h : heap C) a v :
  nodes h !! a = Some (mkNode Edges_new) → v ≠ [] → forallb isdigit v = true →
  (IsUnique_loop (length v) (Some a) v false h).1 = Ok true.
Proof.
  intros Hn Hv Hd.
  destruct (Node_Eat_new h a (mkNode Edges_new) [] Hn cok_new) with (r := v) (u := false)
    as (c' & _ & _ & Hstep); [constructor|by intros ?? ?%elem_of_nil|done| |done|].
  { by apply accepts_digits. }
  destruct v as [|x v]; [done|]. cbn [length].
  rewrite (IsUnique_loop_step _ _ _ _ _ _ _ _ _ ltac:(done) Hstep).
  by rewrite IsUnique_loop_nil.
Qed.
End Empty_tree.

(** X17: an engine that has just been constructed or reset, in
    whatever state it was before, knows no value: the first call of
    [IsUnique] returns [true] for every non-empty digit string, of any
    length. *)
Theorem IsUnique_first_call :
  each_strategy (λ C _,
    ∀ (s : CompactRadixTreeAlgorithm C) (value : str),
      value ≠ [] → forallb isdigit value = true →
      (IsUnique value (RadixTree.new (C := C))).1 = Ok true
      ∧ (IsUnique value (Reset s).2).1 = Ok true).
Proof.
  apply each_strategy_guarded.
  2:{ intros H s v Hv Hd. destruct (H s v Hv Hd) as [H1 H2].
      split; apply Ordered_IsUnique_first_result; [done|exact H1| |exact H2].
      simpl. by rewrite lookup_app_r, Nat.sub_diag by done. }
  intros C E HE s v Hv Hd.
  change (IsUnique v ?x) with (RadixTree.IsUnique v x). unfold RadixTree.IsUnique. split.
  - pose proof (IsUnique_loop_empty (store (RadixTree.new (C := C))) 0 v eq_refl Hv Hd) as H.
    simpl in *. by destruct (IsUnique_loop _ _ _ _ _).
  - pose proof (IsUnique_loop_empty (store (Reset s).2) (m_Root (Reset s).2) v) as H.
    simpl in *. rewrite lookup_app_r, Nat.sub_diag in H by done.
    specialize (H eq_refl Hv Hd). by destruct (IsUnique_loop _ _ _ _ _).
Qed.

Lemma IsUnique_first_call_witness :
  let s := (run_calls [of_string "7"; of_string "70"]
              (RadixTree.new (C := IndexedEdges.Container))).2 in
  of_string "70" ≠ [] ∧ forallb isdigit (of_string "70") = true
  ∧ (IsUnique (of_string "70") (Reset s).2).1 = Ok true.
Proof.
  cbv zeta. assert (of_string "70" ≠ []) as Hv by done.
  split; [exact Hv|]. split; [reflexivity|].
  exact (proj2 (proj2 (proj2 IsUnique_first_call) _ (of_string "70") Hv eq_refl)).
Defined.

(** ** Values none of which begins one seen before

    The words of a tree are the labels along the ways from the root to
    its nodes, leaves or not.  A walk that uses up its value arrives at
    a node: the value is then a word of the tree. *)

Inductive t_word : tree → str → Prop :=
| t_word_here t : t_word t []
| t_word_kid a ks p l c w :
    (p, l, c) ∈ ks → t_word c w → t_word (TNode a ks) (l ++ w).

(** No two edges of a node start alike and no label is empty, in the
    whole tree. *)
Inductive t_good : tree → Prop :=
| t_good_node a ks :
    sib_ok ks.*1 → Forall (λ k, k.1.2 ≠ [] ∧ t_good k.2) ks → t_good (TNode a ks).

(** [r] ends at a node of the tree or leaves it: no word continues [r]. *)
Definition fits (t : tree) (r : str) : Prop :=
  ∀ w', w' ≠ [] → ¬ t_word t (r ++ w').

Lemma t_word_inv a ks w :
  t_word (TNode a ks) w ↔
  w = [] ∨ ∃ p l c w2, (p, l, c) ∈ ks ∧ w = l ++ w2 ∧ t_word c w2.
Proof.
  split.
  - inversion 1; subst; [by left|right]. by eexists _, _, _, _.
  - intros [->|(p & l & c & w2 & Hin & -> & Hw)]; [constructor|].
    by eapply t_word_kid.
Qed.

Lemma path_eq_word t w' w : w' = w → t_word t w' → t_word t w.
Proof. by intros ->. Qed.

Lemma t_word_leaf a w : t_word (TNode a []) w ↔ w = [].
Proof.
  rewrite t_word_inv. split; [|by left].
  intros [->|(p & l & c & w2 & Hin & _)]; [done|]. by apply elem_of_nil in Hin.
Qed.

Lemma t_good_inv a ks :
  t_good (TNode a ks) →
  sib_ok ks.*1 ∧ ∀ p l c, (p, l, c) ∈ ks → l ≠ [] ∧ t_good c.
Proof.
  inversion 1 as [?? Hsib Hall]; subst. split; [done|].
  rewrite Forall_forall in Hall. intros p l c Hin. apply (Hall _ Hin).
Qed.

(** The kid a word starts with is the one [find_kid] selects. *)
Lemma t_word_kid_at a ks i p l c r :
  t_good (TNode a ks) → ks !! i = Some (p, l, c) → head l = head r → r ≠ [] →
  t_word (TNode a ks) r → ∃ w, r = l ++ w ∧ t_word c w.
Proof.
  intros [Hsib Hall]%t_good_inv Hi Hh Hr [->|(p' & l' & c' & w2 & Hin & -> & Hw)]%t_word_inv;
    [done|].
  apply list_elem_of_lookup in Hin as [j Hj].
  destruct (Hall p' l' c' (list_elem_of_lookup_2 _ _ _ Hj)) as [Hl' _].
  assert (i = j) as ->.
  { apply (kid_head_inj ks i j _ _ Hsib Hi Hj). simpl. rewrite Hh. by destruct l'. }
  assert (p' = p ∧ l' = l ∧ c' = c) as (-> & -> & ->) by (split_and!; congruence).
  by exists w2.
Qed.

Lemma t_insert_addr fuel nn ne t r :
  t_addr (i_tree (t_insert fuel nn ne t r)) = t_addr t.
Proof.
  destruct r, fuel; simpl; try done.
  destruct (find_kid _ _); [|done].
  destruct (t_kids t !! _) as [[[p l] c]|]; [|done].
  by destruct (_ =? _).
Qed.

Lemma head_app_nonempty (l w : str) : l ≠ [] → head (l ++ w) = head l.
Proof. by destruct l. Qed.

(** What an insertion does to the words of a tree, for a value that
    fits: the value becomes a word, the words there were stay, and
    what else becomes a word is a prefix of the value. *)
Lemma t_insert_words fuel nn ne : ∀ t r,
  t_good t → length r ≤ fuel → fits t r →
  let res := t_insert fuel nn ne t r in
  t_good (i_tree res)
  ∧ (i_unique res = true ↔ ¬ t_word t r)
  ∧ (∀ w, t_word t w → t_word (i_tree res) w)
  ∧ t_word (i_tree res) r
  ∧ (∀ w, t_word (i_tree res) w → t_word t w ∨ w `prefix_of` r).
Proof.
  induction fuel as [|fuel IH]; intros [a ks] r Hg Hlen Hfit; cbv zeta.
  { destruct r; [|simpl in Hlen; lia]. simpl.
    split_and!; [done| |done|constructor|by left].
    split; [done|]. intros H. destruct H. constructor. }
  destruct r as [|x r0].
  { simpl. split_and!; [done| |done|constructor|by left].
    split; [done|]. intros H. destruct H. constructor. }
  cbn [t_insert t_kids t_addr]. set (r := x :: r0) in *.
  assert (r ≠ []) as Hrne by done.
  assert (head r = Some x) as Hhr by done. clearbody r.
  destruct (t_good_inv _ _ Hg) as [Hsib Hall].
  assert (Forall (λ k : ptr * str * tree, k.1.2 ≠ [] ∧ t_good k.2) ks) as HF
    by (by inversion Hg).
  destruct (find_kid ks r) as [i|] eqn:Hfk.
  - destruct (find_kid_Some _ _ _ Hfk) as (p & l & c & Hi & Hpos). rewrite Hi.
    pose proof (list_elem_of_lookup_2 _ _ _ Hi) as Hin.
    destruct (Hall _ _ _ Hin) as [Hl Hgc].
    pose proof (common_chars_le_l l r). pose proof (common_chars_le_r l r).
    apply common_chars_pos in Hpos as Hhd. destruct Hhd as [Hhd _].
    destruct (Nat.eqb_spec (common_chars l r) (length l)) as [Hfull|Hpart].
    + pose proof (common_chars_full l r Hfull) as Hr. rewrite Hfull.
      set (r' := drop (length l) r) in *.
      destruct (IH c r' Hgc) as (Hg' & Hu' & Hkeep' & Hin' & Hnew').
      { unfold r'. rewrite length_drop. destruct l; [done|]. simpl in *. lia. }
      { intros w' Hw' Hword. apply (Hfit w' Hw'). rewrite Hr, <- (assoc_L (++)).
        by eapply t_word_kid. }
      set (res := t_insert fuel nn ne c r') in *.
      cbn [i_tree i_unique]. split_and!.
      * constructor.
        -- rewrite list_fmap_insert. simpl. rewrite list_insert_id; [done|].
           by rewrite list_lookup_fmap, Hi.
        -- by apply Forall_insert.
      * rewrite Hu'. split; intros Hn Hw; apply Hn.
        -- destruct (t_word_kid_at a ks i p l c r Hg Hi Hhd Hrne Hw) as (w & Hrw & Hcw).
           rewrite Hr in Hrw. apply app_inv_head in Hrw. by rewrite Hrw.
        -- rewrite Hr. by eapply t_word_kid.
      * intros w [->|(p' & l' & c' & w2 & Hin2 & -> & Hw2)]%t_word_inv; [constructor|].
        apply list_elem_of_lookup in Hin2 as [j Hj].
        destruct (decide (j = i)) as [->|Hne].
        -- assert (p' = p ∧ l' = l ∧ c' = c) as (-> & -> & ->) by (split_and!; congruence).
           apply (t_word_kid _ _ p l (i_tree res)); [|by apply Hkeep'].
           apply (list_elem_of_lookup_2 _ i). apply list_lookup_insert_eq.
           by eapply lookup_lt_Some.
        -- apply (t_word_kid _ _ p' l' c'); [|done].
           apply (list_elem_of_lookup_2 _ j). by rewrite list_lookup_insert_ne.
      * apply (path_eq_word _ (l ++ r')); [done|].
        apply (t_word_kid _ _ p l (i_tree res)); [|done].
        apply (list_elem_of_lookup_2 _ i). apply list_lookup_insert_eq.
        by eapply lookup_lt_Some.
      * intros w [->|(p' & l' & c' & w2 & Hin2 & -> & Hw2)]%t_word_inv; [left; constructor|].
        apply list_elem_of_lookup in Hin2 as [j Hj].
        apply list_lookup_insert_Some in Hj as [(-> & [= <- <- <-] & _)|[Hne Hj]].
        -- destruct (Hnew' _ Hw2) as [Hold|[z Hz]].
           ++ left. by eapply t_word_kid.
           ++ right. exists z. by rewrite Hr, Hz, (assoc_L (++)).
        -- left. apply (t_word_kid _ _ p' l' c'); [|done]. by eapply list_elem_of_lookup_2.
    + set (k := common_chars l r) in *.
      assert (k < length l) as Hkl by lia.
      assert (take k l = take k r) as Htake by apply common_chars_take.
      assert (take k l ≠ []) as Htk.
      { intros Hnil%(f_equal length). rewrite length_take in Hnil. simpl in Hnil. lia. }
      assert (drop k l ≠ []) as Hdl.
      { intros Hnil%(f_equal length). rewrite length_drop in Hnil. simpl in Hnil. lia. }
      assert (drop k r ≠ []) as Hdr.
      { intros Hnil. apply (Hfit (drop k l) Hdl).
        assert (r = take k l) as Er.
        { rewrite Htake, <- (app_nil_r (take k r)), <- Hnil. symmetry. apply take_drop. }
        apply (path_eq_word _ (l ++ [])).
        { rewrite app_nil_r. transitivity (take k l ++ drop k l); [by rewrite take_drop|].
          by f_equal. }
        eapply t_word_kid; [done|constructor]. }
      destruct (common_chars_diverge l r) as [Hdiv _]; [done|]. fold k in Hdiv.
      assert (¬ t_word (TNode a ks) r) as Hnot.
      { intros Hw.
        destruct (t_word_kid_at a ks i p l c r Hg Hi Hhd Hrne Hw) as (w & Hrw & _).
        unfold k in Hkl. rewrite Hrw, common_chars_app in Hkl. lia. }
      cbn [i_tree i_unique]. split_and!.
      * constructor.
        -- rewrite list_fmap_insert. simpl.
           eapply shortened_sib_ok; [|done].
           apply (shortened_insert _ i p l); [by rewrite list_lookup_fmap, Hi|apply prefix_take|].
           apply take_head. lia.
        -- apply Forall_insert; [done|]. simpl.
           split; [done|]. constructor.
           ++ unfold sib_ok. simpl. apply NoDup_cons. split; [|apply NoDup_singleton].
              by intros ?%list_elem_of_singleton.
           ++ repeat constructor; simpl; done.
      * done.
      * intros w [->|(p' & l' & c' & w2 & Hin2 & -> & Hw2)]%t_word_inv; [constructor|].
        apply list_elem_of_lookup in Hin2 as [j Hj].
        destruct (decide (j = i)) as [->|Hne].
        -- assert (p' = p ∧ l' = l ∧ c' = c) as (-> & -> & ->) by (split_and!; congruence).
           apply (path_eq_word _ (take k l ++ (drop k l ++ w2)));
             [by rewrite (assoc_L (++)), take_drop|].
           eapply t_word_kid.
           ++ apply (list_elem_of_lookup_2 _ i). apply list_lookup_insert_eq.
              by eapply lookup_lt_Some.
           ++ eapply t_word_kid; [left|done].
        -- apply (t_word_kid _ _ p' l' c'); [|done].
           apply (list_elem_of_lookup_2 _ j). by rewrite list_lookup_insert_ne.
      * apply (path_eq_word _ (take k l ++ (drop k r ++ [])));
          [by rewrite app_nil_r, Htake, take_drop|].
        eapply t_word_kid.
        -- apply (list_elem_of_lookup_2 _ i). apply list_lookup_insert_eq.
           by eapply lookup_lt_Some.
        -- eapply t_word_kid; [right; left|constructor].
      * intros w [->|(p' & l' & c' & w2 & Hin2 & -> & Hw2)]%t_word_inv; [left; constructor|].
        apply list_elem_of_lookup in Hin2 as [j Hj].
        apply list_lookup_insert_Some in Hj as [(-> & [= <- <- <-] & _)|[Hne Hj]].
        -- apply t_word_inv in Hw2 as [->|(p2 & l2 & c2 & w3 & Hin3 & -> & Hw3)].
           ++ right. rewrite app_nil_r, Htake. apply prefix_take.
           ++ apply elem_of_cons in Hin3 as [[= -> -> ->]|Hin3].
              ** left. rewrite (assoc_L (++)), take_drop. by eapply t_word_kid.
              ** apply list_elem_of_singleton in Hin3 as [= -> -> ->].
                 apply t_word_leaf in Hw3 as ->. right.
                 by rewrite app_nil_r, Htake, take_drop.
        -- left. apply (t_word_kid _ _ p' l' c'); [|done]. by eapply list_elem_of_lookup_2.
  - cbn [i_tree i_unique].
    assert (¬ t_word (TNode a ks) r) as Hnot.
    { intros [->|(p' & l' & c' & w2 & Hin2 & -> & Hw2)]%t_word_inv; [done|].
      destruct (Hall _ _ _ Hin2) as [Hl' _].
      pose proof (find_kid_None _ _ _ _ _ Hfk Hin2) as Hz.
      apply common_chars_zero in Hz as [Hz|Hz]; [|done].
      by rewrite head_app_nonempty in Hz. }
    split_and!.
    + constructor.
      * unfold sib_ok in *. rewrite !fmap_app. simpl.
        apply NoDup_app. split_and!; [done| |apply NoDup_singleton].
        intros o (l0 & -> & (pl & -> & ([[p l] c] & -> & Hin)%list_elem_of_fmap)%list_elem_of_fmap)%list_elem_of_fmap Ho.
        apply list_elem_of_singleton in Ho. simpl in *.
        pose proof (find_kid_None _ _ _ _ _ Hfk Hin) as Hz. apply common_chars_zero in Hz.
        destruct Hz as [?|Hl]; [done|]. by destruct (Hall _ _ _ Hin).
      * apply Forall_app. split; [done|].
        constructor; [|done]. simpl. split; [done|]. constructor; [constructor|constructor].
    + done.
    + intros w [->|(p' & l' & c' & w2 & Hin2 & -> & Hw2)]%t_word_inv; [constructor|].
      apply (t_word_kid _ _ p' l' c'); [|done]. apply elem_of_app. by left.
    + apply (path_eq_word _ (r ++ [])); [by rewrite app_nil_r|].
      eapply t_word_kid; [|constructor]. apply elem_of_app. right. left.
    + intros w [->|(p' & l' & c' & w2 & Hin2 & -> & Hw2)]%t_word_inv; [left; constructor|].
      apply elem_of_app in Hin2 as [Hin2|Hin2].
      * left. by eapply t_word_kid.
      * apply list_elem_of_singleton in Hin2 as [= -> -> ->].
        apply t_word_leaf in Hw2 as ->. right. by rewrite app_nil_r.
Qed.

(** The walk on a tree of labels of any lengths, for a value that fits. *)
Section Simulation_any.
Context {C : Type} `{!Edges C} `{!EdgesOk C}.

Lemma IsUnique_loop_fits fuel : ∀ (h : heap C) t r u,
  repr h t → t_wf (length (nodes h)) (length (edges h)) t →
  t_digits t → forallb isdigit r = true →
  t_good t → fits t r → length r ≤ fuel →
  let res := t_insert fuel (length (nodes h)) (length (edges h)) t r in
  ∃ h', IsUnique_loop fuel (Some (t_addr t)) r u h = (Ok (i_unique res || u), h')
        ∧ repr h' (i_tree res)
        ∧ length (nodes h') = length (nodes h) + i_nodes res
        ∧ length (edges h') = length (edges h) + i_edges res
        ∧ (∀ a, a < length (nodes h) → a ∉ t_nodes t → nodes h' !! a = nodes h !! a)
        ∧ (∀ p, p < length (edges h) → p ∉ t_edges t → edges h' !! p = edges h !! p).
Proof.
  induction fuel as [|fuel IH]; intros h [a ks] r u Hrep Hwf Hdig Hr Hg Hfit Hfuel; cbv zeta.
  { destruct r; [|simpl in Hfuel; lia]. exists h. simpl.
    split_and!; [done..|lia|lia|done|done]. }
  destruct r as [|x r0].
  { exists h. simpl. split_and!; [done..|lia|lia|done|done]. }
  cbn [t_insert t_kids t_addr]. set (r := x :: r0) in *.
  assert (r ≠ []) as Hrne by done. clearbody r. clear x r0.
  destruct (t_good_inv _ _ Hg) as [Hsib Hall].
  apply repr_inv in Hrep as (n0 & Hn & Hc & Hkids).
  pose proof (repr_labelled _ _ Hkids) as Hlab.
  assert (accepts r = true) as Hacc by (by apply accepts_digits).
  pose proof (find_edge_kids ks r) as Hfe.
  inversion Hdig as [a' ks' Hdall]; subst a' ks'.
  set (nn := length (nodes h)) in *. set (ne := length (edges h)) in *.
  destruct (find_kid ks r) as [i|] eqn:Hfk.
  - destruct (find_kid_Some _ _ _ Hfk) as (p & l & c & Hi & Hpos). rewrite Hi in Hfe |- *.
    pose proof (list_elem_of_lookup_2 _ _ _ Hi) as Hin.
    rewrite Forall_forall in Hkids. rewrite Forall_forall in Hdall.
    destruct (Hkids _ Hin) as [He Hrc]. destruct (Hall _ _ _ Hin) as [Hl Hgc].
    destruct (Hdall _ Hin) as [Hdl Hdc]. simpl in He, Hrc, Hdl, Hdc.
    apply common_chars_pos in Hpos as Hhd. destruct Hhd as [Hhd _].
    destruct (t_wf_kid nn ne a ks i p l c Hwf Hi) as (Hwfc & Hac & Hpc & Han & Hpn & Hoth).
    pose proof (common_chars_le_l l r). pose proof (common_chars_le_r l r).
    destruct (Nat.eqb_spec (common_chars l r) (length l)) as [Hfull|Hpart].
    + rewrite Hfull in Hfe |- *.
      rewrite (IsUnique_loop_step fuel a r u h (Some (t_addr c)) (drop (length l) r) u h)
        by (done || by eapply Node_Eat_follow).
      destruct (IH h c (drop (length l) r) u) as (h' & Hloop & Hrep' & Hln' & Hle' & Hfn & Hfe');
        [done|done|done|by apply forallb_drop|done| | |].
      { intros w' Hw' Hword. apply (Hfit w' Hw').
        rewrite (common_chars_full l r Hfull), <- (assoc_L (++)). by eapply t_word_kid. }
      { rewrite length_drop. destruct l; [done|]. simpl in *. lia. }
      fold nn ne in Hloop, Hrep', Hln', Hle', Hfn, Hfe'.
      set (res := t_insert fuel nn ne c (drop (length l) r)) in *.
      assert (t_addr (i_tree res) = t_addr c) as Haddr by apply t_insert_addr.
      exists h'. cbn [i_tree i_unique i_nodes i_edges]. split_and!; [done| |done|done|..].
      * apply (repr_node h' a _ n0).
        -- by rewrite Hfn.
        -- rewrite list_fmap_insert. simpl. rewrite list_insert_id; [done|].
           by rewrite list_lookup_fmap, Hi.
        -- apply Forall_lookup. intros j k [(-> & <- & _)|[Hne Hj]]%list_lookup_insert_Some; simpl.
           ++ split; [|done]. rewrite Hfe' by done. by rewrite He, Haddr.
           ++ apply not_eq_sym in Hne.
              destruct (Hoth j k Hne Hj) as (Hkp & Hkc & Hkn & Hke).
              pose proof (list_elem_of_lookup_2 _ _ _ Hj) as Hjin.
              destruct (Hkids _ Hjin) as [Hek Hrk].
              assert (k.1.1 < ne) as Hkb.
              { by eapply lookup_lt_Some. }
              split; [by rewrite Hfe'|].
              destruct (t_wf_kid nn ne a ks j k.1.1 k.1.2 k.2 Hwf) as ((_ & _ & Hbn & Hbe) & _);
                [by destruct k as [[??]?]|].
              rewrite Forall_forall in Hbn, Hbe.
              apply (repr_frame h); [done|..].
              ** intros a' Ha'. apply Hfn; [by apply Hbn|by apply Hkn].
              ** intros p' Hp'. apply Hfe'; [by apply Hbe|by apply Hke].
      * intros a' ? Ha'. apply Hfn; [done|]. intros Hx. apply Ha'. simpl. right.
        apply elem_of_flat_map. by exists (p, l, c).
      * intros p' ? Hp'. apply Hfe'; [done|]. intros Hx. apply Hp'. simpl.
        apply elem_of_flat_map. exists (p, l, c). split; [done|]. simpl. by right.
    + set (k := common_chars l r) in *.
      assert (k < length l) as Hkl by lia.
      assert (drop k l ≠ []) as Hdkl.
      { intros Hnil%(f_equal length). rewrite length_drop in Hnil. simpl in Hnil. lia. }
      assert (drop k r ≠ []) as Hdkr.
      { intros Hnil. apply (Hfit (drop k l) Hdkl).
        assert (r = take k l) as Er.
        { unfold k. rewrite common_chars_take. fold k.
          rewrite <- (app_nil_r (take k r)), <- Hnil. symmetry. apply take_drop. }
        apply (path_eq_word _ (l ++ [])).
        { rewrite app_nil_r. transitivity (take k l ++ drop k l); [by rewrite take_drop|].
          by f_equal. }
        eapply t_word_kid; [done|constructor]. }
      assert (accepts (drop k l) && accepts (drop k r) = true) as Hacc2.
      { apply andb_true_intro. split; apply accepts_digits; try (by apply forallb_drop); done. }
      pose proof (Node_Eat_split h a n0 ks.*1 Hn Hc Hsib Hlab r u k p l (t_addr c)
                    Hrne Hacc Hfe He Hkl) as Hstep.
      rewrite Hacc2 in Hstep. destruct Hstep as (c2 & Hc2 & Hstep). fold nn ne in Hc2, Hstep.
      rewrite (IsUnique_loop_step fuel a r u h None [] true _ Hrne Hstep), IsUnique_loop_nil.
      eexists. split; [done|]. cbn [i_tree i_unique i_nodes i_edges nodes edges].
      assert (∀ t0, repr h t0 → Forall (λ a, a < nn) (t_nodes t0) →
                Forall (λ q, q < ne) (t_edges t0) → p ∉ t_edges t0 →
                repr (mkHeap (nodes h ++ [mkNode Edges_new; mkNode c2])
                        (split_edges h p l r k (t_addr c) (S nn))) t0) as Hframe.
      { intros t0 Ht0 Hbn Hbe Hpt. rewrite Forall_forall in Hbn, Hbe.
        apply (repr_frame h); [done|..]; simpl.
        - intros a' Ha'. apply lookup_app_l. by apply Hbn.
        - intros p' Hp'. apply split_edges_old; [by intros ->|by apply Hbe]. }
      split_and!.
      * apply (repr_node _ a _ n0); simpl.
        -- by apply lookup_app_l_Some.
        -- rewrite list_fmap_insert. simpl. eapply cok_shorten; [done|].
           apply (shortened_insert _ i p l); [by rewrite list_lookup_fmap, Hi|apply prefix_take|].
           apply take_head. lia.
        -- apply Forall_lookup. intros j k0 [(-> & <- & _)|[Hne Hj]]%list_lookup_insert_Some; simpl.
           ++ split; [by apply split_edges_this|].
              apply (repr_node _ (S nn) _ (mkNode c2)); simpl.
              ** rewrite lookup_app_r by (fold nn; lia). by replace (S nn - length (nodes h)) with 1 by (fold nn; lia).
              ** done.
              ** apply Forall_cons. split; [|apply Forall_cons; split; [|constructor]]; simpl.
                 --- split; [by apply split_edges_first|]. destruct Hwfc as (_ & _ & ? & ?). by apply Hframe.
                 --- split; [by apply split_edges_second|]. apply repr_leaf. simpl.
                     by rewrite lookup_app_r, Nat.sub_diag by done.
           ++ apply not_eq_sym in Hne. destruct (Hoth j k0 Hne Hj) as (Hkp & Hkc & Hkn & Hke).
              pose proof (list_elem_of_lookup_2 _ _ _ Hj) as Hjin.
              destruct (Hkids _ Hjin) as [Hek Hrk].
              destruct (t_wf_kid nn ne a ks j k0.1.1 k0.1.2 k0.2 Hwf) as ((_ & _ & Hbn & Hbe) & _ & _ & _ & Hkb & _);
                [by destruct k0 as [[??]?]|].
              split; [by rewrite split_edges_old|]. apply Hframe; [done..|].
              intros Hx. by destruct (Hke _ Hx).
      * rewrite length_app. simpl. fold nn. lia.
      * rewrite split_edges_length. fold ne. lia.
      * intros a' ? _. by apply lookup_app_l.
      * intros p' ? Hp'. apply split_edges_old; [|done]. intros ->. apply Hp'. simpl.
        apply elem_of_flat_map. exists (p, l, c). split; [done|]. simpl. left.
  - destruct (Node_Eat_new h a n0 ks.*1 Hn Hc Hsib Hlab r u Hrne Hacc Hfe) as (c' & Hc' & _ & Hstep).
    fold nn ne in Hc', Hstep.
    rewrite (IsUnique_loop_step fuel a r u h None [] true _ Hrne Hstep), IsUnique_loop_nil.
    eexists. split; [done|]. cbn [i_tree i_unique i_nodes i_edges nodes edges].
    assert (a < nn) as Han by (by eapply lookup_lt_Some).
    destruct Hwf as (Hnd & Hed & Hbn & Hbe). simpl in Hnd, Hbn.
    apply NoDup_cons in Hnd as [Hak Hnd]. apply Forall_cons in Hbn as [_ Hbn].
    rewrite Forall_forall in Hbn, Hbe. rewrite Forall_forall in Hkids.
    split_and!.
    * apply (repr_node _ a _ (mkNode c')); simpl.
      -- apply list_lookup_insert_eq. rewrite length_app. simpl. lia.
      -- by rewrite fmap_app.
      -- apply Forall_app. split; [|apply Forall_cons; split; [|constructor]]; simpl.
         ++ apply Forall_forall. intros k0 Hk0. destruct (Hkids _ Hk0) as [Hek Hrk]. split.
            ** by apply lookup_app_l_Some.
            ** apply (repr_frame h); [done|..]; simpl.
               --- intros a' Ha'. assert (a' ∈ flat_map (λ k, t_nodes k.2) ks) as Hin'.
                   { apply elem_of_flat_map. by exists k0. }
                   rewrite list_lookup_insert_ne by (by intros ->).
                   apply lookup_app_l. by apply Hbn.
               --- intros p' Hp'. apply lookup_app_l. apply Hbe. simpl.
                   apply elem_of_flat_map. exists k0. split; [done|]. simpl. by right.
         ++ split; [by rewrite lookup_app_r, Nat.sub_diag by done|].
            apply repr_leaf. simpl. rewrite list_lookup_insert_ne by lia.
            by rewrite lookup_app_r, Nat.sub_diag by done.
    * rewrite length_insert, length_app. simpl. fold nn. lia.
    * rewrite length_app. simpl. fold ne. lia.
    * intros a' ? Ha'. rewrite list_lookup_insert_ne.
      -- by apply lookup_app_l.
      -- intros ->. apply Ha'. simpl. left.
    * intros p' ? _. by apply lookup_app_l.
Qed.
End Simulation_any.

(** [v] is a proper prefix of [u]. *)
Definition is_proper_prefix (v u : str) : bool :=
  (common_chars v u =? length v) && (length v <? length u).

(** The values come in an order the tree can take: each is a digit
    string, not empty, that is no proper prefix of one before it. *)
Fixpoint in_order (seen values : list str) : bool :=
  match values with
  | [] => true
  | v :: values' =>
      negb (length v =? 0) && forallb isdigit v
      && forallb (λ u, negb (is_proper_prefix v u)) seen
      && in_order (v :: seen) values'
  end.

Lemma is_proper_prefix_app (v w : str) : w ≠ [] → is_proper_prefix v (v ++ w) = true.
Proof.
  intros Hw. unfold is_proper_prefix. rewrite common_chars_app, Nat.eqb_refl. simpl.
  apply Nat.ltb_lt. rewrite length_app. destruct w; [done|]. simpl. lia.
Qed.

Section Engine_any.
Context {C : Type} `{!Edges C} `{!EdgesOk C}.

(** The engine holds a tree whose words are the values seen and
    prefixes of them. *)
Definition holds_any (s : CompactRadixTreeAlgorithm C) (t : tree) (seen : list str) : Prop :=
  repr (store s) t ∧ t_addr t = m_Root s
  ∧ t_wf (length (nodes (store s))) (length (edges (store s))) t
  ∧ t_digits t ∧ t_good t
  ∧ (∀ v, v ∈ seen → t_word t v)
  ∧ (∀ w, t_word t w → w = [] ∨ ∃ u, u ∈ seen ∧ w `prefix_of` u).

Lemma holds_any_new : holds_any RadixTree.new (TNode 0 []) [].
Proof.
  split_and!; [by apply repr_leaf|done| |by constructor| | |].
  - split_and!; simpl; [apply NoDup_singleton|constructor|by repeat constructor|constructor].
  - constructor; [constructor|constructor].
  - by intros ? ?%elem_of_nil.
  - intros w ->%t_word_leaf. by left.
Qed.

Lemma IsUnique_holds_any (s : CompactRadixTreeAlgorithm C) t seen v :
  holds_any s t seen → v ≠ [] → forallb isdigit v = true →
  forallb (λ u, negb (is_proper_prefix v u)) seen = true →
  ∃ s' t', IsUnique v s = (Ok (bool_decide (v ∉ seen)), s')
           ∧ holds_any s' t' (v :: seen).
Proof.
  intros (Hrep & Haddr & Hwf & Hdig & Hg & Hseen & Hwords) Hv Hd Hpre.
  rewrite forallb_forall in Hpre.
  assert (∀ u w, u ∈ seen → u = v ++ w → w = []) as Hnop.
  { intros u w Hu ->. destruct (decide (w = [])) as [|Hw]; [done|].
    apply list_elem_of_In, Hpre in Hu. by rewrite is_proper_prefix_app in Hu. }
  assert (fits t v) as Hfit.
  { intros w' Hw' Hword. destruct (Hwords _ Hword) as [Hnil|(u & Hu & [z Hz])].
    - by destruct v.
    - rewrite <- (assoc_L (++)) in Hz. apply Hnop in Hz; [|done]. by destruct w'. }
  assert (t_word t v ↔ v ∈ seen) as Hmem.
  { split; [|apply Hseen]. intros Hword.
    destruct (Hwords _ Hword) as [?|(u & Hu & [z Hz])]; [done|].
    pose proof (Hnop _ _ Hu Hz) as ->. rewrite app_nil_r in Hz. by subst. }
  destruct (IsUnique_loop_fits (length v) (store s) t v false Hrep Hwf Hdig Hd Hg Hfit (le_n _))
    as (h' & Hloop & Hrep' & Hln & Hle & _ & _).
  destruct (t_insert_words (length v) (length (nodes (store s))) (length (edges (store s)))
              t v Hg (le_n _) Hfit) as (Hg' & Hu & Hkeep & Hin & Hnew).
  set (res := t_insert _ _ _ t v) in *.
  exists (mkTree (m_Root s) h'), (i_tree res). split.
  - change (IsUnique v s) with (RadixTree.IsUnique v s). unfold RadixTree.IsUnique.
    rewrite <- Haddr, Hloop, orb_false_r. do 2 f_equal.
    destruct (i_unique res) eqn:Eu; symmetry.
    + apply bool_decide_eq_true. rewrite <- Hmem. by apply Hu.
    + apply bool_decide_eq_false. rewrite <- Hmem. intros Hx.
      assert (false = true) by (by apply Hu). done.
  - split_and!; simpl.
    + done.
    + unfold res. by rewrite t_insert_addr.
    + rewrite Hln, Hle. by apply t_insert_wf.
    + by apply t_insert_digits.
    + done.
    + intros w [->|Hw]%elem_of_cons; [done|]. by apply Hkeep, Hseen.
    + intros w Hw. destruct (Hnew _ Hw) as [Hold|Hpw].
      * destruct (Hwords _ Hold) as [?|(u & Hu' & ?)]; [by left|right].
        exists u. split; [by right|done].
      * right. exists v. split; [left|done].
Qed.

Lemma run_calls_holds_any vs : ∀ (s : CompactRadixTreeAlgorithm C) t seen,
  holds_any s t seen → in_order seen vs = true →
  (run_calls vs s).1 = (run_calls vs (list_to_set seen : gset str)).1.
Proof.
  induction vs as [|v vs IH]; intros s t seen Hh Hord; [done|].
  cbn [in_order] in Hord.
  apply andb_prop in Hord as [[[Hne Hd]%andb_prop Hpre]%andb_prop Hord].
  assert (v ≠ []) as Hv by (by destruct v).
  destruct (IsUnique_holds_any s t seen v Hh Hv Hd Hpre) as (s' & t' & Hcall & Hh').
  cbn [run_calls]. rewrite Hcall.
  change (IsUnique v (list_to_set seen : gset str))
    with (SetAlgorithm.IsUnique v (list_to_set seen)).
  unfold SetAlgorithm.IsUnique.
  specialize (IH s' t' (v :: seen) Hh' Hord). simpl in IH.
  destruct (run_calls vs s') as [rs s'']. 
  destruct (run_calls vs ({[v]} ∪ list_to_set seen)) as [rs' m']. simpl in *.
  f_equal; [|done]. f_equal. apply bool_decide_ext. set_solver.
Qed.
End Engine_any.

(** X18: the engine is exact whenever no value is a proper prefix of
    one passed before it, values of one length being a case of this.
    For non-empty digit strings passed in such an order to a new
    engine, with [UnorderedEdges] or [IndexedEdges], every call
    returns, the results are those of the set based detector call by
    call, and the number of [true] results is the number of distinct
    values.  With [OrderedEdges] the results and their number are these
    whenever the calls all return. *)
Theorem IsUnique_exact_in_order :
  unordered_and_indexed (λ C _,
    ∀ values : list str,
      in_order [] values = true →
      (run_calls values (RadixTree.new (C := C))).1 = (run_calls values SetAlgorithm.new).1
      ∧ Forall (λ r, ∃ b, r = Ok b) (run_calls values (RadixTree.new (C := C))).1
      ∧ count_true (run_calls values (RadixTree.new (C := C))).1
        = length (remove_dups values))
  ∧ ∀ values : list str,
      in_order [] values = true →
      Forall (λ r, ∃ b, r = Ok b)
        (run_calls values (RadixTree.new (C := OrderedEdges.Container))).1 →
      (run_calls values (RadixTree.new (C := OrderedEdges.Container))).1
      = (run_calls values SetAlgorithm.new).1
      ∧ count_true (run_calls values (RadixTree.new (C := OrderedEdges.Container))).1
        = length (remove_dups values).
Proof.
  split.
  - apply unordered_and_indexed_intro. intros C E HE vs Hord.
    pose proof (run_calls_holds_any vs RadixTree.new _ [] holds_any_new Hord) as Hrs.
    change (list_to_set [] : gset str) with (∅ : gset str) in Hrs.
    unfold SetAlgorithm.new. rewrite Hrs. split_and!; [done| |apply Set_count_true].
    by destruct (Set_run_calls vs ∅) as (_ & _ & ? & _).
  - intros vs Hord Hall. rewrite (Ordered_run_calls vs _ Hall).
    pose proof (@run_calls_holds_any _ OrderedEdges_guarded OrderedEdges_guarded_Ok
                  vs RadixTree.new _ [] holds_any_new Hord) as Hrs.
    change (list_to_set [] : gset str) with (∅ : gset str) in Hrs.
    change (@RadixTree.new _ OrderedEdges_Edges)
      with (@RadixTree.new _ OrderedEdges_guarded).
    unfold SetAlgorithm.new. rewrite Hrs. split; [done|apply Set_count_true].
Qed.

Lemma IsUnique_exact_in_order_witness :
  let values := of_string <$> ["1"; "12"; "2"; "12"; "123"] in
  in_order [] values = true
  ∧ (run_calls values (RadixTree.new (C := IndexedEdges.Container))).1
    = (run_calls values SetAlgorithm.new).1
  ∧ count_true (run_calls values (RadixTree.new (C := IndexedEdges.Container))).1
    = length (remove_dups values).
Proof.
  cbv zeta. split; [reflexivity|].
  pose proof (proj2 (proj1 IsUnique_exact_in_order)) as H. cbv beta in H.
  destruct (H (of_string <$> ["1"; "12"; "2"; "12"; "123"])) as (H1 & _ & H2);
    [reflexivity|].
  split; [exact H1|exact H2].
Defined.
